(** * xml_to_json_yaml: the streaming XML -> per-year JSON/YAML transcoder

    A shallow embedding of [src/xml_to_json_yaml.py] and the properties of
    it that the specification states; then of the mapping loader, of the
    writer of [src/merge_json_yaml_to_xml.py] and of the display of
    [src/schema_reader.py], with what holds between them and the
    transcoder.

    Conventions of the embedding.
    - A Python [str] is a [string]; its characters stand for the code
      points U+0000..U+00FF and the character classes below are Python's
      ([str.isspace], [str.isdigit], the [re] class \d) on that range.
    - A Python [dict] whose order is observable (a record, the writer
      registries) is an association list in insertion order, updated by
      [dict_set]; the mapping table, which is only looked up, is a [gmap].
    - [None] is [None] of an [option].
    - File objects are handles (natural numbers, in order of creation);
      what the program does to them is logged as a list of [io_event]s.
      Calls into [json] and [yaml] are logged as calls, with the record
      they were given. *)

From Stdlib Require Import Ascii String NArith Bool List Lia.
From stdpp Require Import base option list gmap strings fin_maps.

Open Scope string_scope.
Set Warnings "-register-all,-clear-no-such-hyp".

(** ** Characters and strings *)

Definition code (c : ascii) : N := N_of_ascii c.

Definition in_range (lo hi : N) (c : ascii) : bool :=
  (lo <=? code c)%N && (code c <=? hi)%N.

(** The [re] class \d (Unicode category Nd). *)
Definition re_digit (c : ascii) : bool := in_range 48 57 c.

(** [str.isdigit] on one character: the decimal digits and the
    superscripts U+00B2, U+00B3, U+00B9. *)
Definition char_isdigit (c : ascii) : bool :=
  re_digit c || (code c =? 178)%N || (code c =? 179)%N || (code c =? 185)%N.

(** [str.isspace] on one character: U+0009..U+000D, U+001C..U+0020,
    U+0085, U+00A0. *)
Definition char_isspace (c : ascii) : bool :=
  in_range 9 13 c || in_range 28 32 c || (code c =? 133)%N || (code c =? 160)%N.

Fixpoint str_all (p : ascii -> bool) (s : string) : bool :=
  match s with
  | EmptyString => true
  | String c s' => p c && str_all p s'
  end.

(** [s.isdigit()]: every character is a digit and there is at least one. *)
Definition isdigit (s : string) : bool :=
  negb (String.eqb s "") && str_all char_isdigit s.

(** Truth value of a string: [bool(s)]. *)
Definition str_truthy (s : string) : bool := negb (String.eqb s "").

Fixpoint lstrip (s : string) : string :=
  match s with
  | EmptyString => EmptyString
  | String c s' => if char_isspace c then lstrip s' else s
  end.

Fixpoint rstrip (s : string) : string :=
  match s with
  | EmptyString => EmptyString
  | String c s' =>
      match rstrip s' with
      | EmptyString => if char_isspace c then EmptyString else String c EmptyString
      | r => String c r
      end
  end.

(** [s.strip()] *)
Definition strip (s : string) : string := rstrip (lstrip s).

(** [s.split(sep)] for a one-character separator: never the empty list. *)
Fixpoint split (sep : ascii) (s : string) : list string :=
  match s with
  | EmptyString => [EmptyString]
  | String c s' =>
      if Ascii.eqb c sep then EmptyString :: split sep s'
      else match split sep s' with
           | h :: t => String c h :: t
           | [] => [String c EmptyString]
           end
  end.

(** ** The date resolver *)

(** One alternative [pq\d{2}] of [YEAR_RE], tried at the start of [s]. *)
Definition year_alt (p q : ascii) (s : string) : option string :=
  match s with
  | String a (String b (String c (String d _))) =>
      if Ascii.eqb a p && Ascii.eqb b q && re_digit c && re_digit d
      then Some (String a (String b (String c (String d EmptyString))))
      else None
  | _ => None
  end.

(** [YEAR_RE = re.compile(r'(18\d{2}|19\d{2}|20\d{2})')], matched at the
    start of [s]: the alternatives in the order they are written. *)
Definition YEAR_RE_match (s : string) : option string :=
  match year_alt "1" "8" s with
  | Some y => Some y
  | None =>
      match year_alt "1" "9" s with
      | Some y => Some y
      | None => year_alt "2" "0" s
      end
  end.

(** [YEAR_RE.search(s)] followed by [m.group(1)]: the start positions are
    tried from left to right. *)
Fixpoint YEAR_RE_search (s : string) : option string :=
  match YEAR_RE_match s with
  | Some y => Some y
  | None =>
      match s with
      | EmptyString => None
      | String _ s' => YEAR_RE_search s'
      end
  end.

Definition dash : ascii := "-".

(** [extract_year_from_birth(birth_str)]; the argument may be [None]. *)
Definition extract_year_from_birth (birth_str : option string) : option string :=
  match birth_str with
  | None => None
  | Some s =>
      if negb (str_truthy s) then None
      else
        match YEAR_RE_search s with
        | Some y => Some y
        | None =>
            let parts := split dash s in
            if (1 <=? length parts)%nat && (String.length (hd "" parts) =? 4)%nat
               && isdigit (hd "" parts)
            then Some (hd "" parts)
            else if (1 <=? length parts)%nat
                    && (String.length (List.last parts "") =? 4)%nat
                    && isdigit (List.last parts "")
            then Some (List.last parts "")
            else None
        end
  end.

(** [x or 'unknown'] for an optional string. *)
Definition or_unknown (x : option string) : string :=
  match x with
  | Some s => if str_truthy s then s else "unknown"
  | None => "unknown"
  end.

(** The resolver as [main] uses it on a date string that may be missing:
    [extract_year_from_birth(str(birth or 'unknown')) or 'unknown']. *)
Definition resolve_year (birth : option string) : string :=
  or_unknown (extract_year_from_birth (Some (or_unknown birth))).

(** ** Records and elements *)

(** A field value: a scalar string or a sub-mapping of scalar strings. *)
Inductive value : Type :=
| VStr (s : string)
| VDict (d : list (string * string)).

(** A record is a [dict] from field name to value, in insertion order. *)
Definition record : Type := list (string * value).

(** [d[k] = v]: an existing key keeps its place and gets the new value, a
    new key is added at the end. *)
Fixpoint dict_set {V : Type} (k : string) (v : V) (d : list (string * V))
  : list (string * V) :=
  match d with
  | [] => [(k, v)]
  | (k', v') :: d' =>
      if String.eqb k' k then (k', v) :: d' else (k', v') :: dict_set k v d'
  end.

(** [d.get(k)] *)
Fixpoint dict_get {V : Type} (k : string) (d : list (string * V)) : option V :=
  match d with
  | [] => None
  | (k', v') :: d' => if String.eqb k' k then Some v' else dict_get k d'
  end.

(** [k in d] *)
Definition dict_in {V : Type} (k : string) (d : list (string * V)) : bool :=
  match dict_get k d with Some _ => true | None => false end.

Definition dict_keys {V : Type} (d : list (string * V)) : list string := map fst d.

Definition dict_values {V : Type} (d : list (string * V)) : list V := map snd d.

(** An [xml.etree.ElementTree.Element]: [len(e)] is the number of its
    children and iterating it yields them in document order. *)
Inductive Element : Type :=
  mkElement {
    tag : string;
    attrib : list (string * string);
    text : option string;
    children : list Element
  }.

(** [map_tag(tag, mapping)]: [mapping.get(tag, tag)]. *)
Definition map_tag (t : string) (mapping : gmap string string) : string :=
  match mapping !! t with
  | Some target => target
  | None => t
  end.

(** [e.text.strip() if e.text else ''] *)
Definition text_or_empty (e : Element) : string :=
  match text e with
  | Some t => if str_truthy t then strip t else ""
  | None => ""
  end.

(** The inner loop of [person_elem_to_dict]: the sub-mapping of a child
    that has children. *)
Definition sub_dict (child : Element) (mapping : gmap string string)
  : list (string * string) :=
  fold_left (fun sub g => dict_set (map_tag (tag g) mapping) (text_or_empty g) sub)
            (children child) [].

(** What one child contributes to the record. *)
Definition child_value (child : Element) (mapping : gmap string string) : value :=
  if (length (children child) =? 0)%nat
  then VStr (text_or_empty child)
  else VDict (sub_dict child mapping).

(** [person_elem_to_dict(elem, mapping)] *)
Definition person_elem_to_dict (elem : Element) (mapping : gmap string string)
  : record :=
  let d :=
    fold_left (fun d kv => dict_set (map_tag (fst kv) mapping) (VStr (snd kv)) d)
              (attrib elem) [] in
  fold_left (fun d child =>
               dict_set (map_tag (tag child) mapping) (child_value child mapping) d)
            (children elem) d.

(** ** The orchestrator *)

Definition nl : string := String (ascii_of_nat 10) EmptyString.

Definition candidates : list string :=
  ["birth"; "fecha"; "fechaNacimiento"; "birthdate"; "birth_date"].

(** The loop over the candidate names: the value under the first
    candidate that is a key of the record. *)
Fixpoint first_candidate (cs : list string) (r : record) : option value :=
  match cs with
  | [] => None
  | c :: cs' => if dict_in c r then dict_get c r else first_candidate cs' r
  end.

(** [birth_val] as line 140 reads it. *)
Definition birth_val (r : record) (mapping : gmap string string) : option value :=
  match first_candidate candidates r with
  | Some v => Some v
  | None => dict_get (map_tag "birth" mapping) r
  end.

Definition handle : Type := nat.

(** What the program asks of the file system and of the two serializers. *)
Inductive io_event : Type :=
| EOpen (h : handle) (name : string)
| EWrite (h : handle) (s : string)
| EJsonDump (h : handle) (obj : record)
| EYamlDump (h : handle) (obj : record)
| EClose (h : handle).

(** The exceptions of a run: a file operation that fails, a missing key
    of a [dict], and the [ParseError] of the XML parser on a document
    that is not well formed. *)
Inductive exn : Type :=
| OSError (ev : io_event)
| KeyError (k : string)
| ParseError.

Inductive result (A : Type) : Type :=
| Ok (a : A)
| Raise (e : exn).

Arguments Ok {A} a.
Arguments Raise {A} e.

(** [class JsonArrayWriter]: the file object and the flag [first]. *)
Record JsonArrayWriter : Type := mkWriter { f : handle; first : bool }.

(** The two registries of [main] and the log of what was done so far. *)
Record state : Type :=
  mkState {
    json_writers : list (string * JsonArrayWriter);
    yaml_files : list (string * handle);
    log : list io_event
  }.

Definition initial : state := mkState [] [] [].

(** A statement: it changes the state and returns or raises. *)
Definition M (A : Type) : Type := state -> state * result A.

Definition ret {A : Type} (a : A) : M A := fun st => (st, Ok a).


(** Reading the current state. *)
Definition get_state : M state := fun st => (st, Ok st).

Definition bind {A B : Type} (m : M A) (k : A -> M B) : M B :=
  fun st =>
    match m st with
    | (st', Ok a) => k a st'
    | (st', Raise e) => (st', Raise e)
    end.

Notation "x <- m ;; k" := (bind m (fun x => k))
  (at level 100, m at next level, right associativity).
Notation "m ;; k" := (bind m (fun _ => k))
  (at level 100, right associativity).

(** [for x in l: body(x)] *)
Fixpoint for_each {A : Type} (body : A -> M unit) (l : list A) : M unit :=
  match l with
  | [] => ret tt
  | x :: l' => body x ;; for_each body l'
  end.

(** The names of the two files of a partition key inside the output
    directory. *)
Definition json_name (key : string) : string := "people_" ++ key ++ ".json".
Definition yaml_name (key : string) : string := "people_" ++ key ++ ".yaml".

Section Transcoder.

(** [str(d)] of a non-empty sub-mapping [d]: the built-in's text is not
    part of the sources. *)
Variable py_repr : list (string * string) -> string.

(** The environment: whether an operation, asked after the operations
    of the log, fails with [OSError]. *)
Variable faulty : list io_event -> io_event -> bool.

(** The arguments [--mapping] (loaded) and [--record-tag]. *)
Variable mapping : gmap string string.
Variable record_tag : string.

(** [str(birth_val or 'unknown')] *)
Definition birth_text (v : option value) : string :=
  match v with
  | Some (VStr s) => if str_truthy s then s else "unknown"
  | Some (VDict []) => "unknown"
  | Some (VDict d) => py_repr d
  | None => "unknown"
  end.

(** [year_str] of a record. *)
Definition year_of (r : record) : string :=
  or_unknown (extract_year_from_birth (Some (birth_text (birth_val r mapping)))).

(** One operation on the outside world. *)
Definition io (ev : io_event) : M unit :=
  fun st =>
    if faulty (log st) ev then (st, Raise (OSError ev))
    else (mkState (json_writers st) (yaml_files st) (log st ++ [ev]), Ok tt).

(** [open(p, 'w', encoding='utf-8')]: a new file object. *)
Definition open_w (name : string) : M handle :=
  st <- get_state ;;
  io (EOpen (length (log st)) name) ;;
  ret (length (log st)).

(** [JsonArrayWriter.__init__] *)
Definition JsonArrayWriter_init (p : string) : M JsonArrayWriter :=
  h <- open_w p ;;
  io (EWrite h ("[" ++ nl)) ;;
  ret (mkWriter h true).

(** [json_writers[key]], which raises [KeyError] on a missing key. *)
Definition json_writer_at (key : string) : M JsonArrayWriter :=
  fun st =>
    match dict_get key (json_writers st) with
    | Some w => (st, Ok w)
    | None => (st, Raise (KeyError key))
    end.

Definition json_writer_put (key : string) (w : JsonArrayWriter) : M unit :=
  fun st => (mkState (dict_set key w (json_writers st)) (yaml_files st) (log st), Ok tt).

Definition yaml_file_at (key : string) : M handle :=
  fun st =>
    match dict_get key (yaml_files st) with
    | Some h => (st, Ok h)
    | None => (st, Raise (KeyError key))
    end.

Definition yaml_file_put (key : string) (h : handle) : M unit :=
  fun st => (mkState (json_writers st) (dict_set key h (yaml_files st)) (log st), Ok tt).

(** [JsonArrayWriter.write] on the writer registered under [key]; the
    assignment to [self.first] changes the registered object. *)
Definition JsonArrayWriter_write (key : string) (obj : record) : M unit :=
  w <- json_writer_at key ;;
  (if negb (first w) then io (EWrite (f w) ("," ++ nl))
   else json_writer_put key (mkWriter (f w) false)) ;;
  io (EJsonDump (f w) obj).

(** [JsonArrayWriter.close] *)
Definition JsonArrayWriter_close (w : JsonArrayWriter) : M unit :=
  io (EWrite (f w) (nl ++ "]" ++ nl)) ;;
  io (EClose (f w)).

(** [yaml_write(f, obj)] *)
Definition yaml_write (h : handle) (obj : record) : M unit :=
  io (EYamlDump h obj) ;;
  io (EWrite h nl).

(** Lines 143-151: the record goes to the two writers of its year. *)
Definition route (year_str : string) (r : record) : M unit :=
  (st <- get_state ;;
   if negb (dict_in year_str (json_writers st))
   then w <- JsonArrayWriter_init (json_name year_str) ;;
        json_writer_put year_str w
   else ret tt) ;;
  JsonArrayWriter_write year_str r ;;
  (st <- get_state ;;
   if negb (dict_in year_str (yaml_files st))
   then h <- open_w (yaml_name year_str) ;;
        yaml_file_put year_str h
   else ret tt) ;;
  h <- yaml_file_at year_str ;;
  yaml_write h r.

(** The body of the loop over the parser's end events.  After routing,
    [elem.clear()] empties the element, and the clean-up of the earlier
    siblings raises [AttributeError] on the standard [Element], which is
    caught: neither touches the registries or the files. *)
Definition process (elem : Element) : M unit :=
  if negb (String.eqb (tag elem) record_tag) then ret tt
  else
    let r := person_elem_to_dict elem mapping in
    route (year_of r) r.

(** Lines 166-170 *)
Definition close_all : M unit :=
  (st <- get_state ;; for_each JsonArrayWriter_close (dict_values (json_writers st))) ;;
  (st <- get_state ;; for_each (fun h => io (EClose h)) (dict_values (yaml_files st))).

(** [main], from the loop on: [elems] are the elements the parser
    yields, each as it stands when it is yielded. *)
Definition main_loop (elems : list Element) : M unit := for_each process elems.

Definition main (elems : list Element) : M unit :=
  main_loop elems ;;
  close_all.


End Transcoder.

(** ** Reading the log *)

(** The records of a run, in the order of the input, and the ones that
    belong to one partition key. *)
Definition records (mapping : gmap string string) (record_tag : string)
  (elems : list Element) : list record :=
  map (fun e => person_elem_to_dict e mapping)
      (filter (fun e => String.eqb (tag e) record_tag = true) elems).

Definition routed (py_repr : list (string * string) -> string)
  (mapping : gmap string string) (record_tag : string)
  (key : string) (elems : list Element) : list record :=
  filter (fun r => String.eqb (year_of py_repr mapping r) key = true)
         (records mapping record_tag elems).

(** What a file holds: the texts written to it and, for a call of a
    serializer, the record that was serialized. *)
Inductive chunk : Type :=
| Text (s : string)
| JsonDoc (r : record)
| YamlDoc (r : record).

Definition chunk_of (h : handle) (ev : io_event) : option chunk :=
  match ev with
  | EWrite h' s => if Nat.eqb h' h then Some (Text s) else None
  | EJsonDump h' r => if Nat.eqb h' h then Some (JsonDoc r) else None
  | EYamlDump h' r => if Nat.eqb h' h then Some (YamlDoc r) else None
  | _ => None
  end.

(** Everything written through the handle [h]. *)
Definition written (h : handle) (l : list io_event) : list chunk :=
  omap (chunk_of h) l.

Definition opens_name (name : string) (ev : io_event) : option handle :=
  match ev with
  | EOpen h n => if String.eqb n name then Some h else None
  | _ => None
  end.

(** The handles that were opened on the file [name], oldest first. *)
Definition opened (name : string) (l : list io_event) : list handle :=
  omap (opens_name name) l.

(** The content of the file [name]: mode ['w'] truncates, so it is what
    was written through the handle opened last. *)
Definition file_content (name : string) (l : list io_event) : list chunk :=
  match List.last (map Some (opened name l)) None with
  | Some h => written h l
  | None => []
  end.

(** The JSON reading of a file: white space around a token does not
    count, so the texts the writer puts between the serialized records
    are the tokens left bracket, comma and right bracket. *)
Fixpoint json_elements (c : list chunk) : option (list record) :=
  match c with
  | [Text t] => if String.eqb (strip t) "]" then Some [] else None
  | Text t :: JsonDoc r :: c' =>
      if String.eqb (strip t) "," then cons r <$> json_elements c' else None
  | _ => None
  end.

(** [json.load] of a file that holds one array of records. *)
Definition json_load (c : list chunk) : option (list record) :=
  match c with
  | Text t :: c' =>
      if String.eqb (strip t) "[" then
        match c' with
        | [Text t'] => if String.eqb (strip t') "]" then Some [] else None
        | JsonDoc r :: c'' => cons r <$> json_elements c''
        | _ => None
        end
      else None
  | _ => None
  end.

(** Where the reader of a YAML stream stands: nothing of a document
    read (at the start of the stream or after a marker), inside a block
    mapping, or behind a flow mapping. *)
Inductive yaml_pos : Type :=
| AtStart
| InBlock
| AfterFlow.

(** [yaml.safe_load_all] on a stream, as far as the number of its
    documents goes; [None] when the reader raises.  [yaml.safe_dump] is
    called without [explicit_start], so what it writes carries no
    document marker.  A record with fields is written as a block
    mapping, [key: value] lines at the left margin: it starts a
    document at the start of the stream or after the marker ---, and
    read inside a block mapping its lines are more entries of that
    mapping.  A record without fields is written as the flow mapping
    [{}], which is a complete document: it cannot follow a block
    mapping, and nothing can follow it without a marker. *)
Fixpoint yaml_documents (pos : yaml_pos) (c : list chunk) : option nat :=
  match c with
  | [] => Some 0
  | YamlDoc r :: c' =>
      match r, pos with
      | [], AtStart => S <$> yaml_documents AfterFlow c'
      | [], _ => None
      | _ :: _, AtStart => S <$> yaml_documents InBlock c'
      | _ :: _, InBlock => yaml_documents InBlock c'
      | _ :: _, AfterFlow => None
      end
  | Text t :: c' =>
      if String.eqb (strip t) "---" then yaml_documents AtStart c'
      else yaml_documents pos c'
  | JsonDoc _ :: c' => yaml_documents pos c'
  end.

(** The discipline of the writer pool, checked along a log: a file name
    is opened at most once and under a new handle; a text is written, and
    a handle is closed, only while the handle is open; a record is
    serialized only into the open handle of the file of its key.
    [fs_open] holds the open handles with their file names. *)
Record fs_state : Type :=
  mkFs {
    fs_open : list (handle * string);
    fs_used : list handle;
    fs_names : list string
  }.

Definition is_open (h : handle) (s : fs_state) : bool :=
  bool_decide (h ∈ map fst (fs_open s)).

Definition fs_step (key_of : record -> string) (s : fs_state) (ev : io_event)
  : option fs_state :=
  match ev with
  | EOpen h n =>
      if bool_decide (h ∈ fs_used s) || bool_decide (n ∈ fs_names s) then None
      else Some (mkFs ((h, n) :: fs_open s) (h :: fs_used s) (n :: fs_names s))
  | EWrite h _ => if is_open h s then Some s else None
  | EJsonDump h r =>
      if bool_decide ((h, json_name (key_of r)) ∈ fs_open s) then Some s else None
  | EYamlDump h r =>
      if bool_decide ((h, yaml_name (key_of r)) ∈ fs_open s) then Some s else None
  | EClose h =>
      if is_open h s
      then Some (mkFs (filter (fun hn => fst hn <> h) (fs_open s)) (fs_used s) (fs_names s))
      else None
  end.

Fixpoint fs_run (key_of : record -> string) (s : fs_state) (l : list io_event)
  : option fs_state :=
  match l with
  | [] => Some s
  | ev :: l' =>
      match fs_step key_of s ev with
      | Some s' => fs_run key_of s' l'
      | None => None
      end
  end.

Definition fs_init : fs_state := mkFs [] [] [].

Definition is_close_of (h : handle) (ev : io_event) : bool :=
  match ev with EClose h' => Nat.eqb h' h | _ => false end.

(** How often the handle [h] was closed. *)
Definition closes (h : handle) (l : list io_event) : nat :=
  length (filter (fun ev => is_close_of h ev = true) l).

(** The environment in which no operation fails. *)
Definition never : list io_event -> io_event -> bool := fun _ _ => false.

(** ** The parser's events *)

(** [elem.clear()]: the tag stays; the attributes, the text and the
    children go. *)
Definition clear (e : Element) : Element := mkElement (tag e) [] None [].

(** [ET.iterparse(xml, events=('end',))] under the loop of [main]
    (lines 122-154).  The parser yields every element of the document
    at its end tag, the children before their parent, and an element
    still holds the objects of its children when it is yielded; the loop
    has by then cleared each child that carries the record tag (line
    154), and no other element.  The clean-up of lines 159-163 changes
    nothing: [elem.getprevious] does not exist on the elements of
    [xml.etree.ElementTree], the module that line 7 imports, so the
    first test of the [while] raises [AttributeError], which is caught,
    and no element is removed from its parent.  The first component is
    the list of the elements, each as it stands when it is yielded; the
    second is the element as the loop leaves it in the tree. *)
Fixpoint iterparse (record_tag : string) (e : Element) : list Element * Element :=
  match e with
  | mkElement t a x cs =>
      let rs := map (iterparse record_tag) cs in
      let e' := mkElement t a x (map snd rs) in
      ((concat (map fst rs) ++ [e'])%list,
       if String.eqb t record_tag then clear e' else e')
  end.

(** The elements that the loop of [main] reads from a document. *)
Definition yielded (record_tag : string) (root : Element) : list Element :=
  fst (iterparse record_tag root).

(** The elements of a document in the order of their end tags. *)
Fixpoint end_order (e : Element) : list Element :=
  match e with
  | mkElement t a x cs => (concat (map end_order cs) ++ [e])%list
  end.

(** The element or one inside it carries the record tag. *)
Fixpoint has_record (record_tag : string) (e : Element) : bool :=
  match e with
  | mkElement t a x cs => String.eqb t record_tag || existsb (has_record record_tag) cs
  end.

(** No record element of the document stands inside another one. *)
Fixpoint unnested (record_tag : string) (e : Element) : bool :=
  match e with
  | mkElement t a x cs =>
      (if String.eqb t record_tag
       then forallb (fun c => negb (has_record record_tag c)) cs
       else true)
      && forallb (unnested record_tag) cs
  end.

(** ** The mapping loader *)

(** [e.find(t)] where [t] is an element name, as are ['source'] and
    ['target'] in [load_mapping]: the first child with the tag, or
    [None].  (For a path expression of ElementPath [find] does
    something else, which is not modelled.) *)
Definition find (t : string) (e : Element) : option Element :=
  List.find (fun c => String.eqb (tag c) t) (children e).

(** The table that the XML branch of [load_mapping] builds: the text of
    an element may be [None], as a source and as a target. *)
Abbreviation loaded_mapping := (gmap (option string) (option string)).

(** [load_mapping], lines 24-35: the table of the root element of a
    mapping file in XML.  An entry is [<map from=".." to=".."/>] or has
    a [source] and a [target] child; an element that is neither is
    passed over. *)
Definition load_mapping_xml (root : Element) : loaded_mapping :=
  fold_left
    (fun mapping m =>
       if dict_in "from" (attrib m) && dict_in "to" (attrib m)
       then <[dict_get "from" (attrib m) := dict_get "to" (attrib m)]> mapping
       else
         match find "source" m, find "target" m with
         | Some src, Some tgt => <[text src := text tgt]> mapping
         | _, _ => mapping
         end)
    (children root) ∅.

(** [map_tag(tag, mapping)] on a table as it was loaded: the target may
    be [None]. *)
Definition map_tag_loaded (t : string) (mapping : loaded_mapping) : option string :=
  match mapping !! Some t with
  | Some target => target
  | None => Some t
  end.

(** The entries of a loaded table that translate a name to a name. *)
Definition str_entry (kv : option string * option string) : option (string * string) :=
  match kv with
  | (Some k, Some v) => Some (k, v)
  | _ => None
  end.

Definition str_table (mapping : loaded_mapping) : gmap string string :=
  list_to_map (omap str_entry (map_to_list mapping)).

(** * merge_json_yaml_to_xml: the records back to XML *)

(** A value as [json.load] and [yaml.safe_load_all] return it.  A scalar
    ([str], [int], [float], [bool], ...) is given by its [str()], and so
    is a key of a [dict]. *)
Inductive pyval : Type :=
| PNone
| PScalar (s : string)
| PDict (d : list (string * pyval))
| PList (l : list pyval).

(** The calls of the [XMLGenerator]. *)
Inductive sax_event : Type :=
| startElement (name : string) (attrs : list (string * string))
| characters (content : string)
| endElement (name : string).

(** [s.replace(old, new)] for one-character [old] and [new]. *)
Fixpoint replace (old new : ascii) (s : string) : string :=
  match s with
  | EmptyString => EmptyString
  | String c s' => String (if Ascii.eqb c old then new else c) (replace old new s')
  end.

Section Merge.

(** [str(l)] of a list: the built-in's text is not part of the
    sources. *)
Variable list_repr : list pyval -> string.

(** [write_record_as_xml(gen, tagname, data)]: the calls it makes on
    [gen], in order. *)
Fixpoint write_record_as_xml (tagname : string) (data : pyval) : list sax_event :=
  match data with
  | PDict d =>
      (startElement tagname []
       :: flat_map
            (fun '(k, v) =>
               let safe_k := replace " " "_" k in
               match v with
               | PNone => [startElement safe_k []; endElement safe_k]
               | PScalar s => [startElement safe_k []; characters s; endElement safe_k]
               | PDict _ => write_record_as_xml safe_k v
               | PList l =>
                   flat_map
                     (fun item =>
                        match item with
                        | PDict _ | PList _ => write_record_as_xml safe_k item
                        | PNone =>
                            [startElement safe_k []; characters "None"; endElement safe_k]
                        | PScalar s =>
                            [startElement safe_k []; characters s; endElement safe_k]
                        end)
                     l
               end)
            d
       ++ [endElement tagname])%list
  | PNone => [startElement tagname []; characters "None"; endElement tagname]
  | PScalar s => [startElement tagname []; characters s; endElement tagname]
  | PList l => [startElement tagname []; characters (list_repr l); endElement tagname]
  end.

End Merge.

(** * schema_reader: the fields of the records, by a schema *)

(** The elements inside [e], in document order. *)
Fixpoint descendants (e : Element) : list Element :=
  match e with
  | mkElement t a x cs => flat_map (fun c => c :: descendants c) cs
  end.

(** [root.findall('.//' + t)] where [t] is an element name: the
    elements inside the root that carry the tag, in document order; the
    root itself is not among them.  [findall] evaluates its argument as
    an ElementPath expression, and for another [t] (a path, [*], a
    predicate) it does something else, which is not modelled: what is
    stated of this definition assumes that [t] is an element name. *)
Definition findall_inside (t : string) (root : Element) : list Element :=
  filter (fun e => String.eqb (tag e) t = true) (descendants root).

(** [el.text.strip() if (el is not None and el.text) else None] *)
Definition field_value (el : option Element) : option string :=
  match el with
  | Some el =>
      match text el with
      | Some t => if str_truthy t then Some (strip t) else None
      | None => None
      end
  | None => None
  end.

(** The object that [display] prints for one record element (lines
    23-26), for a schema whose field names are element names:
    [rec.find(fld)] is then the first child with the tag [fld].  For a
    field name that is a path expression of ElementPath [find] does
    something else, which is not modelled: what is stated of this
    definition assumes element names, or a child that carries the name
    of the field. *)
Definition display_record (fields : list string) (rec : Element)
  : list (string * option string) :=
  fold_left (fun out fld => dict_set fld (field_value (find fld rec)) out) fields [].

(** [display(xml_path, schema)]: the objects printed, in order, for the
    root of the document, the record tag and the field names of the
    schema. *)
Definition display (rec_tag : string) (fields : list string) (root : Element)
  : list (list (string * option string)) :=
  map (display_record fields) (findall_inside rec_tag root).

(** * The vocabulary of the specification *)

(** ** Dates *)

(** [y] is a match of [YEAR_RE]: 18, 19 or 20 and two decimal digits. *)
Definition is_year (y : string) : Prop :=
  exists c d, re_digit c = true /\ re_digit d = true /\
    (y = String "1" (String "8" (String c (String d "")))
     \/ y = String "1" (String "9" (String c (String d "")))
     \/ y = String "2" (String "0" (String c (String d "")))).

(** [y] stands in [s] at the position [n]. *)
Definition occurs_at (n : nat) (y s : string) : Prop :=
  exists pre post, s = pre ++ y ++ post /\ String.length pre = n.


(** [s] holds a run of the year pattern. *)
Definition has_year (s : string) : Prop :=
  exists n y, occurs_at n y s /\ is_year y.

(** [p] is exactly four digits ([len(p) == 4 and p.isdigit()]). *)
Definition four_digits (p : string) : Prop :=
  String.length p = 4 /\ str_all char_isdigit p = true.








(** ** Records *)

(** The first and the last character of a string. *)
Definition first_char (s : string) : option ascii :=
  match s with
  | EmptyString => None
  | String c _ => Some c
  end.

Fixpoint last_char (s : string) : option ascii :=
  match s with
  | EmptyString => None
  | String c s' => match last_char s' with Some d => Some d | None => Some c end
  end.

Definition is_space (c : option ascii) : bool :=
  match c with Some c => char_isspace c | None => false end.

(** [t] is [s] without the white space at its two ends. *)
Definition trimmed_of (s t : string) : Prop :=
  exists l r, s = l ++ t ++ r
    /\ str_all char_isspace l = true /\ str_all char_isspace r = true
    /\ is_space (first_char t) = false /\ is_space (last_char t) = false.

(** The text a field gets from an element: its trimmed text, or the
    empty string when it has none. *)
Definition field_text (e : Element) (t : string) : Prop :=
  match text e with
  | Some s => trimmed_of s t
  | None => t = ""
  end.

(** The name a source name is translated to. *)
Definition translated (mapping : gmap string string) (name : string) : string :=
  default name (mapping !! name).

(** The claim as it is worded: every attribute and every childless child
    of the element is a field of the record. *)
Definition every_item_is_a_field (elem : Element) (mapping : gmap string string) : Prop :=
  (forall k v, (k, v) ∈ attrib elem ->
     dict_get (translated mapping k) (person_elem_to_dict elem mapping) = Some (VStr v))
  /\ (forall c t, c ∈ children elem -> children c = [] -> field_text c t ->
        dict_get (translated mapping (tag c)) (person_elem_to_dict elem mapping)
        = Some (VStr t)).

(** No later item of [post] is translated to the name that [name] is
    translated to. *)
Definition not_overwritten {X : Type} (mapping : gmap string string)
  (name_of : X -> string) (name : string) (post : list X) : Prop :=
  Forall (fun x => translated mapping (name_of x) <> translated mapping name) post.

(** A loop of assignments [d[name(x)] = val(x)] over a list. *)
Definition assign_all {X V : Type} (name : X -> string) (val : X -> V)
  (l : list X) (d : list (string * V)) : list (string * V) :=
  fold_left (fun d x => dict_set (name x) (val x) d) l d.

(** ** Sample inputs *)

(** [<t>x</t>] *)
Definition leaf (t x : string) : Element := mkElement t [] (Some x) [].

(** [<person>kids</person>] *)
Definition person (kids : list Element) : Element := mkElement "person" [] None kids.

(** [<person id=" 7 "><phone>1</phone><phone>2</phone></person>] *)
Definition two_phones : Element :=
  mkElement "person" [("id", " 7 ")] None [leaf "phone" "1"; leaf "phone" "2"].

(** [<person><name>Ann</name><birth>1990-01-01</birth></person>] *)
Definition ann : Element := person [leaf "name" "Ann"; leaf "birth" "1990-01-01"].

(** [<person><name>Bob</name><birth>not-a-date</birth></person>] *)
Definition bob : Element := person [leaf "name" "Bob"; leaf "birth" "not-a-date"].

(** [<person><name>Cy</name><birth>1990-12-31</birth></person>] *)
Definition cy : Element := person [leaf "name" "Cy"; leaf "birth" "1990-12-31"].

(** Four digits that are not decimal digits: the superscripts U+00B2,
    U+00B3, U+00B9, U+00B2. *)
Definition superscripts : string :=
  String (ascii_of_nat 178) (String (ascii_of_nat 179)
    (String (ascii_of_nat 185) (String (ascii_of_nat 178) EmptyString))).

(** [<person><address><city> X </city></address></person>] *)
Definition with_address : Element :=
  person [mkElement "address" [] None [leaf "city" " X "]].

(** The mapping tables [{"birth": "dob"}] and [{"birth": ""}]. *)
Definition birth_to_dob : gmap string string := {[ "birth" := "dob" ]}.
Definition birth_to_empty : gmap string string := {[ "birth" := "" ]}.

(** The claim as it is worded: no field name is the empty string,
    whatever the mapping table. *)
Definition no_empty_key (elem : Element) (mapping : gmap string string) : Prop :=
  "" ∉ dict_keys (person_elem_to_dict elem mapping).

(** The names of the source are not empty, as XML has it. *)
Definition names_not_empty (elem : Element) : Prop :=
  (forall k v, (k, v) ∈ attrib elem -> k <> "")
  /\ (forall c, c ∈ children elem ->
        tag c <> "" /\ forall g, g ∈ children c -> tag g <> "").

(** ** Runs *)

(** The other names the orchestrator looks a date up under. *)
Definition other_date_names : list string :=
  ["fecha"; "fechaNacimiento"; "birthdate"; "birth_date"].

(** The names of the attributes and children of an element. *)
Definition source_names (elem : Element) : list string :=
  (map fst (attrib elem) ++ map tag (children elem))%list.

(** What a JSON writer has written after the records [rs]: the opening
    bracket, then the records with a comma before each but the first. *)
Definition json_body (rs : list record) : list chunk :=
  match rs with
  | [] => []
  | r :: rs' => JsonDoc r :: flat_map (fun r' => [Text ("," ++ nl); JsonDoc r']) rs'
  end.

Definition json_started (rs : list record) : list chunk :=
  Text ("[" ++ nl) :: json_body rs.

Definition json_closed (rs : list record) : list chunk :=
  (json_started rs ++ [Text (nl ++ "]" ++ nl)])%list.

(** What a YAML file holds after the records [rs]. *)
Definition yaml_chunks (rs : list record) : list chunk :=
  flat_map (fun r => [YamlDoc r; Text nl]) rs.

(** Every run of [m] only adds to the log, and only events that
    satisfy [Q]. *)
Definition appends {A : Type} (Q : io_event -> Prop) (m : M A) : Prop :=
  forall st st' r, m st = (st', r) ->
    exists evs, log st' = (log st ++ evs)%list /\ Forall Q evs.

(** [mA] behaves as [mB] until an operation fails: when it returns it
    has done exactly what [mB] does, and when it raises its log is the
    beginning of the log of [mB]. *)
Definition follows {A : Type} (mA mB : M A) : Prop :=
  forall st,
    match mA st with
    | (sA, Ok a) => mB st = (sA, Ok a)
    | (sA, Raise _) => exists sB rB, mB st = (sB, rB) /\ log sA `prefix_of` log sB
    end.

(** The events of routing the record [r] to the key [k]: on the two
    files of [k], with [r], and no close. *)
Definition route_event (k : string) (r : record) (ev : io_event) : Prop :=
  match ev with
  | EOpen _ n => n = json_name k \/ n = yaml_name k
  | EWrite _ _ => True
  | EJsonDump _ r' => r' = r
  | EYamlDump _ r' => r' = r
  | EClose _ => False
  end.

(** The events of the loop over the records [rs]: a file of the key of
    one of the records is opened, or one of them is serialized, or a
    text is written; nothing is closed. *)
Definition loop_event (key_of : record -> string) (rs : list record)
  (ev : io_event) : Prop :=
  match ev with
  | EOpen _ n =>
      exists r, r ∈ rs /\ (n = json_name (key_of r) \/ n = yaml_name (key_of r))
  | EWrite _ _ => True
  | EJsonDump _ r => r ∈ rs
  | EYamlDump _ r => r ∈ rs
  | EClose _ => False
  end.

(** The records of [rs] that belong to the key [k]. *)
Definition part (key_of : record -> string) (k : string) (rs : list record)
  : list record :=
  filter (fun r => String.eqb (key_of r) k = true) rs.

(** The handle [h] is the registered writer of the file [n]. *)
Definition registered (st : state) (h : handle) (n : string) : Prop :=
  (exists k w, (k, w) ∈ json_writers st /\ h = f w /\ n = json_name k)
  \/ (exists k, (k, h) ∈ yaml_files st /\ n = yaml_name k).

(** The open files are the registered writers. *)
Definition fs_agrees (st : state) (fs : fs_state) : Prop :=
  (forall h n, (h, n) ∈ fs_open fs <-> registered st h n)
  /\ (forall h, h ∈ fs_used fs -> h < length (log st))
  /\ (forall n, n ∈ fs_names fs -> exists h, (h, n) ∈ fs_open fs)
  /\ (forall h n, (h, n) ∈ fs_open fs -> h ∈ fs_used fs)
  /\ NoDup (map fst (fs_open fs)).

(** What holds between two records of a run in which nothing fails,
    after the records [rs]. *)
Record pool_inv (key_of : record -> string) (rs : list record) (st : state)
  : Prop :=
  mkPoolInv {
    inv_keys_json : NoDup (dict_keys (json_writers st));
    inv_keys_yaml : NoDup (dict_keys (yaml_files st));
    inv_json_keys : forall k, k ∈ dict_keys (json_writers st) <-> part key_of k rs <> [];
    inv_yaml_keys : forall k, k ∈ dict_keys (yaml_files st) <-> part key_of k rs <> [];
    inv_json : forall k w, (k, w) ∈ json_writers st ->
      first w = false
      /\ opened (json_name k) (log st) = [f w]
      /\ written (f w) (log st) = json_started (part key_of k rs);
    inv_yaml : forall k h, (k, h) ∈ yaml_files st ->
      opened (yaml_name k) (log st) = [h]
      /\ written h (log st) = yaml_chunks (part key_of k rs);
    inv_opened : forall n h, h ∈ opened n (log st) -> registered st h n;
    inv_fresh : forall h, length (log st) <= h -> written h (log st) = [];
    inv_closes : forall h, closes h (log st) = 0;
    inv_fs : exists fs, fs_run key_of fs_init (log st) = Some fs /\ fs_agrees st fs
  }.

(** The events of [close_all] on the JSON writers and on the YAML files. *)
Definition close_json_events (ws : list JsonArrayWriter) : list io_event :=
  flat_map (fun w => [EWrite (f w) (nl ++ "]" ++ nl); EClose (f w)]) ws.

Definition close_yaml_events (hs : list handle) : list io_event :=
  map EClose hs.

(** An environment in which the file [people_unknown.json] cannot be
    opened (it is, say, a directory of the output directory). *)
Definition unknown_unwritable : list io_event -> io_event -> bool :=
  fun _ ev =>
    match ev with
    | EOpen _ n => String.eqb n (json_name "unknown")
    | _ => false
    end.

(** The claim as it is worded: whatever fails for a record, the run goes
    on to the end of the input and through the shutdown. *)
Definition run_survives (py_repr : list (string * string) -> string)
  (faulty : list io_event -> io_event -> bool)
  (mapping : gmap string string) (record_tag : string) (elems : list Element)
  : Prop :=
  exists st, main py_repr faulty mapping record_tag elems initial = (st, Ok tt).

(** ** The date field under a mapping *)

(** [<person><birth>2001-01-01</birth><fecha>1990-05-05</fecha></person>] *)
Definition dated_twice : Element :=
  person [leaf "birth" "2001-01-01"; leaf "fecha" "1990-05-05"].

(** The claim as it is worded, for a record element whose birth field
    holds [birth]: under the mapping birth -> dob the record has the
    field [dob] and not [birth], the candidate list finds nothing, and
    the record is partitioned by the year of its birth field. *)
Definition partitioned_by_birth (py_repr : list (string * string) -> string)
  (elem : Element) (birth : string) : Prop :=
  "dob" ∈ dict_keys (person_elem_to_dict elem birth_to_dob)
  /\ ("birth" ∉ dict_keys (person_elem_to_dict elem birth_to_dob))
  /\ first_candidate candidates (person_elem_to_dict elem birth_to_dob) = None
  /\ year_of py_repr birth_to_dob (person_elem_to_dict elem birth_to_dob)
     = resolve_year (Some birth).

(** ** The tree that the loop leaves behind *)



(** ** The writer pool in a run that fails *)

(** The claim as it is worded: every handle that the run opens is
    closed exactly once. *)
Definition every_handle_closed_once (l : list io_event) : Prop :=
  forall h n, EOpen h n ∈ l -> closes h l = 1.

(** ** More vocabulary: field order, failing environments, exceptions *)

(** The elements of [l] that are not in [seen], each at its first
    occurrence. *)
Fixpoint first_occurrences (seen l : list string) : list string :=
  match l with
  | [] => []
  | x :: l' =>
      if bool_decide (x ∈ seen) then first_occurrences seen l'
      else x :: first_occurrences (seen ++ [x]) l'
  end.

(** An environment in which the first [n] operations succeed and every
    later one fails (the disk is full, say). *)
Definition fails_from (n : nat) : list io_event -> io_event -> bool :=
  fun l _ => (n <=? length l)%nat.

(** Whenever the statement raises, the exception is the [OSError] of an
    operation that the environment failed. *)
Definition only_os_errors {A : Type} (faulty : list io_event -> io_event -> bool)
  (m : M A) : Prop :=
  forall st st' x, m st = (st', Raise x) ->
    exists ev, x = OSError ev /\ faulty (log st') ev = true.

(** The elements of the input that are records. *)
Definition is_record (record_tag : string) (e : Element) : bool :=
  String.eqb (tag e) record_tag.

(** [{"birth": "", "fecha": "1990-01-01"}] *)
Definition empty_birth : record :=
  [("birth", VStr ""); ("fecha", VStr "1990-01-01")].

(** [<People>ann bob cy</People>] *)
Definition people : Element := mkElement "People" [] None [ann; bob; cy].

(** [<person><name>Dee</name><person><name>Eve</name></person></person>]:
    a record inside a record. *)
Definition eve : Element := person [leaf "name" "Eve"].
Definition dee : Element := person [leaf "name" "Dee"; eve].

(** A mapping file: the elements [entries] under one root. *)
Definition mapping_file (entries : list Element) : Element :=
  mkElement "mapping" [] None entries.

(** [<map from="f" to="t"/>] and
    [<entry><source>s</source><target>t</target></entry>] *)
Definition map_from_to (f t : string) : Element :=
  mkElement "map" [("from", f); ("to", t)] None [].

Definition entry_source_target (s t : string) : Element :=
  mkElement "entry" [] None [leaf "source" s; leaf "target" t].

(** [<entry><source>birth</source><target/></entry>]: a target without
    text. *)
Definition entry_no_target_text : Element :=
  mkElement "entry" [] None [leaf "source" "birth"; mkElement "target" [] None []].

(** Every target element of the file has a text. *)
Definition targets_have_text (root : Element) : Prop :=
  forall m tgt, m ∈ children root -> find "target" m = Some tgt -> text tgt <> None.

(** ** Reading the calls of the generator *)

(** The text of an element that holds the characters [s]: an element
    without character data has no text. *)
Definition text_of (s : string) : option string :=
  if String.eqb s "" then None else Some s.

(** An element whose start tag was read and whose end tag was not. *)
Record frame : Type :=
  mkFrame {
    fr_tag : string;
    fr_attrib : list (string * string);
    fr_text : string;
    fr_children : list Element
  }.

Definition frame_element (fr : frame) : Element :=
  mkElement (fr_tag fr) (fr_attrib fr) (text_of (fr_text fr)) (fr_children fr).

(** The element [e] is finished: it is the next child of the innermost
    open element, or the next element at the top. *)
Definition attach (e : Element) (st : list frame * list Element)
  : list frame * list Element :=
  match st with
  | (parent :: stack, top) =>
      (mkFrame (fr_tag parent) (fr_attrib parent) (fr_text parent)
         (fr_children parent ++ [e]) :: stack, top)
  | ([], top) => ([], (top ++ [e])%list)
  end.

(** The nesting of the calls.  One call, read as such: an [endElement]
    closes the innermost open element and must carry its name;
    characters belong to the text of the innermost open element as long
    as it has no child, and are its child's tail after that; there are
    no characters outside the elements.  This reads the calls, not the
    text of a file: whether the text that the generator writes for them
    is XML that a parser reads back is [reads_back] below. *)
Definition sax_step (st : list frame * list Element) (ev : sax_event)
  : option (list frame * list Element) :=
  match ev with
  | startElement n a => Some (mkFrame n a "" [] :: fst st, snd st)
  | characters s =>
      match fst st with
      | fr :: stack =>
          Some ((match fr_children fr with
                 | [] => mkFrame (fr_tag fr) (fr_attrib fr) (fr_text fr ++ s) []
                 | _ => fr
                 end) :: stack, snd st)
      | [] => None
      end
  | endElement n =>
      match fst st with
      | fr :: stack =>
          if String.eqb (fr_tag fr) n
          then Some (attach (frame_element fr) (stack, snd st))
          else None
      | [] => None
      end
  end.

Fixpoint sax_run (evs : list sax_event) (st : list frame * list Element)
  : option (list frame * list Element) :=
  match evs with
  | [] => Some st
  | ev :: evs' =>
      match sax_step st ev with
      | Some st' => sax_run evs' st'
      | None => None
      end
  end.

(** The element that a list of calls describes, when it describes
    one. *)
Definition sax_tree (evs : list sax_event) : option Element :=
  match sax_run evs ([], []) with
  | Some ([], [e]) => Some e
  | _ => None
  end.

(** The elements that the value [v] under the key [safe_k] becomes. *)
Section Written.

Variable list_repr : list pyval -> string.

Fixpoint xml_of (tagname : string) (data : pyval) : Element :=
  match data with
  | PDict d =>
      mkElement tagname [] None
        (flat_map
           (fun '(k, v) =>
              let safe_k := replace " " "_" k in
              match v with
              | PNone => [mkElement safe_k [] None []]
              | PScalar s => [mkElement safe_k [] (text_of s) []]
              | PDict _ => [xml_of safe_k v]
              | PList l =>
                  map (fun item =>
                         match item with
                         | PDict _ | PList _ => xml_of safe_k item
                         | PNone => mkElement safe_k [] (Some "None") []
                         | PScalar s => mkElement safe_k [] (text_of s) []
                         end)
                      l
              end)
           d)
  | PNone => mkElement tagname [] (Some "None") []
  | PScalar s => mkElement tagname [] (text_of s) []
  | PList l => mkElement tagname [] (text_of (list_repr l)) []
  end.

End Written.

(** A record of the transcoder as the JSON reader returns it. *)
Definition to_py_value (v : value) : pyval :=
  match v with
  | VStr s => PScalar s
  | VDict d => PDict (map (fun ks => (fst ks, PScalar (snd ks))) d)
  end.

Definition to_py (r : record) : pyval :=
  PDict (map (fun kv => (fst kv, to_py_value (snd kv))) r).

Definition no_space (s : string) : Prop :=
  str_all (fun c => negb (Ascii.eqb c " ")) s = true.

(** A record that the merge can give back: the names are distinct and
    hold no space, the texts are trimmed, no sub-mapping is empty. *)
Definition mergeable_sub (sub : list (string * string)) : Prop :=
  sub <> [] /\ NoDup (dict_keys sub)
  /\ Forall (fun ks => no_space (fst ks) /\ strip (snd ks) = snd ks) sub.

Definition mergeable (r : record) : Prop :=
  NoDup (dict_keys r)
  /\ Forall (fun kv =>
               no_space (fst kv)
               /\ match snd kv with
                  | VStr s => strip s = s
                  | VDict sub => mergeable_sub sub
                  end) r.

(** ** The text of the generator, read by an XML parser *)

(** The characters of an element name as the parser of
    [xml.etree.ElementTree] (expat, with namespaces) takes them, on the
    code points up to U+00FF: the first is a letter or [_], the others
    may also be a digit, [-], [.] or U+00B7; the colon belongs to the
    namespaces. *)
Definition name_start_char (c : ascii) : bool :=
  in_range 65 90 c || (code c =? 95)%N || in_range 97 122 c
  || in_range 192 214 c || in_range 216 246 c || in_range 248 255 c.

Definition name_char (c : ascii) : bool :=
  name_start_char c || in_range 45 46 c || in_range 48 57 c || (code c =? 183)%N.

Definition element_name (s : string) : bool :=
  match s with
  | EmptyString => false
  | String c s' => name_start_char c && str_all name_char s'
  end.

(** The characters that the parser gives back as [characters] wrote
    them: the tab, the line feed and the code points from U+0020 on.  A
    carriage return is read as a line feed, and the other control
    characters are not XML. *)
Definition text_char (c : ascii) : bool := in_range 9 10 c || in_range 32 255 c.

(** The text that the generator writes for the calls that describe the
    element is well-formed XML, and the parser reads the element from
    it as it is.  The merge writes no attributes; an element with
    attributes is not taken as read back. *)
Fixpoint reads_back (e : Element) : bool :=
  match e with
  | mkElement t a x cs =>
      element_name t
      && match a with [] => true | _ => false end
      && match x with
         | Some s => negb (String.eqb s "") && str_all text_char s
         | None => true
         end
      && forallb reads_back cs
  end.

(** A text of the source document, if any, is made of characters that
    are read back. *)
Definition xml_text (x : option string) : Prop :=
  match x with
  | Some s => str_all text_char s = true
  | None => True
  end.

(** The names of an element, translated, hold no space and the values
    of its attributes are trimmed. *)
Definition spaceless_element (elem : Element) (mapping : gmap string string) : Prop :=
  Forall (fun kv => no_space (translated mapping (fst kv)) /\ strip (snd kv) = snd kv)
    (attrib elem)
  /\ Forall (fun c =>
               no_space (translated mapping (tag c))
               /\ Forall (fun g => no_space (translated mapping (tag g))) (children c))
       (children elem).

(** An element that the merge can give back: its names, translated, are
    element names, the values of its attributes are trimmed, and its
    texts and attribute values are made of characters that are read
    back. *)
Definition plain_element (elem : Element) (mapping : gmap string string) : Prop :=
  Forall (fun kv =>
            element_name (translated mapping (fst kv)) = true
            /\ strip (snd kv) = snd kv
            /\ str_all text_char (snd kv) = true)
    (attrib elem)
  /\ Forall (fun c =>
               element_name (translated mapping (tag c)) = true
               /\ xml_text (text c)
               /\ Forall (fun g =>
                            element_name (translated mapping (tag g)) = true
                            /\ xml_text (text g))
                    (children c))
       (children elem).

(** The names of a record are element names and its texts are made of
    characters that are read back. *)
Definition readable_sub (sub : list (string * string)) : Prop :=
  Forall (fun ks => element_name (fst ks) = true /\ str_all text_char (snd ks) = true) sub.

Definition readable (r : record) : Prop :=
  Forall (fun kv =>
            element_name (fst kv) = true
            /\ match snd kv with
               | VStr s => str_all text_char s = true
               | VDict sub => readable_sub sub
               end) r.

(** The element that the merge writes for a field of a record. *)
Definition field_element (kv : string * value) : Element :=
  match snd kv with
  | VStr s => mkElement (fst kv) [] (text_of s) []
  | VDict sub =>
      mkElement (fst kv) [] None
        (map (fun ks => mkElement (fst ks) [] (text_of (snd ks)) []) sub)
  end.

(** * Properties *)

(** ** The date resolver *)


Lemma year_alt_Some p q s y :
  year_alt p q s = Some y <->
  exists c d rest, re_digit c = true /\ re_digit d = true /\
    y = String p (String q (String c (String d ""))) /\ s = y ++ rest.
Proof.
  unfold year_alt. split.
  - destruct s as [|a [|b [|c [|d rest]]]]; try discriminate.
    destruct (Ascii.eqb a p) eqn:Ea; try discriminate.
    destruct (Ascii.eqb b q) eqn:Eb; try discriminate.
    destruct (re_digit c) eqn:Ec; try discriminate.
    destruct (re_digit d) eqn:Ed; try discriminate.
    simpl. intros [= <-].
    apply Ascii.eqb_eq in Ea, Eb. subst.
    exists c, d, rest. auto.
  - intros (c & d & rest & Hc & Hd & -> & ->). simpl.
    rewrite !Ascii.eqb_refl, Hc, Hd. reflexivity.
Qed.

Lemma YEAR_RE_match_Some s y :
  YEAR_RE_match s = Some y <-> is_year y /\ exists rest, s = y ++ rest.
Proof.
  unfold YEAR_RE_match, is_year. split.
  - destruct (year_alt "1" "8" s) eqn:E1.
    { intros [= <-]. apply year_alt_Some in E1 as (c & d & rest & ? & ? & ? & ?).
      split; [exists c, d; auto | by exists rest]. }
    destruct (year_alt "1" "9" s) eqn:E2.
    { intros [= <-]. apply year_alt_Some in E2 as (c & d & rest & ? & ? & ? & ?).
      split; [exists c, d; auto | by exists rest]. }
    intros E3. apply year_alt_Some in E3 as (c & d & rest & ? & ? & ? & ?).
    split; [exists c, d; auto | by exists rest].
  - intros [(c & d & Hc & Hd & Hy) [rest ->]].
    destruct Hy as [-> | [-> | ->]]; simpl; unfold year_alt; simpl; rewrite ?Hc, ?Hd; reflexivity.
Qed.

Lemma occurs_at_0 y s : occurs_at 0 y s <-> exists post, s = y ++ post.
Proof.
  unfold occurs_at. split.
  - intros (pre & post & -> & Hl). destruct pre; [|discriminate]. eauto.
  - intros [post ->]. exists "", post. auto.
Qed.

Lemma occurs_at_S n y c s : occurs_at (S n) y (String c s) <-> occurs_at n y s.
Proof.
  unfold occurs_at. split.
  - intros (pre & post & E & Hl). destruct pre as [|c' pre]; [discriminate|].
    simpl in *. injection E as -> ->. injection Hl as Hl. eauto.
  - intros (pre & post & -> & Hl). exists (String c pre), post. simpl. auto.
Qed.

Lemma occurs_at_empty n y : occurs_at n y "" -> n = 0 /\ y = "".
Proof.
  intros (pre & post & E & Hl). destruct pre; [|discriminate].
  destruct y; [|discriminate]. auto.
Qed.

Lemma is_year_nonempty y : is_year y -> y <> "".
Proof. intros (c & d & _ & _ & [-> | [-> | ->]]); discriminate. Qed.

(** [YEAR_RE.search] finds the leftmost year and only fails when there is
    none. *)
Lemma YEAR_RE_search_Some s y :
  YEAR_RE_search s = Some y ->
  exists n, occurs_at n y s /\ is_year y /\
    forall n' y', occurs_at n' y' s -> is_year y' -> n <= n'.
Proof.
  revert y. induction s as [|c s IH]; intros y; simpl.
  - discriminate.
  - destruct (YEAR_RE_match (String c s)) eqn:E.
    + intros [= ->]. apply YEAR_RE_match_Some in E as [Hy [rest E]].
      exists 0. split; [apply occurs_at_0; eauto|]. split; [done|]. intros; lia.
    + intros Hs. destruct (IH _ Hs) as (n & Hocc & Hy & Hmin).
      exists (S n). split; [by apply occurs_at_S|]. split; [done|].
      intros [|n'] y' Hocc' Hy'.
      * exfalso. apply occurs_at_0 in Hocc' as [post Hp].
        assert (YEAR_RE_match (String c s) = Some y') as E'
          by (apply YEAR_RE_match_Some; eauto).
        congruence.
      * apply occurs_at_S in Hocc'. specialize (Hmin _ _ Hocc' Hy'). lia.
Qed.

Lemma YEAR_RE_search_None s :
  YEAR_RE_search s = None -> forall n y, occurs_at n y s -> ~ is_year y.
Proof.
  induction s as [|c s IH]; simpl.
  - intros _ n y Hocc Hy. apply occurs_at_empty in Hocc as [_ ->].
    by apply is_year_nonempty in Hy.
  - destruct (YEAR_RE_match (String c s)) eqn:E; [discriminate|].
    intros Hs [|n] y Hocc Hy.
    + apply occurs_at_0 in Hocc as [post Hp].
      assert (YEAR_RE_match (String c s) = Some y) as E'
        by (apply YEAR_RE_match_Some; eauto).
      congruence.
    + apply occurs_at_S in Hocc. exact (IH Hs _ _ Hocc Hy).
Qed.

Lemma split_not_nil sep s : split sep s <> [].
Proof.
  destruct s as [|c s]; simpl; [discriminate|].
  destruct (Ascii.eqb c sep); [discriminate|].
  destruct (split sep s); discriminate.
Qed.





Lemma four_digits_test p :
  (String.length p =? 4)%nat && isdigit p = true <-> four_digits p.
Proof.
  unfold four_digits, isdigit. rewrite !andb_true_iff, Nat.eqb_eq. split.
  - intros [Hl [_ Hd]]. done.
  - intros [Hl Hd]. repeat split; [done| |done].
    destruct p; [discriminate|reflexivity].
Qed.

Lemma four_digits_truthy p : four_digits p -> str_truthy p = true.
Proof. intros [Hl _]. destruct p; [discriminate|reflexivity]. Qed.

Lemma is_year_truthy y : is_year y -> str_truthy y = true.
Proof. intros (c & d & _ & _ & [-> | [-> | ->]]); reflexivity. Qed.

Lemma extract_year_from_birth_str s :
  str_truthy s = true ->
  extract_year_from_birth (Some s) =
    match YEAR_RE_search s with
    | Some y => Some y
    | None =>
        if (String.length (hd "" (split dash s)) =? 4)%nat && isdigit (hd "" (split dash s))
        then Some (hd "" (split dash s))
        else if (String.length (List.last (split dash s) "") =? 4)%nat
                && isdigit (List.last (split dash s) "")
        then Some (List.last (split dash s) "")
        else None
    end.
Proof.
  intros Ht. unfold extract_year_from_birth. rewrite Ht. simpl.
  destruct (YEAR_RE_search s); [reflexivity|].
  pose proof (split_not_nil dash s).
  destruct (split dash s) eqn:E; [done|]. reflexivity.
Qed.

Example resolve_embedded : resolve_year (Some "born 1971-05-02") = "1971".
Proof. reflexivity. Qed.

Example resolve_year_first : resolve_year (Some "1955-3-9") = "1955".
Proof. reflexivity. Qed.

Example resolve_year_last : resolve_year (Some "9-3-1955") = "1955".
Proof. reflexivity. Qed.

Example resolve_first_segment : resolve_year (Some "1755-3-9") = "1755".
Proof. reflexivity. Qed.

Example resolve_last_segment : resolve_year (Some "9-3-1755") = "1755".
Proof. reflexivity. Qed.

Example resolve_not_a_date : resolve_year (Some "not-a-date") = "unknown".
Proof. reflexivity. Qed.

(** [isdigit] accepts digits that \d does not. *)
Example resolve_superscripts :
  YEAR_RE_search (superscripts ++ "-7") = None
  /\ resolve_year (Some (superscripts ++ "-7")) = superscripts.
Proof. split; reflexivity. Qed.














Lemma resolve_year_is_year s : has_year s -> is_year (resolve_year (Some s)).
Proof.
  intros (n & y & Hocc & Hy).
  assert (str_truthy s = true) as Ht.
  { destruct s; [|reflexivity]. apply occurs_at_empty in Hocc as [_ ->].
    by apply is_year_nonempty in Hy. }
  unfold resolve_year. unfold or_unknown at 2. rewrite Ht.
  rewrite (extract_year_from_birth_str _ Ht).
  destruct (YEAR_RE_search s) as [y0|] eqn:Es.
  - apply YEAR_RE_search_Some in Es as (n0 & _ & Hy0 & _).
    unfold or_unknown. by rewrite is_year_truthy.
  - exfalso. exact (YEAR_RE_search_None _ Es _ _ Hocc Hy).
Qed.

(** C10. When the text holds one or more runs of the year pattern, the
    resolver answers the leftmost one. *)
Theorem resolver_leftmost :
  forall (s : string) (n : nat) (y : string),
    occurs_at n y s -> is_year y ->
    exists n0 y0,
      occurs_at n0 y0 s /\ is_year y0 /\ n0 <= n /\
      (forall n' y', occurs_at n' y' s -> is_year y' -> n0 <= n') /\
      resolve_year (Some s) = y0.
Proof.
  intros s n y Hocc Hy.
  assert (str_truthy s = true) as Ht.
  { destruct s; [|reflexivity]. apply occurs_at_empty in Hocc as [_ ->].
    by apply is_year_nonempty in Hy. }
  destruct (YEAR_RE_search s) as [y0|] eqn:Es.
  - pose proof Es as Es'.
    apply YEAR_RE_search_Some in Es' as (n0 & Hocc0 & Hy0 & Hmin).
    exists n0, y0. repeat split; try done; [eauto|].
    unfold resolve_year. unfold or_unknown at 2. rewrite Ht.
    rewrite (extract_year_from_birth_str _ Ht), Es.
    unfold or_unknown. by rewrite is_year_truthy.
  - exfalso. exact (YEAR_RE_search_None _ Es _ _ Hocc Hy).
Qed.

Lemma occurs_at_intro pre y post : occurs_at (String.length pre) y (pre ++ y ++ post).
Proof. exists pre, post. done. Qed.

Lemma is_year_test y : YEAR_RE_match y = Some y -> is_year y.
Proof. intros H. by apply YEAR_RE_match_Some in H as [? _]. Qed.

(** C10 at a text with two years. *)
Lemma resolver_leftmost_witness :
  exists n0 y0,
    occurs_at n0 y0 "1990 or 2001" /\ is_year y0 /\ n0 <= 8 /\
    (forall n' y', occurs_at n' y' "1990 or 2001" -> is_year y' -> n0 <= n') /\
    resolve_year (Some "1990 or 2001") = y0.
Proof.
  apply (resolver_leftmost "1990 or 2001" 8 "2001").
  - exact (occurs_at_intro "1990 or " "2001" "").
  - apply is_year_test. reflexivity.
Defined.

(** ** Dictionaries *)

Lemma dict_get_set_eq {V} k (v : V) d : dict_get k (dict_set k v d) = Some v.
Proof.
  induction d as [|[k' v'] d IH]; simpl.
  - by rewrite String.eqb_refl.
  - destruct (String.eqb k' k) eqn:E; simpl; by rewrite E.
Qed.

Lemma dict_get_set_ne {V} k k' (v : V) d :
  k <> k' -> dict_get k' (dict_set k v d) = dict_get k' d.
Proof.
  intros Hne. induction d as [|[k0 v0] d IH]; simpl.
  - destruct (String.eqb_spec k k'); [done | reflexivity].
  - destruct (String.eqb_spec k0 k) as [->|]; simpl.
    + destruct (String.eqb_spec k k'); [done | reflexivity].
    + by rewrite IH.
Qed.

Lemma dict_keys_set {V} k (v : V) d :
  dict_keys (dict_set k v d) = if dict_in k d then dict_keys d else (dict_keys d ++ [k])%list.
Proof.
  unfold dict_in, dict_keys. induction d as [|[k0 v0] d IH]; simpl; [reflexivity|].
  destruct (String.eqb k0 k) eqn:E; simpl; [reflexivity|].
  rewrite IH. by destruct (dict_get k d).
Qed.

Lemma dict_in_keys {V} k (d : list (string * V)) :
  dict_in k d = true <-> k ∈ dict_keys d.
Proof.
  unfold dict_in, dict_keys. induction d as [|[k0 v0] d IH]; simpl.
  - split; [discriminate | by intros ?%elem_of_nil].
  - rewrite elem_of_cons. destruct (String.eqb_spec k0 k) as [->|Hne].
    + naive_solver.
    + rewrite IH. naive_solver.
Qed.

Lemma dict_get_Some_keys {V} k (v : V) d : dict_get k d = Some v -> k ∈ dict_keys d.
Proof. intros H. apply dict_in_keys. unfold dict_in. by rewrite H. Qed.

Lemma dict_get_None_keys {V} k (d : list (string * V)) :
  dict_get k d = None <-> k ∉ dict_keys d.
Proof.
  rewrite <- dict_in_keys. unfold dict_in. by destruct (dict_get k d).
Qed.

Lemma elem_of_dict_keys_set {V} k k' (v : V) d :
  k' ∈ dict_keys (dict_set k v d) <-> k' = k \/ k' ∈ dict_keys d.
Proof.
  rewrite dict_keys_set. destruct (dict_in k d) eqn:E.
  - apply dict_in_keys in E. naive_solver.
  - rewrite elem_of_app, list_elem_of_singleton. naive_solver.
Qed.

Lemma NoDup_dict_keys_set {V} k (v : V) d :
  NoDup (dict_keys d) -> NoDup (dict_keys (dict_set k v d)).
Proof.
  intros Hnd. rewrite dict_keys_set. destruct (dict_in k d) eqn:E; [done|].
  apply NoDup_app. split; [done|]. split; [|apply NoDup_singleton].
  intros x Hx ->%list_elem_of_singleton.
  apply dict_in_keys in Hx. congruence.
Qed.

Section Assignments.

Context {X V : Type} (name : X -> string) (val : X -> V).

Lemma assign_all_app l1 l2 d :
  assign_all name val (l1 ++ l2)%list d = assign_all name val l2 (assign_all name val l1 d).
Proof. apply fold_left_app. Qed.

Lemma assign_all_get_other l d k :
  Forall (fun x => name x <> k) l ->
  dict_get k (assign_all name val l d) = dict_get k d.
Proof.
  revert d. induction l as [|x l IH]; intros d Hl; simpl; [reflexivity|].
  inversion Hl; subst. rewrite IH by done. by apply dict_get_set_ne.
Qed.

(** The last assignment to a name is the one that stands. *)
Lemma assign_all_get_last pre x post d :
  Forall (fun y => name y <> name x) post ->
  dict_get (name x) (assign_all name val (pre ++ x :: post)%list d) = Some (val x).
Proof.
  intros Hpost. rewrite assign_all_app. simpl.
  change (fold_left _ post ?d0) with (assign_all name val post d0).
  rewrite assign_all_get_other by done. apply dict_get_set_eq.
Qed.

Lemma assign_all_keys l d k :
  k ∈ dict_keys (assign_all name val l d)
  <-> k ∈ dict_keys d \/ exists x, x ∈ l /\ k = name x.
Proof.
  revert d. induction l as [|x l IH]; intros d; simpl.
  - split; [auto|]. intros [?|(x & Hx & _)]; [done|]. by apply elem_of_nil in Hx.
  - change (fold_left _ l ?d0) with (assign_all name val l d0).
    rewrite IH, elem_of_dict_keys_set. setoid_rewrite elem_of_cons. naive_solver.
Qed.

Lemma assign_all_NoDup l d :
  NoDup (dict_keys d) -> NoDup (dict_keys (assign_all name val l d)).
Proof.
  revert d. induction l as [|x l IH]; intros d Hd; simpl; [done|].
  apply IH. by apply NoDup_dict_keys_set.
Qed.

End Assignments.

Lemma assign_all_get_inv {X V : Type} (name : X -> string) (val : X -> V) l d k v :
  dict_get k (assign_all name val l d) = Some v ->
  dict_get k d = Some v \/ exists x, x ∈ l /\ k = name x /\ v = val x.
Proof.
  revert d. induction l as [|x l IH]; intros d; simpl; [auto|].
  change (fold_left _ l ?d0) with (assign_all name val l d0).
  intros [H | (y & Hy & -> & ->)]%IH.
  - destruct (decide (name x = k)) as [<-|Hne].
    + rewrite dict_get_set_eq in H. injection H as <-.
      right. exists x. split; [apply elem_of_cons; auto | done].
    + rewrite dict_get_set_ne in H by done. auto.
  - right. exists y. split; [apply elem_of_cons; auto | done].
Qed.

(** The order of the keys after a loop of assignments. *)
Lemma first_occurrences_app seen l1 l2 :
  first_occurrences seen (l1 ++ l2) =
  (first_occurrences seen l1
     ++ first_occurrences (seen ++ first_occurrences seen l1) l2)%list.
Proof.
  revert seen. induction l1 as [|x l1 IH]; intros seen; simpl.
  - by rewrite app_nil_r.
  - destruct (bool_decide (x ∈ seen)); [apply IH|].
    rewrite IH. simpl. by rewrite <- app_assoc.
Qed.

Lemma assign_all_keys_order {X V : Type} (name : X -> string) (val : X -> V) l d :
  dict_keys (assign_all name val l d) =
  (dict_keys d ++ first_occurrences (dict_keys d) (map name l))%list.
Proof.
  revert d. induction l as [|x l IH]; intros d; simpl.
  - by rewrite app_nil_r.
  - change (fold_left _ l ?d0) with (assign_all name val l d0).
    rewrite IH, dict_keys_set.
    destruct (dict_in (name x) d) eqn:E.
    + apply dict_in_keys in E. by rewrite bool_decide_eq_true_2.
    + rewrite bool_decide_eq_false_2; [by rewrite <- app_assoc|].
      intros Hin%dict_in_keys. congruence.
Qed.


(** ** Trimming *)

Lemma append_cons c (s1 s2 : string) : String c s1 ++ s2 = String c (s1 ++ s2).
Proof. reflexivity. Qed.

Lemma append_nil (s : string) : "" ++ s = s.
Proof. reflexivity. Qed.

Lemma lstrip_split s :
  exists l, s = l ++ lstrip s /\ str_all char_isspace l = true
            /\ is_space (first_char (lstrip s)) = false.
Proof.
  induction s as [|c s (l & Hs & Hl & Hf)]; simpl.
  - by exists "".
  - destruct (char_isspace c) eqn:Ec.
    + exists (String c l). rewrite append_cons. simpl. rewrite Ec, Hl.
      repeat split; [by f_equal | done].
    + exists "". rewrite append_nil. simpl. by rewrite Ec.
Qed.

Lemma last_char_cons c s : exists d, last_char (String c s) = Some d.
Proof. simpl. destruct (last_char s); eauto. Qed.

Lemma rstrip_split s :
  exists r, s = rstrip s ++ r /\ str_all char_isspace r = true
            /\ is_space (last_char (rstrip s)) = false.
Proof.
  induction s as [|c s (r & Hs & Hr & Hf)]; simpl.
  - by exists "".
  - destruct (rstrip s) as [|d t] eqn:Et.
    + rewrite append_nil in Hs. subst r. destruct (char_isspace c) eqn:Ec.
      * exists (String c s). rewrite append_nil. simpl. by rewrite Ec, Hr.
      * exists s. rewrite append_cons, append_nil. simpl. by rewrite Ec.
    + exists r. rewrite append_cons. split; [by f_equal|]. split; [done|].
      simpl in *. by destruct (last_char t).
Qed.

Lemma rstrip_first_char s :
  is_space (first_char s) = false -> is_space (first_char (rstrip s)) = false.
Proof.
  destruct s as [|c s]; simpl; [done|]. intros Hc.
  destruct (rstrip s); simpl; [|done]. by rewrite Hc.
Qed.

(** [strip] removes white space at the two ends and nothing else. *)
Lemma strip_trimmed s : trimmed_of s (strip s).
Proof.
  unfold trimmed_of, strip.
  destruct (lstrip_split s) as (l & Hs & Hl & Hf).
  destruct (rstrip_split (lstrip s)) as (r & Hs' & Hr & Hlast).
  exists l, r. split; [by rewrite <- Hs'|].
  repeat split; try done. by apply rstrip_first_char.
Qed.

Lemma lstrip_spaces l s : str_all char_isspace l = true -> lstrip (l ++ s) = lstrip s.
Proof.
  induction l as [|c l IH]; [done|]. rewrite append_cons. simpl.
  intros [Hc Hl]%andb_true_iff. rewrite Hc. auto.
Qed.

Lemma lstrip_no_space s : is_space (first_char s) = false -> lstrip s = s.
Proof. destruct s as [|c s]; simpl; [done|]. by intros ->. Qed.

Lemma rstrip_spaces r : str_all char_isspace r = true -> rstrip r = "".
Proof.
  induction r as [|c r IH]; simpl; [done|].
  intros [Hc Hr]%andb_true_iff. by rewrite IH, Hc.
Qed.

Lemma rstrip_app t r :
  str_all char_isspace r = true -> is_space (last_char t) = false ->
  rstrip (t ++ r) = t.
Proof.
  intros Hr. induction t as [|c t IH].
  - intros _. rewrite append_nil. by apply rstrip_spaces.
  - rewrite append_cons. simpl.
    destruct (last_char t) as [d|] eqn:Ed; intros Hlast.
    + rewrite IH by done. destruct t; [discriminate|done].
    + destruct t as [|c' t'].
      * rewrite append_nil, (rstrip_spaces r Hr). simpl in Hlast. by rewrite Hlast.
      * destruct (last_char_cons c' t') as [d Hd]. congruence.
Qed.

(** So [trimmed_of] names one string: the result of [strip]. *)
Lemma trimmed_of_strip s t : trimmed_of s t -> t = strip s.
Proof.
  intros (l & r & -> & Hl & Hr & Hf & Hlast). unfold strip.
  rewrite lstrip_spaces by done.
  destruct t as [|c t].
  - rewrite !append_nil. assert (lstrip r = "") as ->; [|done].
    clear -Hr. induction r as [|c r IH]; simpl; [done|].
    apply andb_true_iff in Hr as [-> Hr]. auto.
  - rewrite lstrip_no_space by done. symmetry. by apply rstrip_app.
Qed.

Lemma text_or_empty_field e : field_text e (text_or_empty e).
Proof.
  unfold field_text, text_or_empty. destruct (text e) as [s|]; [|done].
  destruct (str_truthy s) eqn:Es; [apply strip_trimmed|].
  destruct s; [|discriminate]. by exists "", "".
Qed.

Lemma field_text_unique e t : field_text e t -> t = text_or_empty e.
Proof.
  unfold field_text, text_or_empty. destruct (text e) as [s|]; [|done].
  intros ->%trimmed_of_strip. by destruct s.
Qed.

(** ** The projector *)

Lemma map_tag_translated name mapping : map_tag name mapping = translated mapping name.
Proof. unfold map_tag, translated. by destruct (mapping !! name). Qed.

Lemma person_elem_to_dict_assign elem mapping :
  person_elem_to_dict elem mapping =
  assign_all (fun c => map_tag (tag c) mapping) (fun c => child_value c mapping)
    (children elem)
    (assign_all (fun kv => map_tag (fst kv) mapping) (fun kv => VStr (snd kv))
       (attrib elem) []).
Proof. reflexivity. Qed.

Lemma sub_dict_assign c mapping :
  sub_dict c mapping =
  assign_all (fun g => map_tag (tag g) mapping) text_or_empty (children c) [].
Proof. reflexivity. Qed.

Lemma not_overwritten_Forall {X : Type} mapping (name_of : X -> string) name post :
  not_overwritten mapping name_of name post ->
  Forall (fun x => map_tag (name_of x) mapping <> map_tag name mapping) post.
Proof.
  unfold not_overwritten. intros H. eapply Forall_impl; [exact H|].
  intros x. by rewrite !map_tag_translated.
Qed.

Lemma child_value_leaf c mapping :
  children c = [] -> child_value c mapping = VStr (text_or_empty c).
Proof. unfold child_value. by intros ->. Qed.

Lemma child_value_nested c mapping :
  children c <> [] -> child_value c mapping = VDict (sub_dict c mapping).
Proof. unfold child_value. by destruct (children c). Qed.

Lemma projected_child_get elem mapping pre c post :
  children elem = (pre ++ c :: post)%list ->
  not_overwritten mapping tag (tag c) post ->
  dict_get (translated mapping (tag c)) (person_elem_to_dict elem mapping)
  = Some (child_value c mapping).
Proof.
  intros Hch Hpost%not_overwritten_Forall.
  rewrite person_elem_to_dict_assign, Hch, <- map_tag_translated.
  exact (assign_all_get_last (fun c => map_tag (tag c) mapping)
           (fun c => child_value c mapping) pre c post _ Hpost).
Qed.

Lemma projected_keys elem mapping key :
  key ∈ dict_keys (person_elem_to_dict elem mapping) <->
  (exists k v, (k, v) ∈ attrib elem /\ key = translated mapping k)
  \/ (exists c, c ∈ children elem /\ key = translated mapping (tag c)).
Proof.
  rewrite person_elem_to_dict_assign, !assign_all_keys. split.
  - intros [[Hnil | ([k v] & Hin & ->)] | (c & Hin & ->)].
    + by apply elem_of_nil in Hnil.
    + left. exists k, v. by rewrite map_tag_translated.
    + right. exists c. by rewrite map_tag_translated.
  - intros [(k & v & Hin & ->) | (c & Hin & ->)].
    + left. right. exists (k, v). by rewrite map_tag_translated.
    + right. exists c. by rewrite map_tag_translated.
Qed.

Lemma sub_dict_keys c mapping key :
  key ∈ dict_keys (sub_dict c mapping) <->
  exists g, g ∈ children c /\ key = translated mapping (tag g).
Proof.
  rewrite sub_dict_assign, assign_all_keys. split.
  - intros [Hnil | (g & Hin & ->)]; [by apply elem_of_nil in Hnil|].
    exists g. by rewrite map_tag_translated.
  - intros (g & Hin & ->). right. exists g. by rewrite map_tag_translated.
Qed.

Lemma projected_sub_dict elem mapping key sub :
  dict_get key (person_elem_to_dict elem mapping) = Some (VDict sub) ->
  exists c, c ∈ children elem /\ key = translated mapping (tag c)
            /\ children c <> [] /\ sub = sub_dict c mapping.
Proof.
  rewrite person_elem_to_dict_assign.
  intros [H | (c & Hin & -> & Hv)]%assign_all_get_inv.
  - apply assign_all_get_inv in H as [H | (kv & _ & _ & Hv)]; discriminate.
  - exists c. rewrite map_tag_translated. repeat split; try done.
    + intros Hc. by rewrite child_value_leaf in Hv.
    + unfold child_value in Hv. destruct (length (children c) =? 0)%nat; congruence.
Qed.

(** C5, as amended.  An attribute, a childless child and a child with
    children each give the field named by their translated name, with
    the attribute's value, the child's trimmed text (empty when it has
    none) and the sub-mapping of the grandchildren's trimmed texts; a
    later item with the same translated name takes the field over, and
    the record has no other field. *)
Theorem projection_fields :
  forall (elem : Element) (mapping : gmap string string),
    (forall pre k v post,
        attrib elem = (pre ++ (k, v) :: post)%list ->
        not_overwritten mapping fst k post ->
        not_overwritten mapping tag k (children elem) ->
        dict_get (translated mapping k) (person_elem_to_dict elem mapping)
        = Some (VStr v))
    /\ (forall pre c post,
          children elem = (pre ++ c :: post)%list ->
          not_overwritten mapping tag (tag c) post ->
          children c = [] ->
          exists t, field_text c t /\
            dict_get (translated mapping (tag c)) (person_elem_to_dict elem mapping)
            = Some (VStr t))
    /\ (forall pre c post,
          children elem = (pre ++ c :: post)%list ->
          not_overwritten mapping tag (tag c) post ->
          children c <> [] ->
          exists sub,
            dict_get (translated mapping (tag c)) (person_elem_to_dict elem mapping)
            = Some (VDict sub)
            /\ (forall gpre g gpost,
                   children c = (gpre ++ g :: gpost)%list ->
                   not_overwritten mapping tag (tag g) gpost ->
                   exists t, field_text g t /\
                     dict_get (translated mapping (tag g)) sub = Some t)
            /\ (forall key, key ∈ dict_keys sub ->
                   exists g, g ∈ children c /\ key = translated mapping (tag g)))
    /\ (forall key, key ∈ dict_keys (person_elem_to_dict elem mapping) ->
          (exists k v, (k, v) ∈ attrib elem /\ key = translated mapping k)
          \/ (exists c, c ∈ children elem /\ key = translated mapping (tag c)))
    /\ (forall e t t', field_text e t -> field_text e t' -> t = t').
Proof.
  intros elem mapping. repeat split.
  - intros pre k v post Hat Hpost%not_overwritten_Forall Hch%not_overwritten_Forall.
    rewrite person_elem_to_dict_assign, <- map_tag_translated.
    rewrite assign_all_get_other by done.
    rewrite Hat.
    exact (assign_all_get_last (fun kv => map_tag (fst kv) mapping)
             (fun kv => VStr (snd kv)) pre (k, v) post _ Hpost).
  - intros pre c post Hch Hpost Hleaf. exists (text_or_empty c).
    split; [apply text_or_empty_field|].
    rewrite (projected_child_get _ _ _ _ _ Hch Hpost). by rewrite child_value_leaf.
  - intros pre c post Hch Hpost Hnested. exists (sub_dict c mapping).
    split; [|split].
    + rewrite (projected_child_get _ _ _ _ _ Hch Hpost). by rewrite child_value_nested.
    + intros gpre g gpost Hg Hgpost%not_overwritten_Forall.
      exists (text_or_empty g). split; [apply text_or_empty_field|].
      rewrite sub_dict_assign, Hg, <- map_tag_translated.
      exact (assign_all_get_last (fun g => map_tag (tag g) mapping)
               text_or_empty gpre g gpost _ Hgpost).
    + intros key. apply sub_dict_keys.
  - intros key. apply projected_keys.
  - intros e t t' ->%field_text_unique ->%field_text_unique. reflexivity.
Qed.

Example projection_nested :
  person_elem_to_dict with_address ∅ = [("address", VDict [("city", "X")])].
Proof. vm_compute. reflexivity. Qed.

(** C5, the counterexample: of two children with the same name only the
    last is a field of the record (and the value of an attribute is
    taken as it is). *)
Lemma projection_last_wins :
  person_elem_to_dict two_phones ∅ = [("id", VStr " 7 "); ("phone", VStr "2")]
  /\ ~ every_item_is_a_field two_phones ∅.
Proof.
  split; [vm_compute; reflexivity|].
  intros [_ H].
  specialize (H (leaf "phone" "1") "1").
  assert (dict_get (translated ∅ (tag (leaf "phone" "1")))
            (person_elem_to_dict two_phones ∅) = Some (VStr "2")) as E
    by (vm_compute; reflexivity).
  rewrite E in H.
  assert (Some (VStr "2") = Some (VStr "1")) as Habs; [|discriminate].
  apply H.
  - apply elem_of_cons. by left.
  - reflexivity.
  - by exists "", "".
Qed.

(** C6. The lookup through the mapping table is total: the target when
    the name is in the table, the name itself when it is not, and this
    is the name under which the projector stores the field.  With the
    empty table the record has exactly the names of the attributes and
    children, in their order; a child that has children gives a
    sub-mapping, which has exactly the names of the grandchildren, in
    their order; and the record has no other sub-mapping. *)
Theorem mapping_lookup_total :
  forall (mapping : gmap string string) (name : string),
    (forall target, mapping !! name = Some target -> map_tag name mapping = target)
    /\ (mapping !! name = None -> map_tag name mapping = name)
    /\ map_tag name ∅ = name
    /\ (forall elem,
          dict_keys (person_elem_to_dict elem mapping)
          = first_occurrences []
              (map (fun n => match mapping !! n with Some target => target | None => n end)
                   (source_names elem)))
    /\ (forall elem,
          dict_keys (person_elem_to_dict elem ∅) = first_occurrences [] (source_names elem))
    /\ (forall elem key,
          key ∈ dict_keys (person_elem_to_dict elem ∅)
          <-> key ∈ map fst (attrib elem) \/ key ∈ map tag (children elem))
    /\ (forall elem pre c post,
          children elem = (pre ++ c :: post)%list ->
          children c <> [] -> tag c ∉ map tag post ->
          exists sub,
            dict_get (tag c) (person_elem_to_dict elem ∅) = Some (VDict sub)
            /\ dict_keys sub = first_occurrences [] (map tag (children c)))
    /\ (forall elem key sub,
          dict_get key (person_elem_to_dict elem ∅) = Some (VDict sub) ->
          exists c, c ∈ children elem /\ key = tag c /\ children c <> []
                    /\ forall k, k ∈ dict_keys sub <-> k ∈ map tag (children c)).
Proof.
  intros mapping name.
  assert (forall n : string, translated ∅ n = n) as Hid by done.
  assert (forall (m : gmap string string) {X} (nm : X -> string) (l : list X),
            map (fun x => map_tag (nm x) m) l
            = map (fun n => match m !! n with Some target => target | None => n end)
                  (map nm l)) as Hmap.
  { intros m X nm l. rewrite map_map. reflexivity. }
  assert (forall (m : gmap string string) elem,
            dict_keys (person_elem_to_dict elem m)
            = first_occurrences []
                (map (fun n => match m !! n with Some target => target | None => n end)
                     (source_names elem))) as Hkeys.
  { intros m elem. rewrite person_elem_to_dict_assign, !assign_all_keys_order.
    rewrite (Hmap m _ fst), (Hmap m _ tag).
    unfold source_names. by rewrite map_app, first_occurrences_app. }
  split; [|split; [|split; [|split; [|split; [|split; [|split]]]]]].
  - intros target H. unfold map_tag. by rewrite H.
  - intros H. unfold map_tag. by rewrite H.
  - reflexivity.
  - apply Hkeys.
  - intros elem. rewrite Hkeys. f_equal.
    rewrite <- (map_id (source_names elem)) at 2. apply map_ext.
    intros n. by rewrite lookup_empty.
  - intros elem key. rewrite projected_keys, !list_elem_of_fmap. split.
    + intros [(k & v & Hin & ->) | (c & Hin & ->)]; rewrite Hid.
      * left. by exists (k, v).
      * right. by exists c.
    + intros [([k v] & -> & Hin) | (c & -> & Hin)].
      * left. exists k, v. by rewrite Hid.
      * right. exists c. by rewrite Hid.
  - intros elem pre c post Hch Hne Hpost.
    exists (sub_dict c ∅). split.
    + rewrite <- (Hid (tag c)) at 1.
      rewrite (projected_child_get elem ∅ pre c post Hch).
      * by rewrite child_value_nested.
      * unfold not_overwritten. apply Forall_forall. intros y Hy E.
        rewrite !Hid in E. apply Hpost. apply list_elem_of_fmap. by exists y.
    + rewrite sub_dict_assign, assign_all_keys_order. reflexivity.
  - intros elem key sub (c & Hin & -> & Hne & ->)%projected_sub_dict.
    exists c. rewrite Hid. repeat split; try done.
    + intros (g & Hg & ->)%sub_dict_keys. rewrite Hid.
      apply list_elem_of_fmap. by exists g.
    + intros (g & -> & Hg)%list_elem_of_fmap. apply sub_dict_keys.
      exists g. by rewrite Hid.
Qed.

Lemma translated_not_empty mapping name :
  (forall k t, mapping !! k = Some t -> t <> "") -> name <> "" ->
  translated mapping name <> "".
Proof.
  intros Hm Hn. unfold translated.
  destruct (mapping !! name) as [t|] eqn:E; simpl; eauto.
Qed.

(** C7, the counterexample: a target that is the empty string becomes a
    field name. *)
Lemma empty_target_empty_key :
  dict_keys (person_elem_to_dict ann birth_to_empty) = ["name"; ""]
  /\ ~ no_empty_key ann birth_to_empty.
Proof.
  assert (dict_keys (person_elem_to_dict ann birth_to_empty) = ["name"; ""]) as E
    by (vm_compute; reflexivity).
  split; [exact E|].
  unfold no_empty_key. rewrite E. intros H. apply H.
  apply elem_of_cons. right. apply elem_of_cons. by left.
Qed.

(** C7, as amended.  The names of a record are pairwise distinct, and so
    are those of every sub-mapping; no name is the empty string when no
    target of the mapping table is (source names are never empty); a
    name that the table does not hold passes through unchanged. *)
Theorem projection_keys :
  forall (elem : Element) (mapping : gmap string string),
    NoDup (dict_keys (person_elem_to_dict elem mapping))
    /\ (forall key sub,
          dict_get key (person_elem_to_dict elem mapping) = Some (VDict sub) ->
          NoDup (dict_keys sub))
    /\ ((forall k t, mapping !! k = Some t -> t <> "") ->
        names_not_empty elem ->
        no_empty_key elem mapping
        /\ forall key sub,
            dict_get key (person_elem_to_dict elem mapping) = Some (VDict sub) ->
            "" ∉ dict_keys sub)
    /\ (forall name, mapping !! name = None -> map_tag name mapping = name).
Proof.
  intros elem mapping. split; [|split; [|split]].
  - rewrite person_elem_to_dict_assign. do 2 apply assign_all_NoDup. constructor.
  - intros key sub (c & _ & _ & _ & ->)%projected_sub_dict.
    rewrite sub_dict_assign. apply assign_all_NoDup. constructor.
  - intros Hm [Hattr Hch]. split.
    + unfold no_empty_key. intros [(k & v & Hin & E) | (c & Hin & E)]%projected_keys.
      * symmetry in E. revert E. apply translated_not_empty; eauto.
      * symmetry in E. revert E. apply translated_not_empty; [done|].
        by apply Hch.
    + intros key sub (c & Hin & _ & _ & ->)%projected_sub_dict.
      intros (g & Hg & E)%sub_dict_keys.
      symmetry in E. revert E. apply translated_not_empty; [done|].
      by apply (Hch c Hin).
  - intros name H. unfold map_tag. by rewrite H.
Qed.

(** ** The date lookup of the orchestrator *)

Lemma translated_birth_to_dob name :
  translated birth_to_dob name = if String.eqb name "birth" then "dob" else name.
Proof.
  unfold translated, birth_to_dob.
  destruct (String.eqb_spec name "birth") as [->|Hne].
  - by rewrite lookup_singleton_eq.
  - by rewrite lookup_singleton_ne.
Qed.

Lemma first_candidate_None cs r :
  Forall (fun c => c ∉ dict_keys r) cs -> first_candidate cs r = None.
Proof.
  induction 1 as [|c cs Hc _ IH]; simpl; [done|].
  apply dict_get_None_keys in Hc. unfold dict_in. by rewrite Hc.
Qed.

Lemma year_of_scalar py_repr mapping r s :
  birth_val r mapping = Some (VStr s) ->
  year_of py_repr mapping r = resolve_year (Some s).
Proof. unfold year_of, resolve_year. by intros ->. Qed.

Lemma is_year_not_unknown y : is_year y -> y <> "unknown".
Proof. intros (c & d & _ & _ & [-> | [-> | ->]]); discriminate. Qed.

(** C8, the counterexample: the element has a [birth] and a [fecha]
    child; the candidate list does not fail, it finds [fecha], and the
    record is partitioned by the year of [fecha], not of [birth]. *)
Lemma fecha_before_fallback :
  first_candidate candidates (person_elem_to_dict dated_twice birth_to_dob)
  = Some (VStr "1990-05-05")
  /\ year_of (fun _ => "") birth_to_dob (person_elem_to_dict dated_twice birth_to_dob)
     = "1990"
  /\ resolve_year (Some "2001-01-01") = "2001"
  /\ ~ partitioned_by_birth (fun _ => "") dated_twice "2001-01-01".
Proof.
  assert (first_candidate candidates (person_elem_to_dict dated_twice birth_to_dob)
          = Some (VStr "1990-05-05")) as E by (vm_compute; reflexivity).
  split; [exact E|].
  split; [vm_compute; reflexivity|].
  split; [reflexivity|].
  intros (_ & _ & H & _). rewrite E in H. discriminate.
Qed.

(** C8, as amended.  Under the mapping birth -> dob a record element
    that has a [birth] attribute or child gets the field [dob] and no
    field [birth]; when it has none of the other candidate names, the candidate list
    finds nothing and the lookup under [mapping['birth']] finds the
    value of the field [dob].  That value is the trimmed text of the
    last [birth] child (or the value of the last [birth] attribute when
    there is no such child), and the record goes to the partition of
    the year the resolver finds in it. *)
Theorem mapped_birth_partition :
  forall (py_repr : list (string * string) -> string) (elem : Element),
    "birth" ∈ source_names elem ->
    Forall (fun n => n ∉ other_date_names) (source_names elem) ->
    "dob" ∈ dict_keys (person_elem_to_dict elem birth_to_dob)
    /\ ("birth" ∉ dict_keys (person_elem_to_dict elem birth_to_dob))
    /\ first_candidate candidates (person_elem_to_dict elem birth_to_dob) = None
    /\ birth_val (person_elem_to_dict elem birth_to_dob) birth_to_dob
       = dict_get (map_tag "birth" birth_to_dob) (person_elem_to_dict elem birth_to_dob)
    /\ is_Some (birth_val (person_elem_to_dict elem birth_to_dob) birth_to_dob)
    /\ (forall pre c post,
          children elem = (pre ++ c :: post)%list ->
          tag c = "birth" -> children c = [] ->
          Forall (fun c' => tag c' <> "birth" /\ tag c' <> "dob") post ->
          birth_val (person_elem_to_dict elem birth_to_dob) birth_to_dob
          = Some (VStr (text_or_empty c))
          /\ year_of py_repr birth_to_dob (person_elem_to_dict elem birth_to_dob)
             = resolve_year (Some (text_or_empty c))
          /\ (has_year (text_or_empty c) ->
              year_of py_repr birth_to_dob (person_elem_to_dict elem birth_to_dob)
              <> "unknown"))
    /\ (forall pre v post,
          attrib elem = (pre ++ ("birth", v) :: post)%list ->
          Forall (fun kv => fst kv <> "birth" /\ fst kv <> "dob") post ->
          Forall (fun c' => tag c' <> "birth" /\ tag c' <> "dob") (children elem) ->
          birth_val (person_elem_to_dict elem birth_to_dob) birth_to_dob
          = Some (VStr v)
          /\ year_of py_repr birth_to_dob (person_elem_to_dict elem birth_to_dob)
             = resolve_year (Some v)).
Proof.
  intros py_repr elem Hbirth Hnames.
  set (r := person_elem_to_dict elem birth_to_dob).
  assert (forall key, key ∈ dict_keys r <->
            exists n, n ∈ source_names elem /\ key = translated birth_to_dob n)
    as Hsrc.
  { intros key. unfold r. rewrite projected_keys. unfold source_names.
    setoid_rewrite elem_of_app. setoid_rewrite list_elem_of_fmap. split.
    - intros [(k & v & Hin & ->) | (c' & Hin & ->)].
      + exists k. split; [left; by exists (k, v) | done].
      + exists (tag c'). split; [right; by exists c' | done].
    - intros (n & [([k v] & -> & Hin) | (c' & -> & Hin)] & ->).
      + left. by exists k, v.
      + right. by exists c'. }
  assert (forall key, key ∈ dict_keys r ->
            (key <> "birth") /\ (key ∈ other_date_names -> False)) as Hkeys.
  { intros key (n & Hn & ->)%Hsrc. rewrite translated_birth_to_dob.
    destruct (String.eqb_spec n "birth") as [->|Hne].
    - split; [done|]. unfold other_date_names. set_solver.
    - split; [done|]. rewrite Forall_forall in Hnames. by apply Hnames. }
  assert (first_candidate candidates r = None) as Hcand.
  { apply first_candidate_None. unfold candidates.
    apply Forall_forall. intros cand Hc Hin. destruct (Hkeys _ Hin) as [H1 H2].
    apply elem_of_cons in Hc as [->|Hc]; [done|]. by apply H2. }
  assert ("dob" ∈ dict_keys r) as Hdob.
  { apply Hsrc. exists "birth". split; [done|]. by rewrite translated_birth_to_dob. }
  assert (birth_val r birth_to_dob = dict_get "dob" r) as Hval.
  { unfold birth_val. by rewrite Hcand. }
  assert (forall t, t <> "birth" /\ t <> "dob" ->
            translated birth_to_dob t <> translated birth_to_dob "birth") as Hother.
  { intros t [H1 H2]. rewrite !translated_birth_to_dob. simpl.
    by destruct (String.eqb_spec t "birth"). }
  split; [done|].
  split; [intros Hin; by destruct (Hkeys _ Hin)|].
  split; [done|].
  split; [exact Hval|].
  split.
  { rewrite Hval. apply dict_in_keys in Hdob. unfold dict_in in Hdob.
    by destruct (dict_get "dob" r). }
  split.
  - intros pre c post Hch Htag Hleaf Hpost.
    assert (birth_val r birth_to_dob = Some (VStr (text_or_empty c))) as Hc.
    { rewrite Hval.
      assert (not_overwritten birth_to_dob tag (tag c) post) as Hnot.
      { unfold not_overwritten. rewrite Htag. eapply Forall_impl; [exact Hpost|].
        intros c'. apply Hother. }
      pose proof (projected_child_get elem birth_to_dob pre c post Hch Hnot) as H.
      rewrite Htag, translated_birth_to_dob in H. simpl in H.
      unfold r. rewrite H. by rewrite child_value_leaf. }
    split; [done|]. split; [by apply year_of_scalar|].
    intros Hyear. rewrite (year_of_scalar _ _ _ _ Hc).
    by apply is_year_not_unknown, resolve_year_is_year.
  - intros pre v post Hat Hpost Hch.
    assert (birth_val r birth_to_dob = Some (VStr v)) as Hc.
    { rewrite Hval. unfold r.
      rewrite person_elem_to_dict_assign.
      change "dob" with (if String.eqb "birth" "birth" then "dob" else "birth").
      rewrite <- translated_birth_to_dob, <- map_tag_translated.
      rewrite assign_all_get_other; cycle 1.
      { eapply Forall_impl; [exact Hch|]. intros c' Hc'.
        rewrite !map_tag_translated. by apply Hother. }
      rewrite Hat.
      apply (assign_all_get_last (fun kv => map_tag (fst kv) birth_to_dob)
               (fun kv => VStr (snd kv)) pre ("birth", v) post).
      eapply Forall_impl; [exact Hpost|]. intros kv Hkv. simpl.
      rewrite !map_tag_translated. by apply Hother. }
    split; [done|]. by apply year_of_scalar.
Qed.

(** C8 at a record born in 1990. *)
Lemma mapped_birth_partition_witness :
  year_of (fun _ => "") birth_to_dob (person_elem_to_dict ann birth_to_dob) = "1990".
Proof.
  assert ("birth" ∈ source_names ann) as H1.
  { unfold source_names. simpl. apply elem_of_cons. right. apply elem_of_cons. by left. }
  assert (Forall (fun n => n ∉ other_date_names) (source_names ann)) as H2.
  { unfold source_names, other_date_names. simpl. repeat constructor; set_solver. }
  destruct (mapped_birth_partition (fun _ => "") ann H1 H2)
    as (_ & _ & _ & _ & _ & Hchild & _).
  destruct (Hchild [leaf "name" "Ann"] (leaf "birth" "1990-01-01") []
              eq_refl eq_refl eq_refl (Forall_nil_2 _)) as (_ & Hyear & _).
  rewrite Hyear. reflexivity.
Defined.

(** ** Statements: what they add to the log *)

Section Appends.

Context (Q : io_event -> Prop).

Lemma appends_ret {A} (a : A) : appends Q (ret a).
Proof. intros st st' r [= <- <-]. exists []. by rewrite app_nil_r. Qed.

Lemma appends_bind {A B} (m : M A) (k : A -> M B) :
  appends Q m -> (forall a, appends Q (k a)) -> appends Q (bind m k).
Proof.
  intros Hm Hk st st' r. unfold bind.
  destruct (m st) as [s1 [a|e]] eqn:E1.
  - intros E2. destruct (Hm _ _ _ E1) as (evs1 & L1 & H1).
    destruct (Hk _ _ _ _ E2) as (evs2 & L2 & H2).
    exists (evs1 ++ evs2)%list.
    split; [by rewrite L2, L1, app_assoc | by apply Forall_app].
  - intros [= <- <-]. exact (Hm _ _ _ E1).
Qed.

Lemma appends_get_state : appends Q get_state.
Proof. intros st st' r [= <- <-]. exists []. by rewrite app_nil_r. Qed.

Lemma appends_for_each {X} (body : X -> M unit) l :
  (forall x, appends Q (body x)) -> appends Q (for_each body l).
Proof.
  intros Hb. induction l as [|x l IH]; simpl.
  - apply appends_ret.
  - apply appends_bind; [apply Hb | intros _; apply IH].
Qed.

Lemma appends_io faulty ev : Q ev -> appends Q (io faulty ev).
Proof.
  intros HQ st st' r. unfold io. destruct (faulty (log st) ev); intros [= <- <-].
  - exists []. by rewrite app_nil_r.
  - exists [ev]. split; [done | by constructor].
Qed.

Lemma appends_same_log {A} (m : M A) :
  (forall st, log (fst (m st)) = log st) -> appends Q m.
Proof.
  intros H st st' r E. exists []. rewrite app_nil_r.
  specialize (H st). by rewrite E in H.
Qed.

Lemma appends_open_w faulty name :
  (forall h, Q (EOpen h name)) -> appends Q (open_w faulty name).
Proof.
  intros HQ. unfold open_w.
  apply appends_bind; [apply appends_get_state | intros s].
  apply appends_bind; [by apply appends_io | intros _; apply appends_ret].
Qed.

End Appends.

Lemma appends_impl {A} (P Q : io_event -> Prop) (m : M A) :
  (forall ev, P ev -> Q ev) -> appends P m -> appends Q m.
Proof.
  intros HPQ Hm st st' r E. destruct (Hm _ _ _ E) as (evs & L & H).
  exists evs. split; [done|]. eapply Forall_impl; eauto.
Qed.

Section LoopLog.

Context (py_repr : list (string * string) -> string)
        (faulty : list io_event -> io_event -> bool)
        (mapping : gmap string string) (record_tag : string).

Lemma appends_route k r :
  appends (route_event k r) (route faulty k r).
Proof.
  unfold route, JsonArrayWriter_write, JsonArrayWriter_init, yaml_write.
  repeat first
    [ apply appends_bind; [|intros ?]
    | apply appends_get_state
    | apply appends_ret
    | apply appends_io; simpl; tauto
    | apply appends_open_w; simpl; tauto
    | apply appends_same_log; intros ?; unfold json_writer_at, json_writer_put,
        yaml_file_at, yaml_file_put; simpl;
        repeat match goal with |- context [match ?x with _ => _ end] => destruct x end;
        reflexivity
    | match goal with |- appends _ (if ?b then _ else _) => destruct b end ].
Qed.

Lemma loop_event_mono rs rs' ev :
  (forall r, r ∈ rs -> r ∈ rs') ->
  loop_event (year_of py_repr mapping) rs ev ->
  loop_event (year_of py_repr mapping) rs' ev.
Proof. intros Hsub. destruct ev; simpl; naive_solver. Qed.

Lemma records_cons e elems :
  records mapping record_tag (e :: elems) =
  if String.eqb (tag e) record_tag
  then person_elem_to_dict e mapping :: records mapping record_tag elems
  else records mapping record_tag elems.
Proof.
  unfold records. rewrite filter_cons.
  destruct (String.eqb (tag e) record_tag); by case_decide.
Qed.

Lemma appends_process e :
  appends (loop_event (year_of py_repr mapping) (records mapping record_tag [e]))
    (process py_repr faulty mapping record_tag e).
Proof.
  unfold process. rewrite records_cons.
  destruct (String.eqb (tag e) record_tag); simpl.
  - eapply appends_impl; [|apply appends_route].
    intros ev. destruct ev; simpl; set_solver.
  - apply appends_ret.
Qed.

(** Whatever fails, the loop closes nothing, opens only the two files of
    the keys of the records it was given and serializes only these
    records. *)
Lemma appends_main_loop elems :
  appends (loop_event (year_of py_repr mapping) (records mapping record_tag elems))
    (main_loop py_repr faulty mapping record_tag elems).
Proof.
  unfold main_loop. induction elems as [|e elems IH]; simpl.
  - apply appends_ret.
  - apply appends_bind.
    + eapply appends_impl; [|apply appends_process].
      intros ev. apply loop_event_mono. rewrite !records_cons.
      destruct (String.eqb (tag e) record_tag); set_solver.
    + intros _. eapply appends_impl; [|apply IH].
      intros ev. apply loop_event_mono. rewrite records_cons.
      destruct (String.eqb (tag e) record_tag); set_solver.
Qed.

End LoopLog.

(** ** Statements: running until an operation fails *)

Lemma follows_refl {A} (m : M A) : follows m m.
Proof. intros st. destruct (m st) as [s [a|e]]; [done|]. by exists s, (Raise e). Qed.

Lemma follows_bind {A B} (mA mB : M A) (kA kB : A -> M B) :
  follows mA mB -> (forall a, follows (kA a) (kB a)) ->
  (forall a, appends (fun _ => True) (kB a)) ->
  follows (bind mA kA) (bind mB kB).
Proof.
  intros Hm Hk Hgrow st. unfold bind. specialize (Hm st).
  destruct (mA st) as [s1 [a|e]].
  - rewrite Hm. apply Hk.
  - destruct Hm as (sB & rB & -> & Hpre). destruct rB as [a|e'].
    + destruct (kB a sB) as [sB' rB'] eqn:E.
      exists sB', rB'. split; [done|].
      destruct (Hgrow _ _ _ _ E) as (evs & L & _).
      etrans; [exact Hpre|]. rewrite L. by apply prefix_app_r.
    + by exists sB, (Raise e').
Qed.

Lemma follows_io faulty ev : follows (io faulty ev) (io never ev).
Proof.
  intros st. unfold io, never. destruct (faulty (log st) ev); [|done].
  eexists _, _. split; [done|]. simpl. by apply prefix_app_r.
Qed.

Lemma follows_for_each {X} (bodyA bodyB : X -> M unit) l :
  (forall x, follows (bodyA x) (bodyB x)) ->
  (forall x, appends (fun _ => True) (bodyB x)) ->
  follows (for_each bodyA l) (for_each bodyB l).
Proof.
  intros Hf Hg. induction l as [|x l IH]; simpl.
  - apply follows_refl.
  - apply follows_bind; [apply Hf | intros _; apply IH |].
    intros _. by apply appends_for_each.
Qed.

Lemma appends_any {A} (Q : io_event -> Prop) (m : M A) :
  appends Q m -> appends (fun _ => True) m.
Proof. by apply appends_impl. Qed.

Section Follows.

Context (py_repr : list (string * string) -> string)
        (faulty : list io_event -> io_event -> bool)
        (mapping : gmap string string) (record_tag : string).

Lemma follows_open_w name : follows (open_w faulty name) (open_w never name).
Proof.
  unfold open_w. apply follows_bind; [apply follows_refl| |].
  - intros s. apply follows_bind; [apply follows_io | intros _; apply follows_refl|].
    intros _. apply appends_ret.
  - intros s. apply appends_bind; [by apply appends_io | intros _; apply appends_ret].
Qed.

Lemma appends_close_json faulty' w :
  appends (fun _ => True) (JsonArrayWriter_close faulty' w).
Proof.
  unfold JsonArrayWriter_close.
  apply appends_bind; [by apply appends_io | intros _; by apply appends_io].
Qed.

Lemma appends_close_all faulty' : appends (fun _ => True) (close_all faulty').
Proof.
  unfold close_all.
  apply appends_bind; [|intros _]; (apply appends_bind; [apply appends_get_state|intros s]).
  - apply appends_for_each. apply appends_close_json.
  - apply appends_for_each. intros h. by apply appends_io.
Qed.

Lemma follows_route k r : follows (route faulty k r) (route never k r).
Proof.
  unfold route, JsonArrayWriter_write, JsonArrayWriter_init, yaml_write.
  repeat first
    [ apply follows_io
    | apply follows_open_w
    | apply follows_refl
    | match goal with |- follows (if ?b then _ else _) _ => destruct b end
    | match goal with |- appends _ (if ?b then _ else _) => destruct b end
    | apply follows_bind; [| intros ? | intros ?]
    | apply appends_get_state
    | apply appends_ret
    | apply appends_io; exact I
    | apply appends_open_w; intros; exact I
    | apply appends_same_log; intros ?; unfold json_writer_at, json_writer_put,
        yaml_file_at, yaml_file_put; simpl;
        repeat match goal with |- context [match ?x with _ => _ end] => destruct x end;
        reflexivity
    | apply appends_bind; [|intros ?] ].
Qed.

Lemma follows_process e :
  follows (process py_repr faulty mapping record_tag e)
          (process py_repr never mapping record_tag e).
Proof.
  unfold process. destruct (negb _); [apply follows_refl | apply follows_route].
Qed.

Lemma follows_main_loop elems :
  follows (main_loop py_repr faulty mapping record_tag elems)
          (main_loop py_repr never mapping record_tag elems).
Proof.
  apply follows_for_each; [apply follows_process|].
  intros e. eapply appends_any, appends_process.
Qed.

Lemma follows_close_all : follows (close_all faulty) (close_all never).
Proof.
  unfold close_all.
  apply follows_bind; [| intros _ | intros _].
  - apply follows_bind; [apply follows_refl | intros s | intros s].
    + apply follows_for_each.
      * intros w. unfold JsonArrayWriter_close.
        apply follows_bind; [apply follows_io | intros _; apply follows_io |].
        intros _. by apply appends_io.
      * apply appends_close_json.
    + apply appends_for_each, appends_close_json.
  - apply follows_bind; [apply follows_refl | intros s | intros s].
    + apply follows_for_each; [intros h; apply follows_io|].
      intros h. by apply appends_io.
    + apply appends_for_each. intros h. by apply appends_io.
  - apply appends_bind; [apply appends_get_state | intros s].
    apply appends_for_each. intros h. by apply appends_io.
Qed.

(** A run in which an operation fails is the beginning of the run in
    which none does. *)
Lemma follows_main elems :
  follows (main py_repr faulty mapping record_tag elems)
          (main py_repr never mapping record_tag elems).
Proof.
  unfold main. apply follows_bind.
  - apply follows_main_loop.
  - intros _. apply follows_close_all.
  - intros _. apply appends_close_all.
Qed.

End Follows.

(** ** File names *)

Lemma length_append (s1 s2 : string) :
  String.length (s1 ++ s2) = String.length s1 + String.length s2.
Proof. induction s1 as [|c s1 IH]; [done|]. rewrite append_cons. simpl. by rewrite IH. Qed.

Lemma append_inj_l (s a b : string) : s ++ a = s ++ b -> a = b.
Proof.
  induction s as [|c s IH]; [done|]. rewrite !append_cons. intros [= H]. auto.
Qed.

Lemma append_inj_r (a b s : string) : a ++ s = b ++ s -> a = b.
Proof.
  revert b. induction a as [|c a IH]; intros [|c' b] H.
  - done.
  - apply (f_equal String.length) in H. rewrite append_nil, length_append in H.
    simpl in H. lia.
  - apply (f_equal String.length) in H. rewrite append_nil, length_append in H.
    simpl in H. lia.
  - rewrite !append_cons in H. injection H as -> H. f_equal. auto.
Qed.

Lemma last_char_append s1 c s2 :
  last_char (s1 ++ String c s2) = last_char (String c s2).
Proof.
  induction s1 as [|c1 s1 IH]; [done|]. rewrite append_cons.
  change (last_char (String c1 ?s)) with
    (match last_char s with Some d => Some d | None => Some c1 end).
  rewrite IH. by destruct (last_char_cons c s2) as [d ->].
Qed.

Lemma json_name_inj k k' : json_name k = json_name k' -> k = k'.
Proof. unfold json_name. intros H%append_inj_l. by apply append_inj_r in H. Qed.

Lemma yaml_name_inj k k' : yaml_name k = yaml_name k' -> k = k'.
Proof. unfold yaml_name. intros H%append_inj_l. by apply append_inj_r in H. Qed.

Lemma json_yaml_ne k k' : json_name k <> yaml_name k'.
Proof.
  unfold json_name, yaml_name. intros H%append_inj_l.
  apply (f_equal last_char) in H.
  change ".json" with (String "." "json") in H.
  change ".yaml" with (String "." "yaml") in H.
  rewrite !last_char_append in H. discriminate.
Qed.

Lemma json_name_eqb k k' : String.eqb (json_name k) (json_name k') = String.eqb k k'.
Proof.
  destruct (String.eqb_spec k k') as [->|Hne]; [apply String.eqb_refl|].
  apply String.eqb_neq. by intros ?%json_name_inj.
Qed.

Lemma yaml_name_eqb k k' : String.eqb (yaml_name k) (yaml_name k') = String.eqb k k'.
Proof.
  destruct (String.eqb_spec k k') as [->|Hne]; [apply String.eqb_refl|].
  apply String.eqb_neq. by intros ?%yaml_name_inj.
Qed.

Lemma json_yaml_eqb k k' : String.eqb (json_name k) (yaml_name k') = false.
Proof. apply String.eqb_neq, json_yaml_ne. Qed.

Lemma yaml_json_eqb k k' : String.eqb (yaml_name k) (json_name k') = false.
Proof. apply String.eqb_neq. intros H. by apply (json_yaml_ne k' k). Qed.

Opaque json_name yaml_name.

(** ** Reading a log that grows *)

Lemma written_app h l1 l2 : written h (l1 ++ l2) = (written h l1 ++ written h l2)%list.
Proof. apply omap_app. Qed.

Lemma opened_app n l1 l2 : opened n (l1 ++ l2) = (opened n l1 ++ opened n l2)%list.
Proof. apply omap_app. Qed.

Lemma closes_app h l1 l2 : closes h (l1 ++ l2) = closes h l1 + closes h l2.
Proof. unfold closes. by rewrite filter_app, length_app. Qed.

Lemma fs_run_app key_of s l1 l2 :
  fs_run key_of s (l1 ++ l2) =
  match fs_run key_of s l1 with
  | Some s' => fs_run key_of s' l2
  | None => None
  end.
Proof.
  revert s. induction l1 as [|ev l1 IH]; intros s; simpl; [done|].
  destruct (fs_step key_of s ev); [apply IH | done].
Qed.

Lemma fs_run_prefix key_of l1 l2 :
  l1 `prefix_of` l2 -> is_Some (fs_run key_of fs_init l2) ->
  is_Some (fs_run key_of fs_init l1).
Proof.
  intros [l3 ->] [s' H]. rewrite fs_run_app in H.
  destruct (fs_run key_of fs_init l1); [eauto | done].
Qed.

(** ** The run in which nothing fails *)

Lemma route_new k r jw yf lg :
  dict_get k jw = None -> dict_get k yf = None ->
  route never k r (mkState jw yf lg) =
  (mkState (dict_set k (mkWriter (length lg) false)
              (dict_set k (mkWriter (length lg) true) jw))
           (dict_set k (length lg + 3) yf)
           (lg ++ [EOpen (length lg) (json_name k);
                   EWrite (length lg) ("[" ++ nl);
                   EJsonDump (length lg) r;
                   EOpen (length lg + 3) (yaml_name k);
                   EYamlDump (length lg + 3) r;
                   EWrite (length lg + 3) nl]),
   Ok tt).
Proof.
  intros Hj Hy. unfold route.
  repeat (progress (unfold bind, get_state, JsonArrayWriter_init,
            JsonArrayWriter_write, open_w, io, never, json_writer_put,
            json_writer_at, yaml_file_at, yaml_file_put, yaml_write, ret, dict_in;
          simpl; rewrite ?Hj, ?Hy, ?dict_get_set_eq)).
  rewrite <- !app_assoc. simpl. rewrite !length_app. simpl.
  by replace (length lg + 1 + 1 + 1) with (length lg + 3) by lia.
Qed.

Lemma route_old k r jw yf lg hj hy :
  dict_get k jw = Some (mkWriter hj false) -> dict_get k yf = Some hy ->
  route never k r (mkState jw yf lg) =
  (mkState jw yf
           (lg ++ [EWrite hj ("," ++ nl); EJsonDump hj r;
                   EYamlDump hy r; EWrite hy nl]),
   Ok tt).
Proof.
  intros Hj Hy. unfold route.
  repeat (progress (unfold bind, get_state, JsonArrayWriter_init,
            JsonArrayWriter_write, open_w, io, never, json_writer_put,
            json_writer_at, yaml_file_at, yaml_file_put, yaml_write, ret, dict_in;
          simpl; rewrite ?Hj, ?Hy, ?dict_get_set_eq)).
  by rewrite <- !app_assoc.
Qed.


Lemma dict_set_new {V} k (v : V) d :
  dict_get k d = None -> dict_set k v d = (d ++ [(k, v)])%list.
Proof.
  induction d as [|[k' v'] d IH]; simpl; [done|].
  destruct (String.eqb k' k); [done|]. intros H. by rewrite IH.
Qed.

Lemma dict_set_last {V} k (v v' : V) d :
  dict_get k d = None -> dict_set k v' (d ++ [(k, v)])%list = (d ++ [(k, v')])%list.
Proof.
  induction d as [|[k0 v0] d IH]; simpl.
  - by rewrite String.eqb_refl.
  - destruct (String.eqb k0 k); [done|]. intros H. by rewrite IH.
Qed.

Lemma dict_get_elem_of {V} k (v : V) d : dict_get k d = Some v -> (k, v) ∈ d.
Proof.
  induction d as [|[k' v'] d IH]; simpl; [done|].
  destruct (String.eqb_spec k' k) as [->|Hne].
  - intros [= ->]. apply elem_of_cons. by left.
  - intros H. apply elem_of_cons. right. auto.
Qed.

Lemma elem_of_dict_keys {V} k (v : V) d : (k, v) ∈ d -> k ∈ dict_keys d.
Proof. intros H. apply list_elem_of_fmap. by exists (k, v). Qed.

Lemma part_snoc key_of k rs r :
  part key_of k (rs ++ [r]) =
  (part key_of k rs ++ (if String.eqb (key_of r) k then [r] else []))%list.
Proof.
  unfold part. rewrite filter_app. f_equal.
  rewrite filter_cons, filter_nil. destruct (String.eqb (key_of r) k); by case_decide.
Qed.

Lemma json_started_snoc rs r :
  rs <> [] ->
  json_started (rs ++ [r]) = (json_started rs ++ [Text ("," ++ nl); JsonDoc r])%list.
Proof.
  destruct rs as [|r0 rs]; [done|]. intros _. unfold json_started. simpl.
  by rewrite flat_map_app.
Qed.

Lemma yaml_chunks_snoc rs r :
  yaml_chunks (rs ++ [r]) = (yaml_chunks rs ++ [YamlDoc r; Text nl])%list.
Proof. unfold yaml_chunks. by rewrite flat_map_app. Qed.

Lemma NoDup_fst_inj {A B} (l : list (A * B)) a b b' :
  NoDup (map fst l) -> (a, b) ∈ l -> (a, b') ∈ l -> b = b'.
Proof.
  induction l as [|[a0 b0] l IH]; simpl; [by intros _ ?%elem_of_nil|].
  intros [Hnotin Hnd]%NoDup_cons H1 H2.
  apply elem_of_cons in H1 as [E1|H1]; apply elem_of_cons in H2 as [E2|H2];
    simplify_eq.
  - done.
  - exfalso. apply Hnotin, list_elem_of_fmap.
    eexists (_, _). split; [|eassumption]. done.
  - exfalso. apply Hnotin, list_elem_of_fmap.
    eexists (_, _). split; [|eassumption]. done.
  - by apply IH.
Qed.

Lemma registered_bound st fs h n :
  fs_agrees st fs -> registered st h n -> h < length (log st).
Proof. intros (Ho & Hu & _ & Hou & _) Hr. apply Hu, (Hou h n), Ho, Hr. Qed.

Lemma registered_inj st fs h n n' :
  fs_agrees st fs -> registered st h n -> registered st h n' -> n = n'.
Proof.
  intros (Ho & _ & _ & _ & Hnd) H1 H2.
  apply Ho in H1, H2. exact (NoDup_fst_inj _ _ _ _ Hnd H1 H2).
Qed.

Lemma fs_step_open key_of s h n :
  h ∉ fs_used s -> n ∉ fs_names s ->
  fs_step key_of s (EOpen h n)
  = Some (mkFs ((h, n) :: fs_open s) (h :: fs_used s) (n :: fs_names s)).
Proof.
  intros H1 H2. simpl.
  by rewrite (bool_decide_eq_false_2 _ H1), (bool_decide_eq_false_2 _ H2).
Qed.

Lemma fs_step_write key_of s h n t :
  (h, n) ∈ fs_open s -> fs_step key_of s (EWrite h t) = Some s.
Proof.
  intros H. simpl. unfold is_open. rewrite bool_decide_eq_true_2; [done|].
  apply list_elem_of_fmap. by exists (h, n).
Qed.

Lemma fs_step_json key_of s h r :
  (h, json_name (key_of r)) ∈ fs_open s -> fs_step key_of s (EJsonDump h r) = Some s.
Proof. intros H. simpl. by rewrite bool_decide_eq_true_2. Qed.

Lemma fs_step_yaml key_of s h r :
  (h, yaml_name (key_of r)) ∈ fs_open s -> fs_step key_of s (EYamlDump h r) = Some s.
Proof. intros H. simpl. by rewrite bool_decide_eq_true_2. Qed.

Lemma fs_step_close key_of s h n :
  (h, n) ∈ fs_open s ->
  fs_step key_of s (EClose h)
  = Some (mkFs (filter (fun hn => fst hn <> h) (fs_open s)) (fs_used s) (fs_names s)).
Proof.
  intros H. simpl. unfold is_open. rewrite bool_decide_eq_true_2; [done|].
  apply list_elem_of_fmap. by exists (h, n).
Qed.

Lemma fs_run_cons key_of s ev l :
  fs_run key_of s (ev :: l) =
  match fs_step key_of s ev with
  | Some s' => fs_run key_of s' l
  | None => None
  end.
Proof. reflexivity. Qed.

Section PoolInvariant.

Context (key_of : record -> string).

Lemma registered_new jw yf lg lg' k w hy h n :
  registered (mkState (jw ++ [(k, w)]) (yf ++ [(k, hy)]) lg') h n <->
  registered (mkState jw yf lg) h n
  \/ (h = f w /\ n = json_name k) \/ (h = hy /\ n = yaml_name k).
Proof.
  unfold registered. simpl. setoid_rewrite elem_of_app.
  setoid_rewrite list_elem_of_singleton. split.
  - intros [(k' & w' & [Hin | [= -> ->]] & -> & ->) | (k' & [Hin | [= -> ->]] & ->)];
      eauto 10.
  - intros [[(k' & w' & Hin & -> & ->) | (k' & Hin & ->)] | [[-> ->] | [-> ->]]];
      eauto 10.
Qed.

Lemma unregistered_not_opened rs st k :
  pool_inv key_of rs st -> part key_of k rs = [] ->
  opened (json_name k) (log st) = [] /\ opened (yaml_name k) (log st) = [].
Proof.
  intros Hinv Hpart.
  assert (k ∉ dict_keys (json_writers st)) as Hj
    by (rewrite (inv_json_keys _ _ _ Hinv); tauto).
  assert (k ∉ dict_keys (yaml_files st)) as Hy
    by (rewrite (inv_yaml_keys _ _ _ Hinv); tauto).
  split.
  - destruct (opened (json_name k) (log st)) as [|h l] eqn:E; [done|]. exfalso.
    assert (h ∈ opened (json_name k) (log st)) as Hin
      by (rewrite E; apply elem_of_cons; by left).
    apply (inv_opened _ _ _ Hinv) in Hin
      as [(k' & w & Hin & _ & Heq) | (k' & Hin & Heq)].
    + apply json_name_inj in Heq as <-. by apply elem_of_dict_keys in Hin.
    + by apply json_yaml_ne in Heq.
  - destruct (opened (yaml_name k) (log st)) as [|h l] eqn:E; [done|]. exfalso.
    assert (h ∈ opened (yaml_name k) (log st)) as Hin
      by (rewrite E; apply elem_of_cons; by left).
    apply (inv_opened _ _ _ Hinv) in Hin
      as [(k' & w & Hin & _ & Heq) | (k' & Hin & Heq)].
    + symmetry in Heq. by apply json_yaml_ne in Heq.
    + apply yaml_name_inj in Heq as <-. by apply elem_of_dict_keys in Hin.
Qed.

Lemma eqb_lt_false a b : a < b -> Nat.eqb b a = false.
Proof. intros H. apply Nat.eqb_neq. lia. Qed.

Lemma eqb_lt_false3 a b : a < b -> Nat.eqb (b + 3) a = false.
Proof. intros H. apply Nat.eqb_neq. lia. Qed.

Lemma eqb_add3_false a : Nat.eqb (a + 3) a = false.
Proof. apply Nat.eqb_neq. lia. Qed.

Lemma eqb_add3_false' a : Nat.eqb a (a + 3) = false.
Proof. apply Nat.eqb_neq. lia. Qed.

(** The first record of a key: its two files are opened. *)
Lemma pool_inv_new rs jw yf lg r k :
  pool_inv key_of rs (mkState jw yf lg) ->
  key_of r = k -> part key_of k rs = [] ->
  pool_inv key_of (rs ++ [r])
    (mkState (jw ++ [(k, mkWriter (length lg) false)]) (yf ++ [(k, length lg + 3)])
       (lg ++ [EOpen (length lg) (json_name k);
               EWrite (length lg) ("[" ++ nl);
               EJsonDump (length lg) r;
               EOpen (length lg + 3) (yaml_name k);
               EYamlDump (length lg + 3) r;
               EWrite (length lg + 3) nl])).
Proof.
  intros Hinv Hk Hpart.
  destruct (unregistered_not_opened _ _ k Hinv Hpart) as [Hoj Hoy]. simpl in Hoj, Hoy.
  destruct (inv_fs _ _ _ Hinv) as (fs & Hrun & Hag). simpl in Hrun.
  pose proof Hag as (Hopen & Hused & Hnames & Hou & Hnd). simpl in Hused.
  assert (k ∉ dict_keys jw) as Hkj
    by (rewrite (inv_json_keys _ _ _ Hinv k); tauto).
  assert (k ∉ dict_keys yf) as Hky
    by (rewrite (inv_yaml_keys _ _ _ Hinv k); tauto).
  assert (forall h n, registered (mkState jw yf lg) h n -> h < length lg) as Hbound
    by (intros h n; apply (registered_bound _ _ _ _ Hag)).
  assert (forall h n, registered (mkState jw yf lg) h n ->
            n <> json_name k /\ n <> yaml_name k) as Hother.
  { intros h n [(k' & w & Hin & _ & ->) | (k' & Hin & ->)]; simpl in Hin.
    - split; [intros ->%json_name_inj; by apply elem_of_dict_keys in Hin
             | apply json_yaml_ne].
    - split; [intros E; symmetry in E; by apply json_yaml_ne in E
             | intros ->%yaml_name_inj; by apply elem_of_dict_keys in Hin]. }
  pose proof (inv_fresh _ _ _ Hinv) as Hfresh. simpl in Hfresh.
  pose proof (inv_closes _ _ _ Hinv) as Hcl. simpl in Hcl.
  constructor; simpl.
  - unfold dict_keys. rewrite map_app. apply NoDup_app.
    split; [apply (inv_keys_json _ _ _ Hinv)|]. split; [|apply NoDup_singleton].
    by intros x Hx ->%list_elem_of_singleton.
  - unfold dict_keys. rewrite map_app. apply NoDup_app.
    split; [apply (inv_keys_yaml _ _ _ Hinv)|]. split; [|apply NoDup_singleton].
    by intros x Hx ->%list_elem_of_singleton.
  - intros k'. unfold dict_keys. rewrite map_app, elem_of_app, part_snoc, Hk. simpl.
    rewrite list_elem_of_singleton.
    pose proof (inv_json_keys _ _ _ Hinv k') as Hiff. simpl in Hiff.
    destruct (String.eqb_spec k k') as [<-|Hne].
    + split; [intros _ E; by apply app_nil in E as [_ ?] | auto].
    + rewrite app_nil_r. unfold dict_keys in Hiff. rewrite <- Hiff. naive_solver.
  - intros k'. unfold dict_keys. rewrite map_app, elem_of_app, part_snoc, Hk. simpl.
    rewrite list_elem_of_singleton.
    pose proof (inv_yaml_keys _ _ _ Hinv k') as Hiff. simpl in Hiff.
    destruct (String.eqb_spec k k') as [<-|Hne].
    + split; [intros _ E; by apply app_nil in E as [_ ?] | auto].
    + rewrite app_nil_r. unfold dict_keys in Hiff. rewrite <- Hiff. naive_solver.
  - intros k' w [Hin | [= -> ->]%list_elem_of_singleton]%elem_of_app.
    + destruct (inv_json _ _ _ Hinv k' w Hin) as (Hf & Ho & Hw). simpl in Ho, Hw.
      assert (k <> k') as Hne by (intros ->; by apply elem_of_dict_keys in Hin).
      assert (f w < length lg) as Hlt.
      { apply (Hbound (f w) (json_name k')). left. by exists k', w. }
      split; [done|]. rewrite opened_app, written_app, Ho, Hw, part_snoc, Hk. simpl.
      rewrite json_name_eqb, yaml_json_eqb, (eqb_lt_false _ _ Hlt),
        (eqb_lt_false3 _ _ Hlt).
      apply String.eqb_neq in Hne. rewrite Hne. by rewrite !app_nil_r.
    + split; [done|]. cbn [f].
      rewrite opened_app, written_app, Hoj, part_snoc, Hk, Hpart.
      rewrite (Hfresh (length lg)) by lia. simpl.
      by rewrite !String.eqb_refl, yaml_json_eqb, !Nat.eqb_refl, eqb_add3_false.
  - intros k' h [Hin | [= -> ->]%list_elem_of_singleton]%elem_of_app.
    + destruct (inv_yaml _ _ _ Hinv k' h Hin) as (Ho & Hw). simpl in Ho, Hw.
      assert (k <> k') as Hne by (intros ->; by apply elem_of_dict_keys in Hin).
      assert (h < length lg) as Hlt.
      { apply (Hbound h (yaml_name k')). right. by exists k'. }
      rewrite opened_app, written_app, Ho, Hw, part_snoc, Hk. simpl.
      rewrite yaml_name_eqb, json_yaml_eqb, (eqb_lt_false _ _ Hlt),
        (eqb_lt_false3 _ _ Hlt).
      apply String.eqb_neq in Hne. rewrite Hne. by rewrite !app_nil_r.
    + cbn [f]. rewrite opened_app, written_app, Hoy, part_snoc, Hk, Hpart.
      rewrite (Hfresh (length lg + 3)) by lia. simpl.
      by rewrite !String.eqb_refl, json_yaml_eqb, !Nat.eqb_refl, eqb_add3_false'.
  - intros n h. rewrite opened_app, elem_of_app, (registered_new jw yf lg). simpl.
    intros [Hin | Hin].
    + left. by apply (inv_opened _ _ _ Hinv).
    + right. simpl in Hin.
      destruct (String.eqb_spec (json_name k) n) as [E1|E1];
        destruct (String.eqb_spec (yaml_name k) n) as [E2|E2]; simpl in Hin.
      * exfalso. rewrite <- E2 in E1. by apply json_yaml_ne in E1.
      * apply list_elem_of_singleton in Hin as ->. by left.
      * apply list_elem_of_singleton in Hin as ->. by right.
      * by apply elem_of_nil in Hin.
  - intros h. rewrite length_app. simpl. intros Hh.
    rewrite written_app, (Hfresh h) by lia. simpl.
    assert (Nat.eqb (length lg) h = false) as -> by (apply Nat.eqb_neq; lia).
    assert (Nat.eqb (length lg + 3) h = false) as -> by (apply Nat.eqb_neq; lia).
    done.
  - intros h. rewrite closes_app, (Hcl h). reflexivity.
  - assert (length lg ∉ fs_used fs) as Hu1 by (intros ?%Hused; lia).
    assert (length lg + 3 ∉ fs_used fs) as Hu3 by (intros ?%Hused; lia).
    assert (json_name k ∉ fs_names fs) as Hn1.
    { intros (h & Hh%Hopen)%Hnames. by destruct (Hother _ _ Hh). }
    assert (yaml_name k ∉ fs_names fs) as Hn2.
    { intros (h & Hh%Hopen)%Hnames. by destruct (Hother _ _ Hh). }
    eexists. split.
    + rewrite fs_run_app, Hrun.
      rewrite fs_run_cons, fs_step_open by done.
      rewrite fs_run_cons, (fs_step_write _ _ _ (json_name k)) by (simpl; set_solver).
      rewrite fs_run_cons, fs_step_json by (rewrite Hk; simpl; set_solver).
      rewrite fs_run_cons, fs_step_open; cycle 1.
      { simpl. intros [E|?]%elem_of_cons; [lia | done]. }
      { simpl. intros [E|?]%elem_of_cons; [|done].
        symmetry in E. by apply json_yaml_ne in E. }
      rewrite fs_run_cons, fs_step_yaml by (rewrite Hk; simpl; set_solver).
      rewrite fs_run_cons, (fs_step_write _ _ _ (yaml_name k)) by (simpl; set_solver).
      reflexivity.
    + repeat split; simpl.
      * intros Hin. apply (registered_new jw yf lg). simpl.
        apply elem_of_cons in Hin as [[= -> ->]|Hin]; [auto|].
        apply elem_of_cons in Hin as [[= -> ->]|Hin]; [auto|].
        left. by apply Hopen.
      * intros [Hr | [[-> ->] | [-> ->]]]%(registered_new jw yf lg); simpl in *.
        -- do 2 (apply elem_of_cons; right). by apply Hopen.
        -- apply elem_of_cons. right. apply elem_of_cons. by left.
        -- apply elem_of_cons. by left.
      * intros h. rewrite length_app. simpl.
        intros [->|[->|Hin%Hused]%elem_of_cons]%elem_of_cons; lia.
      * intros n [->|[->|(h & Hin)%Hnames]%elem_of_cons]%elem_of_cons.
        -- eexists. apply elem_of_cons. by left.
        -- eexists. apply elem_of_cons. right. apply elem_of_cons. by left.
        -- exists h. by do 2 (apply elem_of_cons; right).
      * intros h n [[= -> ->]|[[= -> ->]|Hin%Hou]%elem_of_cons]%elem_of_cons;
          set_solver.
      * assert (forall h, h ∈ map fst (fs_open fs) -> h < length lg) as Hlt.
        { intros h ([h' n] & -> & Hin%Hou)%list_elem_of_fmap. by apply Hused. }
        apply NoDup_cons. split.
        { intros [E|Hin%Hlt]%elem_of_cons; lia. }
        apply NoDup_cons. split; [|done]. intros Hin%Hlt. lia.
Qed.

(** A later record of a key: it goes to the two open files. *)
Lemma pool_inv_old rs jw yf lg r k hj hy :
  pool_inv key_of rs (mkState jw yf lg) ->
  key_of r = k -> (k, mkWriter hj false) ∈ jw -> (k, hy) ∈ yf ->
  pool_inv key_of (rs ++ [r])
    (mkState jw yf
       (lg ++ [EWrite hj ("," ++ nl); EJsonDump hj r; EYamlDump hy r; EWrite hy nl])).
Proof.
  intros Hinv Hk Hj Hy.
  destruct (inv_fs _ _ _ Hinv) as (fs & Hrun & Hag). simpl in Hrun.
  pose proof Hag as (Hopen & Hused & Hnames & Hou & Hnd). simpl in Hused.
  pose proof (inv_fresh _ _ _ Hinv) as Hfresh. simpl in Hfresh.
  pose proof (inv_closes _ _ _ Hinv) as Hcl. simpl in Hcl.
  assert (part key_of k rs <> []) as Hpart.
  { apply (inv_json_keys _ _ _ Hinv k). simpl. by apply elem_of_dict_keys in Hj. }
  assert (registered (mkState jw yf lg) hj (json_name k)) as Hrj.
  { left. by exists k, (mkWriter hj false). }
  assert (registered (mkState jw yf lg) hy (yaml_name k)) as Hry.
  { right. by exists k. }
  assert (hj < length lg) as Hltj by apply (registered_bound _ _ _ _ Hag Hrj).
  assert (hy < length lg) as Hlty by apply (registered_bound _ _ _ _ Hag Hry).
  assert (hj <> hy) as Hne.
  { intros ->. apply (json_yaml_ne k k). exact (registered_inj _ _ _ _ _ Hag Hrj Hry). }
  assert (Nat.eqb hy hj = false) as Eyj by (apply Nat.eqb_neq; lia).
  assert (Nat.eqb hj hy = false) as Ejy by (apply Nat.eqb_neq; lia).
  constructor; simpl.
  - apply (inv_keys_json _ _ _ Hinv).
  - apply (inv_keys_yaml _ _ _ Hinv).
  - intros k'. rewrite part_snoc, Hk.
    pose proof (inv_json_keys _ _ _ Hinv k') as Hiff. simpl in Hiff. rewrite Hiff.
    destruct (String.eqb_spec k k') as [<-|Hne'].
    + split; [intros _ E; by apply app_nil in E as [_ ?] | done].
    + by rewrite app_nil_r.
  - intros k'. rewrite part_snoc, Hk.
    pose proof (inv_yaml_keys _ _ _ Hinv k') as Hiff. simpl in Hiff. rewrite Hiff.
    destruct (String.eqb_spec k k') as [<-|Hne'].
    + split; [intros _ E; by apply app_nil in E as [_ ?] | done].
    + by rewrite app_nil_r.
  - intros k' w Hin.
    destruct (inv_json _ _ _ Hinv k' w Hin) as (Hf & Ho & Hw). simpl in Ho, Hw.
    split; [done|]. rewrite opened_app, written_app, Ho, Hw, part_snoc, Hk. simpl.
    split; [done|].
    destruct (String.eqb_spec k k') as [<-|Hne'].
    + assert (w = mkWriter hj false) as ->.
      { exact (NoDup_fst_inj _ _ _ _ (inv_keys_json _ _ _ Hinv) Hin Hj). }
      simpl. rewrite Nat.eqb_refl, Eyj. simpl. by rewrite json_started_snoc.
    + assert (f w <> hj) as N1.
      { intros E. apply Hne', json_name_inj. symmetry.
        apply (registered_inj _ _ (f w) _ _ Hag); [left; by exists k', w|].
        by rewrite E. }
      assert (f w <> hy) as N2.
      { intros E. apply (json_yaml_ne k' k).
        apply (registered_inj _ _ (f w) _ _ Hag); [left; by exists k', w|].
        by rewrite E. }
      apply Nat.eqb_neq in N1, N2. rewrite Nat.eqb_sym in N1. rewrite Nat.eqb_sym in N2.
      rewrite N1, N2. simpl. by rewrite !app_nil_r.
  - intros k' h Hin.
    destruct (inv_yaml _ _ _ Hinv k' h Hin) as (Ho & Hw). simpl in Ho, Hw.
    rewrite opened_app, written_app, Ho, Hw, part_snoc, Hk. simpl.
    split; [done|].
    destruct (String.eqb_spec k k') as [<-|Hne'].
    + assert (h = hy) as ->.
      { exact (NoDup_fst_inj _ _ _ _ (inv_keys_yaml _ _ _ Hinv) Hin Hy). }
      rewrite Nat.eqb_refl, Ejy. simpl. by rewrite yaml_chunks_snoc.
    + assert (h <> hj) as N1.
      { intros E. apply (json_yaml_ne k k'). symmetry.
        apply (registered_inj _ _ h _ _ Hag); [right; by exists k'|].
        by rewrite E. }
      assert (h <> hy) as N2.
      { intros E. apply Hne', yaml_name_inj. symmetry.
        apply (registered_inj _ _ h _ _ Hag); [right; by exists k'|].
        by rewrite E. }
      apply Nat.eqb_neq in N1, N2. rewrite Nat.eqb_sym in N1. rewrite Nat.eqb_sym in N2.
      rewrite N1, N2. simpl. by rewrite !app_nil_r.
  - intros n h. rewrite opened_app. simpl. rewrite app_nil_r.
    apply (inv_opened _ _ _ Hinv).
  - intros h. rewrite length_app. simpl. intros Hh.
    rewrite written_app, (Hfresh h) by lia. simpl.
    assert (Nat.eqb hj h = false) as -> by (apply Nat.eqb_neq; lia).
    assert (Nat.eqb hy h = false) as -> by (apply Nat.eqb_neq; lia).
    done.
  - intros h. rewrite closes_app, (Hcl h). reflexivity.
  - exists fs. split.
    + rewrite fs_run_app, Hrun.
      rewrite fs_run_cons, (fs_step_write _ _ _ (json_name k)) by by apply Hopen.
      rewrite fs_run_cons, fs_step_json by (rewrite Hk; by apply Hopen).
      rewrite fs_run_cons, fs_step_yaml by (rewrite Hk; by apply Hopen).
      rewrite fs_run_cons, (fs_step_write _ _ _ (yaml_name k)) by by apply Hopen.
      reflexivity.
    + split; [exact Hopen|]. split; [|done].
      intros h Hin%Hused. simpl. rewrite length_app. lia.
Qed.

End PoolInvariant.

Section NeverFailsRun.

Context (py_repr : list (string * string) -> string)
        (mapping : gmap string string) (record_tag : string).

Local Abbreviation key_of := (year_of py_repr mapping).

Lemma pool_inv_initial : pool_inv key_of [] initial.
Proof.
  constructor; simpl; try done.
  - constructor.
  - constructor.
  - intros k. split; [by intros ?%elem_of_nil | done].
  - intros k. split; [by intros ?%elem_of_nil | done].
  - intros k w ?%elem_of_nil. done.
  - intros k h ?%elem_of_nil. done.
  - intros n h ?%elem_of_nil. done.
  - exists fs_init. split; [done|].
    split; [|split; [|split; [|split]]]; simpl.
    + intros h n. split; [by intros ?%elem_of_nil|].
      intros [(k & w & ?%elem_of_nil & _) | (k & ?%elem_of_nil & _)]; done.
    + by intros h ?%elem_of_nil.
    + by intros n ?%elem_of_nil.
    + by intros h n ?%elem_of_nil.
    + constructor.
Qed.

(** Routing a record cannot fail when no operation does, and keeps the
    invariant. *)
Lemma route_step rs st r :
  pool_inv key_of rs st ->
  exists st', route never (key_of r) r st = (st', Ok tt)
              /\ pool_inv key_of (rs ++ [r]) st'.
Proof.
  intros Hinv. destruct st as [jw yf lg].
  pose proof (inv_json_keys _ _ _ Hinv (key_of r)) as Hjk.
  pose proof (inv_yaml_keys _ _ _ Hinv (key_of r)) as Hyk. simpl in Hjk, Hyk.
  destruct (dict_get (key_of r) jw) as [[hj fst_]|] eqn:Ej.
  - pose proof (dict_get_elem_of _ _ _ Ej) as Hin.
    destruct (inv_json _ _ _ Hinv _ _ Hin) as (Hf & _). simpl in Hf. subst fst_.
    assert (key_of r ∈ dict_keys yf) as Hy.
    { apply (proj2 Hyk), (proj1 Hjk). exact (elem_of_dict_keys _ _ _ Hin). }
    apply dict_in_keys in Hy. unfold dict_in in Hy.
    destruct (dict_get (key_of r) yf) as [hy|] eqn:Ey; [|done].
    eexists. split; [by apply route_old|].
    apply (pool_inv_old key_of rs jw yf lg r (key_of r) hj hy); try done.
    by apply dict_get_elem_of.
  - pose proof Ej as Ej'. apply dict_get_None_keys in Ej'.
    assert (part key_of (key_of r) rs = []) as Hpart.
    { destruct (part key_of (key_of r) rs) eqn:E; [done|].
      exfalso. apply Ej', (proj2 Hjk). done. }
    assert (dict_get (key_of r) yf = None) as Ey.
    { apply dict_get_None_keys. intros Hin. by apply (proj1 Hyk) in Hin. }
    eexists. split; [by apply route_new|].
    rewrite (dict_set_new _ _ jw), dict_set_last, (dict_set_new _ _ yf) by done.
    by apply (pool_inv_new key_of rs jw yf lg r (key_of r)).
Qed.

Lemma records_app elems1 elems2 :
  records mapping record_tag (elems1 ++ elems2) =
  (records mapping record_tag elems1 ++ records mapping record_tag elems2)%list.
Proof. unfold records. by rewrite filter_app, map_app. Qed.

Lemma process_step rs st e :
  pool_inv key_of rs st ->
  exists st', process py_repr never mapping record_tag e st = (st', Ok tt)
              /\ pool_inv key_of (rs ++ records mapping record_tag [e]) st'.
Proof.
  intros Hinv. unfold process. rewrite records_cons.
  destruct (String.eqb (tag e) record_tag); simpl.
  - apply route_step, Hinv.
  - exists st. rewrite app_nil_r. done.
Qed.

(** The loop cannot fail when no operation does, and ends in a state
    that satisfies the invariant for all the records. *)
Lemma main_loop_never rs st elems :
  pool_inv key_of rs st ->
  exists st', main_loop py_repr never mapping record_tag elems st = (st', Ok tt)
              /\ pool_inv key_of (rs ++ records mapping record_tag elems) st'.
Proof.
  unfold main_loop. revert rs st. induction elems as [|e elems IH]; intros rs st Hinv.
  - exists st. simpl. rewrite app_nil_r. done.
  - destruct (process_step _ _ e Hinv) as (st1 & E1 & Hinv1).
    destruct (IH _ _ Hinv1) as (st2 & E2 & Hinv2).
    exists st2. simpl. unfold bind. rewrite E1. split; [exact E2|].
    change (e :: elems) with ([e] ++ elems)%list.
    by rewrite records_app, app_assoc.
Qed.

Lemma close_json_never ws jw yf lg :
  for_each (JsonArrayWriter_close never) ws (mkState jw yf lg)
  = (mkState jw yf (lg ++ close_json_events ws), Ok tt).
Proof.
  revert lg. induction ws as [|w ws IH]; intros lg; simpl.
  - by rewrite app_nil_r.
  - unfold bind, JsonArrayWriter_close, io, never, bind. simpl.
    fold (@bind unit unit). rewrite IH. by rewrite <- !app_assoc.
Qed.

Lemma close_yaml_never hs jw yf lg :
  for_each (fun h => io never (EClose h)) hs (mkState jw yf lg)
  = (mkState jw yf (lg ++ close_yaml_events hs), Ok tt).
Proof.
  revert lg. induction hs as [|h hs IH]; intros lg; simpl.
  - by rewrite app_nil_r.
  - unfold bind, io, never. simpl. rewrite IH. by rewrite <- !app_assoc.
Qed.

Lemma close_all_never jw yf lg :
  close_all never (mkState jw yf lg)
  = (mkState jw yf
       (lg ++ close_json_events (dict_values jw) ++ close_yaml_events (dict_values yf)),
     Ok tt).
Proof.
  unfold close_all, bind, get_state. simpl.
  rewrite close_json_never. simpl. rewrite close_yaml_never.
  by rewrite <- app_assoc.
Qed.

(** The whole run when nothing fails. *)
Lemma main_never elems :
  exists jw yf lg,
    pool_inv key_of (records mapping record_tag elems) (mkState jw yf lg)
    /\ main_loop py_repr never mapping record_tag elems initial
       = (mkState jw yf lg, Ok tt)
    /\ main py_repr never mapping record_tag elems initial
       = (mkState jw yf
            (lg ++ close_json_events (dict_values jw)
                ++ close_yaml_events (dict_values yf)),
          Ok tt).
Proof.
  destruct (main_loop_never [] initial elems pool_inv_initial)
    as ([jw yf lg] & E & Hinv).
  exists jw, yf, lg. split; [exact Hinv|]. split; [exact E|].
  unfold main, bind. rewrite E. apply close_all_never.
Qed.

End NeverFailsRun.

(** ** The shutdown *)

Lemma written_close_yaml h hs : written h (close_yaml_events hs) = [].
Proof. induction hs as [|h' hs IH]; simpl; [done | exact IH]. Qed.

Lemma opened_close_json n ws : opened n (close_json_events ws) = [].
Proof. induction ws as [|w ws IH]; simpl; [done | exact IH]. Qed.

Lemma opened_close_yaml n hs : opened n (close_yaml_events hs) = [].
Proof. induction hs as [|h' hs IH]; simpl; [done | exact IH]. Qed.

Lemma written_close_json_notin h ws :
  h ∉ map f ws -> written h (close_json_events ws) = [].
Proof.
  induction ws as [|w ws IH]; simpl; [done|].
  intros [Hne Hnotin]%not_elem_of_cons.
  assert (Nat.eqb (f w) h = false) as -> by (apply Nat.eqb_neq; congruence).
  by apply IH.
Qed.

Lemma written_close_json_in w ws :
  NoDup (map f ws) -> w ∈ ws ->
  written (f w) (close_json_events ws) = [Text (nl ++ "]" ++ nl)].
Proof.
  induction ws as [|w' ws IH]; simpl; [by intros _ ?%elem_of_nil|].
  intros [Hnotin Hnd]%NoDup_cons [->|Hin]%elem_of_cons.
  - rewrite Nat.eqb_refl. f_equal. by apply written_close_json_notin.
  - assert (Nat.eqb (f w') (f w) = false) as ->.
    { apply Nat.eqb_neq. intros E. apply Hnotin. rewrite E.
      apply list_elem_of_fmap. by exists w. }
    by apply IH.
Qed.

Lemma closes_cons h ev l :
  closes h (ev :: l) = (if is_close_of h ev then 1 else 0) + closes h l.
Proof.
  unfold closes. rewrite filter_cons.
  destruct (is_close_of h ev); by case_decide.
Qed.

Lemma closes_close_json_notin h ws :
  h ∉ map f ws -> closes h (close_json_events ws) = 0.
Proof.
  induction ws as [|w ws IH]; simpl; [done|].
  intros [Hne Hnotin]%not_elem_of_cons. rewrite !closes_cons. simpl.
  assert (Nat.eqb (f w) h = false) as -> by (apply Nat.eqb_neq; congruence).
  by apply IH.
Qed.

Lemma closes_close_json_in h ws :
  NoDup (map f ws) -> h ∈ map f ws -> closes h (close_json_events ws) = 1.
Proof.
  induction ws as [|w ws IH]; simpl; [by intros _ ?%elem_of_nil|].
  intros [Hnotin Hnd]%NoDup_cons [->|Hin]%elem_of_cons; rewrite !closes_cons; simpl.
  - rewrite Nat.eqb_refl. by rewrite closes_close_json_notin.
  - assert (Nat.eqb (f w) h = false) as ->.
    { apply Nat.eqb_neq. intros E. apply Hnotin. by rewrite E. }
    by apply IH.
Qed.

Lemma closes_close_yaml_notin h hs : h ∉ hs -> closes h (close_yaml_events hs) = 0.
Proof.
  induction hs as [|h' hs IH]; simpl; [done|].
  intros [Hne Hnotin]%not_elem_of_cons. rewrite closes_cons. simpl.
  assert (Nat.eqb h' h = false) as -> by (apply Nat.eqb_neq; congruence).
  by apply IH.
Qed.

Lemma closes_close_yaml_in h hs :
  NoDup hs -> h ∈ hs -> closes h (close_yaml_events hs) = 1.
Proof.
  induction hs as [|h' hs IH]; simpl; [by intros _ ?%elem_of_nil|].
  intros [Hnotin Hnd]%NoDup_cons [->|Hin]%elem_of_cons; rewrite closes_cons; simpl.
  - rewrite Nat.eqb_refl. by rewrite closes_close_yaml_notin.
  - assert (Nat.eqb h' h = false) as ->.
    { apply Nat.eqb_neq. intros E. apply Hnotin. by rewrite E. }
    by apply IH.
Qed.

Lemma close_json_events_cons w ws :
  close_json_events (w :: ws)
  = EWrite (f w) (nl ++ "]" ++ nl) :: EClose (f w) :: close_json_events ws.
Proof. reflexivity. Qed.

Lemma close_yaml_events_cons h hs :
  close_yaml_events (h :: hs) = EClose h :: close_yaml_events hs.
Proof. reflexivity. Qed.

Lemma fs_run_close_json key_of ws fs :
  NoDup (map f ws) ->
  (forall w, w ∈ ws -> f w ∈ map fst (fs_open fs)) ->
  exists fs', fs_run key_of fs (close_json_events ws) = Some fs'
    /\ (forall hn, hn ∈ fs_open fs' <-> hn ∈ fs_open fs /\ fst hn ∉ map f ws).
Proof.
  revert fs. induction ws as [|w ws IH]; intros fs Hnd Hopen.
  - exists fs. split; [done|]. intros hn. split; [|tauto].
    intros H. split; [done|]. by intros ?%elem_of_nil.
  - rewrite map_cons in Hnd. apply NoDup_cons in Hnd as [Hnotin Hnd].
    assert (f w ∈ map fst (fs_open fs)) as Hw by (apply Hopen, elem_of_cons; by left).
    pose proof Hw as ([h n] & Eh & Hin)%list_elem_of_fmap. simpl in Eh. subst h.
    rewrite close_json_events_cons.
    rewrite fs_run_cons, (fs_step_write _ _ _ n) by done.
    rewrite fs_run_cons, (fs_step_close _ _ _ n) by done.
    edestruct (IH (mkFs (filter (fun hn => fst hn <> f w) (fs_open fs))
                     (fs_used fs) (fs_names fs))) as (fs' & Hrun & Hiff); [done| |].
    + intros w' Hw'. simpl.
      assert (f w' ∈ map fst (fs_open fs)) as ([h' n'] & Eh' & Hin')%list_elem_of_fmap
        by (apply Hopen, elem_of_cons; by right).
      simpl in Eh'. subst h'. apply list_elem_of_fmap. exists (f w', n').
      split; [done|]. apply list_elem_of_filter. split; [|done]. simpl.
      intros E. apply Hnotin. rewrite <- E. apply list_elem_of_fmap. by exists w'.
    + exists fs'. split; [exact Hrun|]. intros hn. rewrite Hiff. cbn [fs_open].
      rewrite list_elem_of_filter, map_cons, not_elem_of_cons. tauto.
Qed.

Lemma fs_run_close_yaml key_of hs fs :
  NoDup hs ->
  (forall h, h ∈ hs -> h ∈ map fst (fs_open fs)) ->
  exists fs', fs_run key_of fs (close_yaml_events hs) = Some fs'
    /\ (forall hn, hn ∈ fs_open fs' <-> hn ∈ fs_open fs /\ fst hn ∉ hs).
Proof.
  revert fs. induction hs as [|h hs IH]; intros fs Hnd Hopen.
  - exists fs. split; [done|]. intros hn. split; [|tauto].
    intros H. split; [done|]. by intros ?%elem_of_nil.
  - apply NoDup_cons in Hnd as [Hnotin Hnd].
    assert (h ∈ map fst (fs_open fs)) as Hw by (apply Hopen, elem_of_cons; by left).
    pose proof Hw as ([h0 n] & Eh & Hin)%list_elem_of_fmap. simpl in Eh. subst h0.
    rewrite close_yaml_events_cons.
    rewrite fs_run_cons, (fs_step_close _ _ _ n) by done.
    edestruct (IH (mkFs (filter (fun hn => fst hn <> h) (fs_open fs))
                     (fs_used fs) (fs_names fs))) as (fs' & Hrun & Hiff); [done| |].
    + intros h' Hh'. simpl.
      assert (h' ∈ map fst (fs_open fs)) as ([h0 n'] & Eh' & Hin')%list_elem_of_fmap
        by (apply Hopen, elem_of_cons; by right).
      simpl in Eh'. subst h0. apply list_elem_of_fmap. exists (h', n').
      split; [done|]. apply list_elem_of_filter. split; [|done]. simpl.
      intros E. apply Hnotin. by rewrite <- E.
    + exists fs'. split; [exact Hrun|]. intros hn. rewrite Hiff. cbn [fs_open].
      rewrite list_elem_of_filter, not_elem_of_cons. tauto.
Qed.

(** ** Reading the files back *)

Lemma json_elements_sep r c :
  json_elements (Text ("," ++ nl) :: JsonDoc r :: c) = cons r <$> json_elements c.
Proof. reflexivity. Qed.

Lemma json_elements_body rs :
  json_elements
    (flat_map (fun r' => [Text ("," ++ nl); JsonDoc r']) rs ++ [Text (nl ++ "]" ++ nl)])
  = Some rs.
Proof.
  induction rs as [|r rs IH]; [reflexivity|].
  change (json_elements (Text ("," ++ nl) :: JsonDoc r ::
            (flat_map (fun r' => [Text ("," ++ nl); JsonDoc r']) rs
             ++ [Text (nl ++ "]" ++ nl)])) = Some (r :: rs)).
  by rewrite json_elements_sep, IH.
Qed.

Lemma json_load_first r c :
  json_load (Text ("[" ++ nl) :: JsonDoc r :: c) = cons r <$> json_elements c.
Proof. reflexivity. Qed.

(** A closed JSON file is an array of the records written to it. *)
Lemma json_load_closed rs : json_load (json_closed rs) = Some rs.
Proof.
  destruct rs as [|r rs]; [reflexivity|].
  change (json_load (Text ("[" ++ nl) :: JsonDoc r ::
            (flat_map (fun r' => [Text ("," ++ nl); JsonDoc r']) rs
             ++ [Text (nl ++ "]" ++ nl)])) = Some (r :: rs)).
  by rewrite json_load_first, json_elements_body.
Qed.

Lemma yaml_documents_nl pos c :
  yaml_documents pos (Text nl :: c) = yaml_documents pos c.
Proof. reflexivity. Qed.

Lemma yaml_chunks_cons r rs :
  yaml_chunks (r :: rs) = YamlDoc r :: Text nl :: yaml_chunks rs.
Proof. reflexivity. Qed.

Lemma yaml_documents_block_cons kv (r : record) c :
  yaml_documents InBlock (YamlDoc (kv :: r) :: c) = yaml_documents InBlock c.
Proof. reflexivity. Qed.

Lemma yaml_documents_start_cons kv (r : record) c :
  yaml_documents AtStart (YamlDoc (kv :: r) :: c) = S <$> yaml_documents InBlock c.
Proof. reflexivity. Qed.

Lemma yaml_documents_start_empty c :
  yaml_documents AtStart (YamlDoc [] :: c) = S <$> yaml_documents AfterFlow c.
Proof. reflexivity. Qed.

Lemma yaml_documents_in_block rs :
  Forall (fun r : record => r <> []) rs ->
  yaml_documents InBlock (yaml_chunks rs) = Some 0.
Proof.
  induction 1 as [|r rs Hr _ IH]; [reflexivity|].
  rewrite yaml_chunks_cons. destruct r as [|kv r]; [done|].
  by rewrite yaml_documents_block_cons, yaml_documents_nl.
Qed.

(** A YAML file written by [yaml_write] holds no document marker: when
    its records have fields it is one document, however many records
    went into it. *)
Lemma yaml_documents_chunks rs :
  Forall (fun r : record => r <> []) rs ->
  yaml_documents AtStart (yaml_chunks rs) = Some (if rs is [] then 0 else 1).
Proof.
  destruct 1 as [|r rs Hr Hrs]; [reflexivity|].
  rewrite yaml_chunks_cons. destruct r as [|kv r]; [done|].
  by rewrite yaml_documents_start_cons, yaml_documents_nl, yaml_documents_in_block.
Qed.

Lemma yaml_documents_single r :
  yaml_documents AtStart (yaml_chunks [r]) = Some 1.
Proof. by destruct r. Qed.

Lemma yaml_documents_after_flow rs :
  rs <> [] -> yaml_documents AfterFlow (yaml_chunks rs) = None.
Proof. destruct rs as [|[|kv r] rs]; done. Qed.

Lemma yaml_documents_block_empty rs :
  Exists (fun r : record => r = []) rs ->
  yaml_documents InBlock (yaml_chunks rs) = None.
Proof.
  induction rs as [|r rs IH]; [by intros ?%Exists_nil|].
  intros H. rewrite yaml_chunks_cons. destruct r as [|kv r]; [done|].
  rewrite yaml_documents_block_cons, yaml_documents_nl. apply IH.
  by apply Exists_cons in H as [?|?].
Qed.

(** A file of several records one of which has no field is not read. *)
Lemma yaml_documents_empty_record rs :
  1 < length rs -> Exists (fun r : record => r = []) rs ->
  yaml_documents AtStart (yaml_chunks rs) = None.
Proof.
  destruct rs as [|r rs]; cbn [length]; [lia|]. intros Hlen H.
  rewrite yaml_chunks_cons. destruct r as [|kv r].
  - rewrite yaml_documents_start_empty, yaml_documents_nl, yaml_documents_after_flow;
      [done|]. destruct rs; [simpl in Hlen; lia | done].
  - rewrite yaml_documents_start_cons, yaml_documents_nl, yaml_documents_block_empty;
      [done|]. by apply Exists_cons in H as [?|?].
Qed.

(** ** The state at the end of a run in which nothing fails *)

Lemma elem_of_opened h n l : EOpen h n ∈ l <-> h ∈ opened n l.
Proof.
  unfold opened. rewrite list_elem_of_omap. split.
  - intros Hin. exists (EOpen h n). split; [done|]. simpl. by rewrite String.eqb_refl.
  - intros (ev & Hin & Hev). destruct ev; simpl in Hev; try done.
    destruct (String.eqb_spec name n) as [->|]; [|done]. by injection Hev as ->.
Qed.

Lemma file_content_single n h l :
  opened n l = [h] -> file_content n l = written h l.
Proof. unfold file_content. by intros ->. Qed.

Section FinalState.

Context (key_of : record -> string) (rs : list record)
        (jw : list (string * JsonArrayWriter)) (yf : list (string * handle))
        (lg : list io_event).

Hypothesis Hinv : pool_inv key_of rs (mkState jw yf lg).

Local Abbreviation final :=
  (lg ++ close_json_events (dict_values jw) ++ close_yaml_events (dict_values yf))%list.

Lemma pool_json_handles_NoDup : NoDup (map f (dict_values jw)).
Proof.
  destruct (inv_fs _ _ _ Hinv) as (fs & _ & Hag).
  unfold dict_values. rewrite <- list_fmap_compose.
  apply NoDup_fmap_2_strong; [|exact (NoDup_fmap_1 _ _ (inv_keys_json _ _ _ Hinv))].
  intros [k w] [k' w'] Hin Hin' E. simpl in E.
  assert (json_name k = json_name k') as ->%json_name_inj.
  { apply (registered_inj _ _ (f w) _ _ Hag); [left; by exists k, w|].
    left. exists k', w'. by rewrite E. }
  f_equal. exact (NoDup_fst_inj _ _ _ _ (inv_keys_json _ _ _ Hinv) Hin Hin').
Qed.

Lemma pool_yaml_handles_NoDup : NoDup (dict_values yf).
Proof.
  destruct (inv_fs _ _ _ Hinv) as (fs & _ & Hag).
  unfold dict_values.
  apply NoDup_fmap_2_strong; [|exact (NoDup_fmap_1 _ _ (inv_keys_yaml _ _ _ Hinv))].
  intros [k h] [k' h'] Hin Hin' E. simpl in E. subst h'.
  assert (yaml_name k = yaml_name k') as ->%yaml_name_inj.
  { apply (registered_inj _ _ h _ _ Hag); right; [by exists k | by exists k']. }
  done.
Qed.

Lemma pool_handles_disjoint k w k' h :
  (k, w) ∈ jw -> (k', h) ∈ yf -> f w <> h.
Proof.
  destruct (inv_fs _ _ _ Hinv) as (fs & _ & Hag).
  intros Hin Hin' E. apply (json_yaml_ne k k').
  apply (registered_inj _ _ (f w) _ _ Hag); [left; by exists k, w|].
  right. exists k'. by rewrite E.
Qed.

Lemma elem_of_json_handles h :
  h ∈ map f (dict_values jw) <-> exists k w, (k, w) ∈ jw /\ h = f w.
Proof.
  unfold dict_values. rewrite <- list_fmap_compose, list_elem_of_fmap. split.
  - intros ([k w] & -> & Hin). by exists k, w.
  - intros (k & w & Hin & ->). by exists (k, w).
Qed.

Lemma elem_of_yaml_handles h :
  h ∈ dict_values yf <-> exists k, (k, h) ∈ yf.
Proof.
  unfold dict_values. rewrite list_elem_of_fmap. split.
  - intros ([k h'] & -> & Hin). by exists k.
  - intros (k & Hin). by exists (k, h).
Qed.

Lemma final_opened n : opened n final = opened n lg.
Proof.
  unfold final. by rewrite !opened_app, opened_close_json, opened_close_yaml, !app_nil_r.
Qed.

Lemma final_json k w :
  (k, w) ∈ jw ->
  opened (json_name k) final = [f w]
  /\ written (f w) final = json_closed (part key_of k rs).
Proof.
  intros Hin. destruct (inv_json _ _ _ Hinv k w Hin) as (_ & Ho & Hw).
  simpl in Ho, Hw. rewrite final_opened. split; [done|].
  unfold final. rewrite !written_app, Hw, written_close_yaml, app_nil_r.
  rewrite (written_close_json_in w); [done|apply pool_json_handles_NoDup|].
  apply list_elem_of_fmap. by exists (k, w).
Qed.

Lemma final_yaml k h :
  (k, h) ∈ yf ->
  opened (yaml_name k) final = [h]
  /\ written h final = yaml_chunks (part key_of k rs).
Proof.
  intros Hin. destruct (inv_yaml _ _ _ Hinv k h Hin) as (Ho & Hw).
  simpl in Ho, Hw. rewrite final_opened. split; [done|].
  unfold final. rewrite !written_app, Hw, written_close_yaml, app_nil_r.
  rewrite written_close_json_notin; [by rewrite app_nil_r|].
  intros (k' & w & Hin' & E)%elem_of_json_handles.
  by apply (pool_handles_disjoint _ _ _ _ Hin' Hin).
Qed.

Lemma final_closes_registered h n :
  registered (mkState jw yf lg) h n -> closes h final = 1.
Proof.
  pose proof (inv_closes _ _ _ Hinv h) as Hcl. simpl in Hcl.
  unfold final. rewrite !closes_app, Hcl.
  intros [(k & w & Hin & -> & _) | (k & Hin & _)]; simpl in Hin.
  - rewrite closes_close_json_in;
      [|apply pool_json_handles_NoDup | apply elem_of_json_handles; by exists k, w].
    rewrite closes_close_yaml_notin; [done|].
    intros (k' & Hin')%elem_of_yaml_handles.
    by apply (pool_handles_disjoint _ _ _ _ Hin Hin').
  - rewrite closes_close_json_notin; cycle 1.
    { intros (k' & w & Hin' & E)%elem_of_json_handles.
      by apply (pool_handles_disjoint _ _ _ _ Hin' Hin). }
    rewrite closes_close_yaml_in;
      [done | apply pool_yaml_handles_NoDup | apply elem_of_yaml_handles; by exists k].
Qed.

Lemma final_closes_le h : closes h final <= 1.
Proof.
  pose proof (inv_closes _ _ _ Hinv h) as Hcl. simpl in Hcl.
  destruct (decide (h ∈ map f (dict_values jw))) as [Hj|Hj].
  - apply elem_of_json_handles in Hj as (k & w & Hin & ->).
    rewrite (final_closes_registered (f w) (json_name k)); [done|].
    left. by exists k, w.
  - destruct (decide (h ∈ dict_values yf)) as [Hy|Hy].
    + apply elem_of_yaml_handles in Hy as (k & Hin).
      rewrite (final_closes_registered h (yaml_name k)); [done|]. right. by exists k.
    + unfold final.
      rewrite !closes_app, Hcl, closes_close_json_notin, closes_close_yaml_notin by done.
      lia.
Qed.

Lemma final_opened_registered h n :
  EOpen h n ∈ final -> registered (mkState jw yf lg) h n.
Proof.
  rewrite elem_of_opened, final_opened. apply (inv_opened _ _ _ Hinv).
Qed.

Lemma final_opened_le n : length (opened n final) <= 1.
Proof.
  rewrite final_opened.
  destruct (opened n lg) as [|h l] eqn:E; [simpl; lia|].
  assert (h ∈ opened n lg) as Hin by (rewrite E; apply elem_of_cons; by left).
  apply (inv_opened _ _ _ Hinv) in Hin as [(k & w & Hin & _ & ->) | (k & Hin & ->)];
    simpl in Hin.
  - destruct (inv_json _ _ _ Hinv k w Hin) as (_ & Ho & _). simpl in Ho.
    rewrite Ho in E. by injection E as <- <-.
  - destruct (inv_yaml _ _ _ Hinv k h Hin) as (Ho & _). simpl in Ho.
    rewrite Ho in E. by injection E as <-.
Qed.

(** Every file that was opened has been closed, and the whole log
    respects the discipline of the pool. *)
Lemma final_fs :
  exists fs, fs_run key_of fs_init final = Some fs /\ fs_open fs = [].
Proof.
  destruct (inv_fs _ _ _ Hinv) as (fs & Hrun & Hag). simpl in Hrun.
  destruct Hag as (Hopen & _).
  destruct (fs_run_close_json key_of (dict_values jw) fs pool_json_handles_NoDup)
    as (fs1 & Hrun1 & Hiff1).
  { intros w ([k w'] & -> & Hin)%list_elem_of_fmap. simpl.
    apply list_elem_of_fmap. exists (f w', json_name k). split; [done|].
    apply Hopen. left. by exists k, w'. }
  destruct (fs_run_close_yaml key_of (dict_values yf) fs1 pool_yaml_handles_NoDup)
    as (fs2 & Hrun2 & Hiff2).
  { intros h (k & Hin)%elem_of_yaml_handles.
    apply list_elem_of_fmap. exists (h, yaml_name k). split; [done|].
    apply Hiff1. split; [apply Hopen; right; by exists k|]. simpl.
    intros (k' & w & Hin' & E)%elem_of_json_handles.
    by apply (pool_handles_disjoint _ _ _ _ Hin' Hin). }
  exists fs2. split.
  - unfold final. by rewrite fs_run_app, Hrun, fs_run_app, Hrun1.
  - destruct (fs_open fs2) as [|[h n] l] eqn:E; [done|]. exfalso.
    assert ((h, n) ∈ (h, n) :: l) as Hin by (apply elem_of_cons; by left).
    apply Hiff2 in Hin as [Hin Hy]. apply Hiff1 in Hin as [Hin Hj].
    apply Hopen in Hin as [(k & w & Hin & -> & _) | (k & Hin & _)]; simpl in *.
    + apply Hj, elem_of_json_handles. by exists k, w.
    + apply Hy, elem_of_yaml_handles. by exists k.
Qed.

End FinalState.

(** ** Runs in any environment *)

Lemma for_each_app {X} (body : X -> M unit) l1 l2 st :
  for_each body (l1 ++ l2) st =
  match for_each body l1 st with
  | (s1, Ok _) => for_each body l2 s1
  | (s1, Raise x) => (s1, Raise x)
  end.
Proof.
  revert st. induction l1 as [|x l1 IH]; intros st; simpl; [done|].
  unfold bind. destruct (body x st) as [s [[]|e]]; [apply IH | done].
Qed.

Lemma opened_prefix n l1 l2 :
  l1 `prefix_of` l2 -> length (opened n l1) <= length (opened n l2).
Proof. intros [l3 ->]. rewrite opened_app, length_app. lia. Qed.

Lemma closes_prefix h l1 l2 : l1 `prefix_of` l2 -> closes h l1 <= closes h l2.
Proof. intros [l3 ->]. rewrite closes_app. lia. Qed.

Lemma closes_zero h l : (forall h', EClose h' ∉ l) -> closes h l = 0.
Proof.
  intros Hno. induction l as [|ev l IH]; [done|]. rewrite closes_cons.
  rewrite IH; cycle 1.
  { intros h' Hin. apply (Hno h'). apply elem_of_cons. by right. }
  destruct ev; simpl; try done.
  exfalso. apply (Hno h0). apply elem_of_cons. by left.
Qed.

Lemma loop_event_no_close key_of rs evs h :
  Forall (loop_event key_of rs) evs -> EClose h ∉ evs.
Proof.
  intros Hall Hin. rewrite Forall_forall in Hall. exact (Hall _ Hin).
Qed.

Lemma loop_event_open key_of rs evs h n :
  Forall (loop_event key_of rs) evs -> EOpen h n ∈ evs ->
  exists r, r ∈ rs /\ (n = json_name (key_of r) \/ n = yaml_name (key_of r)).
Proof.
  intros Hall Hin. rewrite Forall_forall in Hall. exact (Hall _ Hin).
Qed.

Section AnyRun.

Context (py_repr : list (string * string) -> string)
        (faulty : list io_event -> io_event -> bool)
        (mapping : gmap string string) (record_tag : string).

Local Abbreviation key_of := (year_of py_repr mapping).

(** A loop that returns has done what the loop does when nothing
    fails. *)
Lemma main_loop_ok elems st :
  main_loop py_repr faulty mapping record_tag elems initial = (st, Ok tt) ->
  pool_inv key_of (records mapping record_tag elems) st.
Proof.
  intros E. pose proof (follows_main_loop py_repr faulty mapping record_tag elems initial)
    as H. rewrite E in H.
  destruct (main_loop_never py_repr mapping record_tag [] initial elems
              (pool_inv_initial py_repr mapping)) as (st' & E' & Hinv).
  rewrite H in E'. by injection E' as <-.
Qed.

(** The log of a run is the beginning of, and for a run that returns it
    is, the log of the run in which nothing fails. *)
Lemma main_any elems st res :
  main py_repr faulty mapping record_tag elems initial = (st, res) ->
  exists jw yf lg,
    pool_inv key_of (records mapping record_tag elems) (mkState jw yf lg)
    /\ log st `prefix_of`
         (lg ++ close_json_events (dict_values jw)
             ++ close_yaml_events (dict_values yf))%list
    /\ (res = Ok tt ->
        log st = (lg ++ close_json_events (dict_values jw)
                     ++ close_yaml_events (dict_values yf))%list).
Proof.
  intros E.
  destruct (main_never py_repr mapping record_tag elems)
    as (jw & yf & lg & Hinv & _ & Enever).
  exists jw, yf, lg. split; [exact Hinv|].
  pose proof (follows_main py_repr faulty mapping record_tag elems initial) as H.
  rewrite E in H. destruct res as [[]|x].
  - rewrite Enever in H. injection H as <-. simpl. split; [done|]. done.
  - destruct H as (sB & rB & EB & Hpre). rewrite Enever in EB.
    injection EB as <- <-. split; [exact Hpre | done].
Qed.

End AnyRun.

(** ** The orchestrator and the writer pool *)

Lemma elem_of_part key_of k rs r : r ∈ part key_of k rs <-> r ∈ rs /\ key_of r = k.
Proof.
  unfold part. rewrite list_elem_of_filter, String.eqb_eq. tauto.
Qed.

Lemma part_not_nil key_of rs r : r ∈ rs -> part key_of (key_of r) rs <> [].
Proof.
  intros Hin E. assert (r ∈ part key_of (key_of r) rs) as H by by apply elem_of_part.
  rewrite E in H. by apply elem_of_nil in H.
Qed.

Lemma registered_key key_of rs st k :
  pool_inv key_of rs st -> part key_of k rs <> [] ->
  exists w h, (k, w) ∈ json_writers st /\ (k, h) ∈ yaml_files st.
Proof.
  intros Hinv Hpart.
  pose proof (proj2 (inv_json_keys _ _ _ Hinv k) Hpart) as Hj.
  pose proof (proj2 (inv_yaml_keys _ _ _ Hinv k) Hpart) as Hy.
  apply list_elem_of_fmap in Hj as ([k1 w] & E1 & Hj).
  apply list_elem_of_fmap in Hy as ([k2 h] & E2 & Hy). simpl in *. subst.
  by exists w, h.
Qed.

Lemma json_doc_in_closed r rs : r ∈ rs -> JsonDoc r ∈ json_closed rs.
Proof.
  intros Hin. unfold json_closed, json_started, json_body.
  apply elem_of_cons. right. apply elem_of_app. left.
  destruct rs as [|r0 rs]; [by apply elem_of_nil in Hin|].
  apply elem_of_cons in Hin as [->|Hin]; [apply elem_of_cons; by left|].
  apply elem_of_cons. right. apply list_elem_of_In, in_flat_map.
  exists r. split; [by apply list_elem_of_In|]. right. by left.
Qed.

Lemma yaml_doc_in_chunks r rs : r ∈ rs -> YamlDoc r ∈ yaml_chunks rs.
Proof.
  intros Hin. unfold yaml_chunks. apply list_elem_of_In, in_flat_map.
  exists r. split; [by apply list_elem_of_In|]. by left.
Qed.

(** C2, the counterexample: the first record cannot be written, the
    exception leaves [main], the second record is never read and nothing
    is closed. *)
Lemma failure_aborts_run :
  ~ (exists py_repr, run_survives py_repr unknown_unwritable ∅ "person" [bob; ann])
  /\ (forall py_repr,
        main py_repr unknown_unwritable ∅ "person" [bob; ann] initial
        = (initial, Raise (OSError (EOpen 0 "people_unknown.json")))).
Proof.
  assert (forall py_repr,
            main py_repr unknown_unwritable ∅ "person" [bob; ann] initial
            = (initial, Raise (OSError (EOpen 0 "people_unknown.json")))) as H
    by (intros py_repr; vm_compute; reflexivity).
  split; [|exact H].
  intros (py_repr & st & E). rewrite H in E. discriminate.
Qed.

(** C2, as amended.  A failure while a record is routed is not caught:
    it leaves [main] at once, with the state as the failure left it, the
    rest of the input unread and no file closed.  When nothing fails the
    whole input is read, every record is in the two files of its key and
    every file that was opened is closed exactly once. *)
Theorem failure_propagates :
  forall (py_repr : list (string * string) -> string)
         (faulty : list io_event -> io_event -> bool)
         (mapping : gmap string string) (record_tag : string),
    (forall pre e post st1 st2 x,
        main_loop py_repr faulty mapping record_tag pre initial = (st1, Ok tt) ->
        process py_repr faulty mapping record_tag e st1 = (st2, Raise x) ->
        main py_repr faulty mapping record_tag (pre ++ e :: post) initial
        = (st2, Raise x)
        /\ (forall h, EClose h ∉ log st2))
    /\ (forall elems, exists st,
          main py_repr never mapping record_tag elems initial = (st, Ok tt)
          /\ (forall h n, EOpen h n ∈ log st -> closes h (log st) = 1)
          /\ (forall r, r ∈ records mapping record_tag elems ->
                JsonDoc r ∈ file_content (json_name (year_of py_repr mapping r)) (log st)
                /\ YamlDoc r
                   ∈ file_content (yaml_name (year_of py_repr mapping r)) (log st))).
Proof.
  intros py_repr faulty mapping record_tag. split.
  - intros pre e post st1 st2 x E1 E2.
    assert (main_loop py_repr faulty mapping record_tag (pre ++ e :: post) initial
            = (st2, Raise x)) as Eloop.
    { unfold main_loop in *. rewrite for_each_app, E1. simpl. unfold bind.
      by rewrite E2. }
    split; [unfold main, bind; by rewrite Eloop|].
    destruct (appends_main_loop py_repr faulty mapping record_tag _ _ _ _ Eloop)
      as (evs & L & Hall). simpl in L. rewrite L. intros h.
    exact (loop_event_no_close _ _ _ h Hall).
  - intros elems.
    destruct (main_never py_repr mapping record_tag elems)
      as (jw & yf & lg & Hinv & _ & E).
    eexists. split; [exact E|]. simpl. split.
    + intros h n Hin. apply (final_closes_registered _ _ _ _ _ Hinv h n).
      by apply (final_opened_registered _ _ _ _ _ Hinv).
    + intros r Hr.
      destruct (registered_key _ _ _ _ Hinv (part_not_nil _ _ _ Hr))
        as (w & h & Hj & Hy). simpl in Hj, Hy.
      destruct (final_json _ _ _ _ _ Hinv _ _ Hj) as [Ho Hw].
      destruct (final_yaml _ _ _ _ _ Hinv _ _ Hy) as [Ho' Hw'].
      rewrite (file_content_single _ _ _ Ho), (file_content_single _ _ _ Ho'), Hw, Hw'.
      split; [apply json_doc_in_closed | apply yaml_doc_in_chunks];
        by apply elem_of_part.
Qed.

(** The JSON file of a key, after a run that returns, is an array of
    the records routed to the key, in their order. *)
Theorem json_output_is_array :
  forall (py_repr : list (string * string) -> string)
         (faulty : list io_event -> io_event -> bool)
         (mapping : gmap string string) (record_tag : string)
         (elems : list Element) (st : state) (key : string),
    main py_repr faulty mapping record_tag elems initial = (st, Ok tt) ->
    routed py_repr mapping record_tag key elems <> [] ->
    file_content (json_name key) (log st)
    = json_closed (routed py_repr mapping record_tag key elems)
    /\ json_load (file_content (json_name key) (log st))
       = Some (routed py_repr mapping record_tag key elems).
Proof.
  intros py_repr faulty mapping record_tag elems st key E Hne.
  destruct (main_any _ _ _ _ _ _ _ E) as (jw & yf & lg & Hinv & _ & Hlog).
  rewrite (Hlog eq_refl).
  destruct (registered_key _ _ _ key Hinv Hne) as (w & h & Hj & _). simpl in Hj.
  destruct (final_json _ _ _ _ _ Hinv _ _ Hj) as [Ho Hw].
  rewrite (file_content_single _ _ _ Ho), Hw. split; [done|].
  apply json_load_closed.
Qed.

(** The YAML file of a key, after a run that returns, holds the records
    routed to the key one after the other with no document marker
    between them.  When every one of these records has a field, or
    there is one record only, the file is read as one document; when
    there are several and one of them has no field, it is not read at
    all. *)
Theorem yaml_output_is_one_document :
  forall (py_repr : list (string * string) -> string)
         (faulty : list io_event -> io_event -> bool)
         (mapping : gmap string string) (record_tag : string)
         (elems : list Element) (st : state) (key : string),
    main py_repr faulty mapping record_tag elems initial = (st, Ok tt) ->
    routed py_repr mapping record_tag key elems <> [] ->
    file_content (yaml_name key) (log st)
    = yaml_chunks (routed py_repr mapping record_tag key elems)
    /\ (Forall (fun r : record => r <> []) (routed py_repr mapping record_tag key elems) ->
        yaml_documents AtStart (file_content (yaml_name key) (log st)) = Some 1)
    /\ (length (routed py_repr mapping record_tag key elems) = 1 ->
        yaml_documents AtStart (file_content (yaml_name key) (log st)) = Some 1)
    /\ (1 < length (routed py_repr mapping record_tag key elems) ->
        Exists (fun r : record => r = []) (routed py_repr mapping record_tag key elems) ->
        yaml_documents AtStart (file_content (yaml_name key) (log st)) = None).
Proof.
  intros py_repr faulty mapping record_tag elems st key E Hne.
  destruct (main_any _ _ _ _ _ _ _ E) as (jw & yf & lg & Hinv & _ & Hlog).
  rewrite (Hlog eq_refl).
  destruct (registered_key _ _ _ key Hinv Hne) as (w & h & _ & Hy). simpl in Hy.
  destruct (final_yaml _ _ _ _ _ Hinv _ _ Hy) as [Ho Hw].
  rewrite (file_content_single _ _ _ Ho), Hw.
  change (part (year_of py_repr mapping) key (records mapping record_tag elems))
    with (routed py_repr mapping record_tag key elems).
  split; [done|]. split; [|split].
  - intros Hall. rewrite (yaml_documents_chunks _ Hall).
    by destruct (routed _ _ _ _ _).
  - destruct (routed _ _ _ _ _) as [|r [|r' rs]]; try discriminate.
    intros _. apply yaml_documents_single.
  - apply yaml_documents_empty_record.
Qed.

Lemma json_doc_in_started r rs : r ∈ rs -> JsonDoc r ∈ json_started rs.
Proof.
  intros Hin. unfold json_started, json_body. apply elem_of_cons. right.
  destruct rs as [|r0 rs]; [by apply elem_of_nil in Hin|].
  apply elem_of_cons in Hin as [->|Hin]; [apply elem_of_cons; by left|].
  apply elem_of_cons. right. apply list_elem_of_In, in_flat_map.
  exists r. split; [by apply list_elem_of_In|]. right. by left.
Qed.

Lemma registered_record key_of rs st h n :
  pool_inv key_of rs st -> registered st h n ->
  exists r, r ∈ rs /\ (n = json_name (key_of r) \/ n = yaml_name (key_of r)).
Proof.
  intros Hinv Hreg.
  assert (exists k, part key_of k rs <> [] /\ (n = json_name k \/ n = yaml_name k))
    as (k & Hpart & Hn).
  { destruct Hreg as [(k & w & Hin & _ & ->) | (k & Hin & ->)]; exists k.
    - split; [|by left]. apply (inv_json_keys _ _ _ Hinv k).
      by apply elem_of_dict_keys in Hin.
    - split; [|by right]. apply (inv_yaml_keys _ _ _ Hinv k).
      by apply elem_of_dict_keys in Hin. }
  destruct (part key_of k rs) as [|r l] eqn:E; [done|].
  assert (r ∈ part key_of k rs) as [Hr <-]%elem_of_part
    by (rewrite E; apply elem_of_cons; by left).
  by exists r.
Qed.

Example file_names :
  json_name "1990" = "people_1990.json" /\ yaml_name "1990" = "people_1990.yaml".
Proof. split; vm_compute; reflexivity. Qed.

(** The scenario of three records dated 1990-01-01, not-a-date and
    1990-12-31: two array entries in [people_1990.json], one in
    [people_unknown.json], every file closed. *)
Example three_records :
  forall py_repr : list (string * string) -> string,
    snd (main py_repr never ∅ "person" [ann; bob; cy] initial) = Ok tt
    /\ json_load (file_content "people_1990.json"
                    (log (fst (main py_repr never ∅ "person" [ann; bob; cy] initial))))
       = Some [person_elem_to_dict ann ∅; person_elem_to_dict cy ∅]
    /\ json_load (file_content "people_unknown.json"
                    (log (fst (main py_repr never ∅ "person" [ann; bob; cy] initial))))
       = Some [person_elem_to_dict bob ∅]
    /\ file_content "people_unknown.yaml"
         (log (fst (main py_repr never ∅ "person" [ann; bob; cy] initial)))
       = [YamlDoc (person_elem_to_dict bob ∅); Text nl].
Proof. intros py_repr. vm_compute. repeat split; reflexivity. Qed.

(** C3 at two records of one year: the JSON file is an array of the two
    records; the YAML file holds the two mappings one after the other
    and no document marker, so that it is read as one document. *)
Theorem two_records_one_yaml_document :
  forall py_repr : list (string * string) -> string,
    snd (main py_repr never ∅ "person" [ann; cy] initial) = Ok tt
    /\ routed py_repr ∅ "person" "1990" [ann; cy]
       = [person_elem_to_dict ann ∅; person_elem_to_dict cy ∅]
    /\ json_load (file_content "people_1990.json"
                    (log (fst (main py_repr never ∅ "person" [ann; cy] initial))))
       = Some [person_elem_to_dict ann ∅; person_elem_to_dict cy ∅]
    /\ file_content "people_1990.yaml"
         (log (fst (main py_repr never ∅ "person" [ann; cy] initial)))
       = [YamlDoc (person_elem_to_dict ann ∅); Text nl;
          YamlDoc (person_elem_to_dict cy ∅); Text nl]
    /\ yaml_documents AtStart
         (file_content "people_1990.yaml"
            (log (fst (main py_repr never ∅ "person" [ann; cy] initial))))
       = Some 1.
Proof. intros py_repr. vm_compute. repeat split; reflexivity. Qed.

Lemma fs_run_dump_opened key_of l :
  forall s s', fs_run key_of s l = Some s' ->
    (forall h r, EJsonDump h r ∈ l ->
       (h, json_name (key_of r)) ∈ fs_open s \/ EOpen h (json_name (key_of r)) ∈ l)
    /\ (forall h r, EYamlDump h r ∈ l ->
          (h, yaml_name (key_of r)) ∈ fs_open s \/ EOpen h (yaml_name (key_of r)) ∈ l).
Proof.
  induction l as [|ev l IH]; intros s s' Hrun.
  { split; intros h r H; by apply elem_of_nil in H. }
  rewrite fs_run_cons in Hrun.
  destruct (fs_step key_of s ev) as [s1|] eqn:Hstep; [|discriminate].
  destruct (IH _ _ Hrun) as [IHj IHy].
  assert (forall hn, hn ∈ fs_open s1 ->
            hn ∈ fs_open s \/ ev = EOpen (fst hn) (snd hn)) as Hopen.
  { intros [h0 n0] Hin. destruct ev as [h' n'|h' t|h' r'|h' r'|h']; simpl in Hstep.
    - destruct (_ || _); [discriminate|]. injection Hstep as <-. simpl in Hin.
      apply elem_of_cons in Hin as [[= -> ->]|Hin]; [by right | by left].
    - destruct (is_open h' s); [|discriminate]. injection Hstep as <-. by left.
    - destruct (bool_decide _); [|discriminate]. injection Hstep as <-. by left.
    - destruct (bool_decide _); [|discriminate]. injection Hstep as <-. by left.
    - destruct (is_open h' s); [|discriminate]. injection Hstep as <-. simpl in Hin.
      apply list_elem_of_filter in Hin as [_ Hin]. by left. }
  split; intros h r [<-|Hin]%elem_of_cons.
  - simpl in Hstep. destruct (bool_decide_reflect
      ((h, json_name (key_of r)) ∈ fs_open s)); [by left | discriminate].
  - destruct (IHj _ _ Hin) as [H|H].
    + destruct (Hopen _ H) as [H'|H']; [by left|]. right. simpl in H'.
      rewrite H'. apply elem_of_cons. by left.
    + right. apply elem_of_cons. by right.
  - simpl in Hstep. destruct (bool_decide_reflect
      ((h, yaml_name (key_of r)) ∈ fs_open s)); [by left | discriminate].
  - destruct (IHy _ _ Hin) as [H|H].
    + destruct (Hopen _ H) as [H'|H']; [by left|]. right. simpl in H'.
      rewrite H'. apply elem_of_cons. by left.
    + right. apply elem_of_cons. by right.
Qed.

Lemma single_opened (h : handle) l : h ∈ l -> length l <= 1 -> l = [h].
Proof.
  destruct l as [|h' [|h'' l]]; simpl.
  - by intros ?%elem_of_nil.
  - by intros ->%list_elem_of_singleton.
  - lia.
Qed.

Lemma no_dump_in_close ws hs ev :
  ev ∈ (close_json_events ws ++ close_yaml_events hs)%list ->
  match ev with EJsonDump _ _ | EYamlDump _ _ => False | _ => True end.
Proof.
  intros [H|H]%elem_of_app.
  - induction ws as [|w ws IH]; simpl in H; [by apply elem_of_nil in H|].
    apply elem_of_cons in H as [->|H]; [done|].
    apply elem_of_cons in H as [->|H]; [done | by apply IH].
  - induction hs as [|h hs IH]; simpl in H; [by apply elem_of_nil in H|].
    apply elem_of_cons in H as [->|H]; [done | by apply IH].
Qed.

(** C4, the counterexample: the disk is full after three operations;
    the run ends in the first record, with the file [people_1990.json]
    open and never closed. *)
Lemma failed_run_leaves_file_open :
  log (fst (main (fun _ => "") (fails_from 3) ∅ "person" [ann; cy] initial))
  = [EOpen 0 "people_1990.json"; EWrite 0 ("[" ++ nl);
     EJsonDump 0 (person_elem_to_dict ann ∅)]
  /\ ~ every_handle_closed_once
        (log (fst (main (fun _ => "") (fails_from 3) ∅ "person" [ann; cy] initial))).
Proof.
  assert (log (fst (main (fun _ => "") (fails_from 3) ∅ "person" [ann; cy] initial))
          = [EOpen 0 "people_1990.json"; EWrite 0 ("[" ++ nl);
             EJsonDump 0 (person_elem_to_dict ann ∅)]) as E
    by (vm_compute; reflexivity).
  split; [exact E|]. rewrite E. intros H.
  specialize (H 0 "people_1990.json" ltac:(apply elem_of_cons; by left)).
  vm_compute in H. discriminate.
Qed.

(** C4, as amended.  In every run, whatever fails: the two files of a
    key are opened only once a record of that key is read, under the
    names [people_<key>.json] and [people_<key>.yaml]; no file name is
    opened twice; the loop closes nothing; a record is serialized only
    into the one handle that was opened on the file of its key; no
    handle is used after it was closed.  After the loop has read a list
    of elements, each of their records is in the one open writer of
    each file of its key.  When the run returns, every handle that was
    opened has been closed exactly once (a run that a failure ends
    leaves its files open); and the run in which nothing fails
    returns. *)
Theorem writer_pool_discipline :
  forall (py_repr : list (string * string) -> string)
         (faulty : list io_event -> io_event -> bool)
         (mapping : gmap string string) (record_tag : string)
         (elems : list Element) (st : state) (res : result unit),
    main py_repr faulty mapping record_tag elems initial = (st, res) ->
    is_Some (fs_run (year_of py_repr mapping) fs_init (log st))
    /\ (forall name, length (opened name (log st)) <= 1)
    /\ (forall h n, EOpen h n ∈ log st ->
          exists r, r ∈ records mapping record_tag elems
            /\ (n = json_name (year_of py_repr mapping r)
                \/ n = yaml_name (year_of py_repr mapping r)))
    /\ (forall h, closes h (log st) <= 1)
    /\ (forall h r, EJsonDump h r ∈ log st ->
          r ∈ records mapping record_tag elems
          /\ opened (json_name (year_of py_repr mapping r)) (log st) = [h])
    /\ (forall h r, EYamlDump h r ∈ log st ->
          r ∈ records mapping record_tag elems
          /\ opened (yaml_name (year_of py_repr mapping r)) (log st) = [h])
    /\ (forall pre st1 res1,
          main_loop py_repr faulty mapping record_tag pre initial = (st1, res1) ->
          (forall h, closes h (log st1) = 0)
          /\ (forall h n, EOpen h n ∈ log st1 ->
                exists r, r ∈ records mapping record_tag pre
                  /\ (n = json_name (year_of py_repr mapping r)
                      \/ n = yaml_name (year_of py_repr mapping r)))
          /\ (res1 = Ok tt ->
              forall r, r ∈ records mapping record_tag pre ->
                exists hj hy,
                  opened (json_name (year_of py_repr mapping r)) (log st1) = [hj]
                  /\ opened (yaml_name (year_of py_repr mapping r)) (log st1) = [hy]
                  /\ JsonDoc r ∈ written hj (log st1)
                  /\ YamlDoc r ∈ written hy (log st1)))
    /\ (res = Ok tt ->
        (forall h n, EOpen h n ∈ log st -> closes h (log st) = 1)
        /\ exists fs, fs_run (year_of py_repr mapping) fs_init (log st) = Some fs
                      /\ fs_open fs = [])
    /\ (exists st', main py_repr never mapping record_tag elems initial = (st', Ok tt)).
Proof.
  intros py_repr faulty mapping record_tag elems st res E.
  destruct (main_any _ _ _ _ _ _ _ E) as (jw & yf & lg & Hinv & Hpre & Hlog).
  set (final := (lg ++ close_json_events (dict_values jw)
                    ++ close_yaml_events (dict_values yf))%list) in *.
  destruct (final_fs _ _ _ _ _ Hinv) as (fsE & HrunE & HopenE). fold final in HrunE.
  assert (is_Some (fs_run (year_of py_repr mapping) fs_init (log st))) as Hfs.
  { apply (fs_run_prefix _ _ final Hpre). by exists fsE. }
  assert (forall name, length (opened name (log st)) <= 1) as Honce.
  { intros name. etrans; [apply (opened_prefix _ _ _ Hpre)|].
    apply (final_opened_le _ _ _ _ _ Hinv). }
  destruct (main_never py_repr mapping record_tag elems)
    as (jw' & yf' & lg' & _ & Eloop & Enever).
  destruct (appends_main_loop py_repr never mapping record_tag _ _ _ _ Eloop)
    as (evs & L & Hall). simpl in L.
  assert (forall ev, ev ∈ log st ->
            match ev with EJsonDump _ _ | EYamlDump _ _ => ev ∈ lg' | _ => True end)
    as Hdump.
  { intros ev Hin.
    pose proof (follows_main py_repr faulty mapping record_tag elems initial) as Hf.
    rewrite E in Hf.
    assert (log st `prefix_of`
              (lg' ++ close_json_events (dict_values jw')
                   ++ close_yaml_events (dict_values yf'))%list) as Hp.
    { destruct res as [[]|x].
      - rewrite Enever in Hf. injection Hf as <-. done.
      - destruct Hf as (sB & rB & EB & Hp). rewrite Enever in EB.
        by injection EB as <- <-. }
    destruct Hp as [k Ek]. assert (ev ∈ (log st ++ k)%list) as Hin'
      by (apply elem_of_app; by left).
    rewrite <- Ek in Hin'. apply elem_of_app in Hin' as [Hin'|Hin'].
    - by destruct ev.
    - apply no_dump_in_close in Hin'. by destruct ev. }
  destruct Hfs as [fs0 Hfs0].
  destruct (fs_run_dump_opened _ _ _ _ Hfs0) as [Hj Hy].
  split; [by exists fs0|]. split; [exact Honce|].
  split; [|split; [|split; [|split; [|split; [|split]]]]].
  - intros h n Hin.
    assert (EOpen h n ∈ final) as Hin'.
    { destruct Hpre as [l3 ->]. apply elem_of_app. by left. }
    apply (final_opened_registered _ _ _ _ _ Hinv) in Hin'.
    exact (registered_record _ _ _ _ _ Hinv Hin').
  - intros h. etrans; [apply (closes_prefix _ _ _ Hpre)|].
    apply (final_closes_le _ _ _ _ _ Hinv).
  - intros h r Hin. split.
    + pose proof (Hdump _ Hin) as Hin'. simpl in Hin'. rewrite L in Hin'.
      rewrite Forall_forall in Hall. exact (Hall _ Hin').
    + destruct (Hj _ _ Hin) as [H|H]; [by apply elem_of_nil in H|].
      apply single_opened; [by apply elem_of_opened | apply Honce].
  - intros h r Hin. split.
    + pose proof (Hdump _ Hin) as Hin'. simpl in Hin'. rewrite L in Hin'.
      rewrite Forall_forall in Hall. exact (Hall _ Hin').
    + destruct (Hy _ _ Hin) as [H|H]; [by apply elem_of_nil in H|].
      apply single_opened; [by apply elem_of_opened | apply Honce].
  - intros pre st1 res1 E1.
    destruct (appends_main_loop py_repr faulty mapping record_tag _ _ _ _ E1)
      as (evs1 & L1 & Hall1). simpl in L1. split; [|split].
    + intros h. apply closes_zero. intros h'. rewrite L1.
      exact (loop_event_no_close _ _ _ h' Hall1).
    + intros h n. rewrite L1. exact (loop_event_open _ _ _ h n Hall1).
    + intros -> r Hr. apply main_loop_ok in E1.
      destruct (registered_key _ _ _ _ E1 (part_not_nil _ _ _ Hr)) as (w & hy & Hj' & Hy').
      destruct (inv_json _ _ _ E1 _ _ Hj') as (_ & Ho & Hw).
      destruct (inv_yaml _ _ _ E1 _ _ Hy') as (Ho' & Hw').
      exists (f w), hy. rewrite Hw, Hw'. repeat split; try done.
      * apply json_doc_in_started. by apply elem_of_part.
      * apply yaml_doc_in_chunks. by apply elem_of_part.
  - intros ->. rewrite (Hlog eq_refl). split; [|by exists fsE].
    intros h n Hin. apply (final_closes_registered _ _ _ _ _ Hinv h n).
    by apply (final_opened_registered _ _ _ _ _ Hinv).
  - by eexists.
Qed.

(** C4 at the three sample records, in a run that returns: the log
    respects the discipline and every handle is closed exactly once. *)
Lemma writer_pool_discipline_witness :
  is_Some (fs_run (year_of (fun _ => "") ∅) fs_init
             (log (fst (main (fun _ => "") never ∅ "person" [ann; bob; cy] initial))))
  /\ every_handle_closed_once
       (log (fst (main (fun _ => "") never ∅ "person" [ann; bob; cy] initial))).
Proof.
  destruct (writer_pool_discipline (fun _ => "") never ∅ "person" [ann; bob; cy]
              _ _ (surjective_pairing _))
    as (H1 & _ & _ & _ & _ & _ & _ & H8 & _).
  split; [exact H1|]. exact (proj1 (H8 eq_refl)).
Defined.

(** The JSON file of 1990 for the three sample records. *)
Lemma json_output_is_array_witness :
  json_load (file_content (json_name "1990")
               (log (fst (main (fun _ => "") never ∅ "person" [ann; bob; cy] initial))))
  = Some (routed (fun _ => "") ∅ "person" "1990" [ann; bob; cy]).
Proof.
  refine (proj2 (json_output_is_array (fun _ => "") never ∅ "person" [ann; bob; cy]
                   _ "1990" _ _)).
  - vm_compute. reflexivity.
  - vm_compute. discriminate.
Defined.

(** The YAML file of 1990 for the three sample records. *)
Lemma yaml_output_is_one_document_witness :
  yaml_documents AtStart
    (file_content (yaml_name "1990")
       (log (fst (main (fun _ => "") never ∅ "person" [ann; bob; cy] initial))))
  = Some 1.
Proof.
  refine (proj1 (proj2 (yaml_output_is_one_document (fun _ => "") never ∅ "person"
                          [ann; bob; cy] _ "1990" _ _)) _).
  - vm_compute. reflexivity.
  - vm_compute. discriminate.
  - vm_compute. repeat constructor; discriminate.
Defined.

(** Two record elements without attributes and children. *)
Example two_empty_records_unread :
  yaml_documents AtStart
    (file_content "people_unknown.yaml"
       (log (fst (main (fun _ => "") never ∅ "person" [person []; person []] initial))))
  = None.
Proof. vm_compute. reflexivity. Qed.

(** What the orchestrator keeps between two records: one JSON writer
    and one YAML file for each key that a record so far had, and no
    record. *)
Theorem registries_hold_the_keys :
  forall (py_repr : list (string * string) -> string)
         (faulty : list io_event -> io_event -> bool)
         (mapping : gmap string string) (record_tag : string)
         (pre : list Element) (st1 : state),
    main_loop py_repr faulty mapping record_tag pre initial = (st1, Ok tt) ->
    NoDup (dict_keys (json_writers st1))
    /\ NoDup (dict_keys (yaml_files st1))
    /\ (forall k, k ∈ dict_keys (json_writers st1)
          <-> exists r, r ∈ records mapping record_tag pre
                        /\ year_of py_repr mapping r = k)
    /\ (forall k, k ∈ dict_keys (yaml_files st1)
          <-> exists r, r ∈ records mapping record_tag pre
                        /\ year_of py_repr mapping r = k).
Proof.
  intros py_repr faulty mapping record_tag pre st1 E.
  apply main_loop_ok in E.
  assert (forall k, part (year_of py_repr mapping) k (records mapping record_tag pre) <> []
            <-> exists r, r ∈ records mapping record_tag pre
                          /\ year_of py_repr mapping r = k) as Hpart.
  { intros k. split.
    - destruct (part _ k _) as [|r l] eqn:Ep; [done|]. intros _.
      assert (r ∈ part (year_of py_repr mapping) k (records mapping record_tag pre))
        as Hr%elem_of_part by (rewrite Ep; apply elem_of_cons; by left).
      by exists r.
    - intros (r & Hr & <-). by apply part_not_nil. }
  split; [apply (inv_keys_json _ _ _ E)|].
  split; [apply (inv_keys_yaml _ _ _ E)|].
  split; intros k; rewrite <- Hpart.
  - apply (inv_json_keys _ _ _ E).
  - apply (inv_yaml_keys _ _ _ E).
Qed.

(** The registries after the three sample records. *)
Lemma registries_hold_the_keys_witness :
  NoDup (dict_keys (json_writers
           (fst (main_loop (fun _ => "") never ∅ "person" [ann; bob; cy] initial)))).
Proof.
  refine (proj1 (registries_hold_the_keys (fun _ => "") never ∅ "person"
                   [ann; bob; cy] _ _)).
  vm_compute. reflexivity.
Defined.

(** * Further properties of the transcoder *)

(** ** The partition key *)

Lemma re_digit_isdigit c : re_digit c = true -> char_isdigit c = true.
Proof. unfold char_isdigit. by intros ->. Qed.

Lemma is_year_four_digits y : is_year y -> four_digits y.
Proof.
  intros (c & d & Hc%re_digit_isdigit & Hd%re_digit_isdigit & [-> | [-> | ->]]).
  all: split; [reflexivity|].
  all: cbn [str_all]; rewrite Hc, Hd; reflexivity.
Qed.

Lemma extract_year_four_digits b y :
  extract_year_from_birth b = Some y -> four_digits y.
Proof.
  destruct b as [s|]; [|discriminate].
  destruct (str_truthy s) eqn:Ht.
  2:{ unfold extract_year_from_birth. rewrite Ht. discriminate. }
  rewrite (extract_year_from_birth_str _ Ht).
  destruct (YEAR_RE_search s) as [y0|] eqn:Es.
  - intros [= <-]. apply YEAR_RE_search_Some in Es as (n & _ & Hy & _).
    by apply is_year_four_digits.
  - destruct (_ && isdigit (hd "" _)) eqn:E1.
    { intros [= <-]. by apply four_digits_test. }
    destruct (_ && isdigit (List.last _ _)) eqn:E2; [|discriminate].
    intros [= <-]. by apply four_digits_test.
Qed.

Lemma or_unknown_shape b :
  or_unknown (extract_year_from_birth b) = "unknown"
  \/ four_digits (or_unknown (extract_year_from_birth b)).
Proof.
  destruct (extract_year_from_birth b) as [y|] eqn:E; [|by left].
  right. apply extract_year_four_digits in E.
  unfold or_unknown. by rewrite four_digits_truthy.
Qed.

(** The partition key of a record, and so the part of the two file
    names that comes from the input, is the word unknown or four digits:
    it is never empty and holds no dot and no path separator. *)
Theorem partition_key_shape :
  forall (py_repr : list (string * string) -> string)
         (mapping : gmap string string) (r : record) (birth : option string),
    (year_of py_repr mapping r = "unknown" \/ four_digits (year_of py_repr mapping r))
    /\ (resolve_year birth = "unknown" \/ four_digits (resolve_year birth)).
Proof.
  intros py_repr mapping r birth. split; apply or_unknown_shape.
Qed.

Lemma split_single sep s :
  str_all (fun c => negb (Ascii.eqb c sep)) s = true -> split sep s = [s].
Proof.
  induction s as [|c s IH]; simpl; [done|].
  intros [Hc Hs]%andb_true_iff. apply negb_true_iff in Hc. rewrite Hc.
  by rewrite IH.
Qed.

Lemma digits_no_dash s :
  str_all char_isdigit s = true -> str_all (fun c => negb (Ascii.eqb c dash)) s = true.
Proof.
  induction s as [|c s IH]; simpl; [done|].
  intros [Hc Hs]%andb_true_iff. rewrite IH by done. rewrite andb_true_r.
  destruct (Ascii.eqb_spec c dash) as [->|]; [discriminate | reflexivity].
Qed.

(** A text that is exactly four digits is its own year. *)
Lemma resolve_four_digits y : four_digits y -> resolve_year (Some y) = y.
Proof.
  intros Hy. pose proof (four_digits_truthy _ Hy) as Ht.
  unfold resolve_year. unfold or_unknown at 2. rewrite Ht.
  rewrite (extract_year_from_birth_str _ Ht).
  destruct (YEAR_RE_search y) as [y0|] eqn:Es.
  - apply YEAR_RE_search_Some in Es as (n & (pre & post & E & _) & Hy0 & _).
    pose proof (is_year_truthy _ Hy0) as Ht0.
    destruct Hy as [Hlen _]. rewrite E, !length_append in Hlen.
    destruct (is_year_four_digits _ Hy0) as [Hlen0 _].
    destruct pre; [|simpl in Hlen; lia]. destruct post; [|simpl in Hlen; lia].
    rewrite append_nil in E. subst y.
    destruct Hy0 as (c & d & _ & _ & [-> | [-> | ->]]); reflexivity.
  - rewrite (split_single dash y) by (apply digits_no_dash, Hy). simpl hd.
    pose proof Hy as Hy'. apply four_digits_test in Hy' as ->.
    unfold or_unknown. by rewrite Ht.
Qed.

(** The resolver maps each of its answers to itself: a record whose date
    field holds the partition key of another record goes to the same
    files as that record. *)
Theorem resolver_idempotent :
  forall (py_repr : list (string * string) -> string)
         (mapping : gmap string string) (r : record) (birth : option string),
    resolve_year (Some (resolve_year birth)) = resolve_year birth
    /\ resolve_year (Some (year_of py_repr mapping r)) = year_of py_repr mapping r.
Proof.
  intros py_repr mapping r birth.
  assert (forall b, resolve_year (Some (or_unknown (extract_year_from_birth b)))
                    = or_unknown (extract_year_from_birth b)) as H.
  { intros b. destruct (or_unknown_shape b) as [-> | Hy]; [reflexivity|].
    by apply resolve_four_digits. }
  split; apply H.
Qed.

(** ** The order of the fields *)

(** The fields of a record stand in the order in which their names first
    occur in the element, the attributes before the children; so do the
    fields of a sub-mapping, in the order of the grandchildren. *)
Theorem record_field_order :
  forall (elem : Element) (mapping : gmap string string),
    dict_keys (person_elem_to_dict elem mapping)
    = first_occurrences [] (map (translated mapping) (source_names elem))
    /\ (forall c,
          dict_keys (sub_dict c mapping)
          = first_occurrences [] (map (fun g => translated mapping (tag g)) (children c))).
Proof.
  intros elem mapping.
  assert (forall {X} (name : X -> string) (l : list X),
            map (fun x => map_tag (name x) mapping) l
            = map (translated mapping) (map name l)) as Hmap.
  { intros X name l. rewrite map_map. apply map_ext. intros x.
    apply map_tag_translated. }
  split.
  - rewrite person_elem_to_dict_assign, !assign_all_keys_order.
    rewrite (Hmap _ fst), (Hmap _ tag).
    unfold source_names. rewrite map_app, first_occurrences_app.
    reflexivity.
  - intros c. rewrite sub_dict_assign, assign_all_keys_order.
    rewrite (Hmap _ tag), map_map. reflexivity.
Qed.

(** ** What a run reads of its input *)

Lemma for_each_map {X Y : Type} (g : X -> Y) (body : Y -> M unit) l :
  for_each body (map g l) = for_each (fun x => body (g x)) l.
Proof. induction l as [|x l IH]; simpl; [done|]. by rewrite IH. Qed.

Lemma main_loop_filter py_repr faulty mapping record_tag elems st :
  main_loop py_repr faulty mapping record_tag elems st
  = for_each (process py_repr faulty mapping record_tag)
      (filter (fun e => is_record record_tag e = true) elems) st.
Proof.
  unfold main_loop. revert st. induction elems as [|e elems IH]; intros st; [done|].
  destruct (is_record record_tag e) eqn:E.
  - rewrite filter_cons_True by done. simpl. unfold bind.
    destruct (process _ _ _ _ e st) as [s [[]|x]]; [apply IH | done].
  - rewrite filter_cons_False by (rewrite E; discriminate).
    simpl. unfold bind at 1, process at 1. unfold is_record in E. rewrite E. simpl.
    apply IH.
Qed.

Lemma process_record py_repr faulty mapping record_tag e :
  is_record record_tag e = true ->
  process py_repr faulty mapping record_tag e
  = route faulty (year_of py_repr mapping (person_elem_to_dict e mapping))
      (person_elem_to_dict e mapping).
Proof. unfold is_record, process. by intros ->. Qed.

Lemma for_each_ext_in {X : Type} (body body' : X -> M unit) l :
  Forall (fun x => body x = body' x) l -> for_each body l = for_each body' l.
Proof. induction 1 as [|x l Hx _ IH]; simpl; [done|]. by rewrite Hx, IH. Qed.

(** A run depends on its input through the projected records only: the
    elements whose tag is not the record tag can be left out, and what
    is left is the routing of each record to its key, then the
    shutdown. *)
Theorem run_reads_records_only :
  forall (py_repr : list (string * string) -> string)
         (faulty : list io_event -> io_event -> bool)
         (mapping : gmap string string) (record_tag : string)
         (elems : list Element) (st : state),
    main py_repr faulty mapping record_tag elems st
    = main py_repr faulty mapping record_tag
        (filter (fun e => is_record record_tag e = true) elems) st
    /\ main py_repr faulty mapping record_tag elems st
       = (for_each (fun r => route faulty (year_of py_repr mapping r) r)
            (records mapping record_tag elems) ;;
          close_all faulty) st.
Proof.
  intros py_repr faulty mapping record_tag elems st.
  assert (forall l, Forall (fun e => is_record record_tag e = true) l ->
            main_loop py_repr faulty mapping record_tag l
            = for_each (fun r => route faulty (year_of py_repr mapping r) r)
                (map (fun e => person_elem_to_dict e mapping) l)) as Hrec.
  { intros l Hl. unfold main_loop. rewrite for_each_map.
    apply for_each_ext_in. eapply Forall_impl; [exact Hl|].
    intros e He. by apply process_record. }
  assert (Forall (fun e => is_record record_tag e = true)
            (filter (fun e => is_record record_tag e = true) elems)) as Hall.
  { apply Forall_forall. by intros e [He _]%list_elem_of_filter. }
  split.
  - unfold main, bind. rewrite main_loop_filter.
    rewrite (main_loop_filter _ _ _ _ (filter _ elems)).
    by rewrite list_filter_filter_l.
  - unfold main, bind. rewrite main_loop_filter.
    change (for_each (process py_repr faulty mapping record_tag) ?l)
      with (main_loop py_repr faulty mapping record_tag l).
    rewrite (Hrec _ Hall). reflexivity.
Qed.

(** ** Runs that fail *)

(** Whatever fails, a run is a run in which nothing fails, cut short:
    the operations it did are the first operations of that run, in the
    same order, and when it returns it has done all of them. *)
Theorem failure_only_truncates :
  forall (py_repr : list (string * string) -> string)
         (faulty : list io_event -> io_event -> bool)
         (mapping : gmap string string) (record_tag : string)
         (elems : list Element) (st0 st : state) (res : result unit),
    main py_repr faulty mapping record_tag elems st0 = (st, res) ->
    log st `prefix_of` log (fst (main py_repr never mapping record_tag elems st0))
    /\ (res = Ok tt ->
        main py_repr never mapping record_tag elems st0 = (st, Ok tt)).
Proof.
  intros py_repr faulty mapping record_tag elems st0 st res E.
  pose proof (follows_main py_repr faulty mapping record_tag elems st0) as H.
  rewrite E in H. destruct res as [[]|x].
  - rewrite H. simpl. split; done.
  - destruct H as (sB & rB & -> & Hpre). simpl. split; [done | discriminate].
Qed.

(** After three operations the disk is full: the run stops inside the
    first record. *)
Lemma failure_only_truncates_witness :
  log (fst (main (fun _ => "") (fails_from 3) ∅ "person" [ann; cy] initial))
    `prefix_of` log (fst (main (fun _ => "") never ∅ "person" [ann; cy] initial)).
Proof.
  exact (proj1 (failure_only_truncates (fun _ => "") (fails_from 3) ∅ "person"
                  [ann; cy] initial _ _ (surjective_pairing _))).
Defined.

Section OnlyOsErrors.

Context (faulty : list io_event -> io_event -> bool).

Lemma only_os_ret {A} (a : A) : only_os_errors faulty (ret a).
Proof. intros st st' x. discriminate. Qed.

Lemma only_os_get_state : only_os_errors faulty get_state.
Proof. intros st st' x. discriminate. Qed.

Lemma only_os_bind {A B} (m : M A) (k : A -> M B) :
  only_os_errors faulty m -> (forall a, only_os_errors faulty (k a)) ->
  only_os_errors faulty (bind m k).
Proof.
  intros Hm Hk st st' x. unfold bind.
  destruct (m st) as [s [a|y]] eqn:E.
  - apply Hk.
  - intros [= <- <-]. by apply (Hm st).
Qed.

Lemma only_os_io ev : only_os_errors faulty (io faulty ev).
Proof.
  intros st st' x. unfold io.
  destruct (faulty (log st) ev) eqn:E; [|discriminate].
  intros [= <- <-]. by exists ev.
Qed.


Lemma only_os_open_w name : only_os_errors faulty (open_w faulty name).
Proof.
  unfold open_w. apply only_os_bind; [apply only_os_get_state|]. intros s.
  apply only_os_bind; [apply only_os_io|]. intros _. apply only_os_ret.
Qed.




End OnlyOsErrors.



(** ** The files of a run that was cut short *)

Lemma written_prefix h l1 l2 :
  l1 `prefix_of` l2 -> written h l1 `prefix_of` written h l2.
Proof. intros [l3 ->]. rewrite written_app. by apply prefix_app_r. Qed.

Lemma opened_prefix_of n l1 l2 :
  l1 `prefix_of` l2 -> opened n l1 `prefix_of` opened n l2.
Proof. intros [l3 ->]. rewrite opened_app. by apply prefix_app_r. Qed.

Lemma prefix_singleton {A} (l : list A) a : l `prefix_of` [a] -> l = [] \/ l = [a].
Proof.
  intros [k E]. destruct l as [|b [|c l]]; [by left | | discriminate].
  injection E as -> _. by right.
Qed.

(** What is read as an array ends with the closing bracket. *)
Lemma json_elements_last c rs :
  json_elements c = Some rs -> exists c' t, c = (c' ++ [Text t])%list /\ strip t = "]".
Proof.
  remember (length c) as n eqn:Hn. revert c rs Hn.
  induction n as [n IH] using lt_wf_ind. intros c rs Hn.
  destruct c as [|[t| |] [|[| r |] c']]; try discriminate.
  - simpl. destruct (String.eqb_spec (strip t) "]") as [E|]; [|discriminate].
    intros _. by exists [], t.
  - simpl. destruct (String.eqb (strip t) ","); [|discriminate].
    destruct (json_elements c') as [rs'|] eqn:E'; [|discriminate]. intros _.
    destruct (IH (length c') ltac:(simpl in Hn; lia) c' rs' eq_refl E')
      as (c0 & t0 & -> & Ht0).
    by exists (Text t :: JsonDoc r :: c0), t0.
Qed.

Lemma json_load_last c rs :
  json_load c = Some rs ->
  exists t0 c' t, c = Text t0 :: (c' ++ [Text t])%list /\ strip t = "]".
Proof.
  destruct c as [|[t0| |] c]; try discriminate. simpl.
  destruct (String.eqb (strip t0) "["); [|discriminate].
  destruct c as [|[t| r |] c]; try discriminate.
  - destruct c as [|? ?]; [|discriminate].
    destruct (String.eqb_spec (strip t) "]") as [E|]; [|discriminate].
    intros _. by exists t0, [], t.
  - destruct (json_elements c) as [rs'|] eqn:E'; [|discriminate]. intros _.
    apply json_elements_last in E' as (c0 & t & -> & Ht).
    by exists t0, (JsonDoc r :: c0), t.
Qed.

Lemma json_body_texts rs t : Text t ∈ json_body rs -> t = "," ++ nl.
Proof.
  destruct rs as [|r rs]; simpl; [by intros ?%elem_of_nil|].
  intros [?|H]%elem_of_cons; [discriminate|].
  induction rs as [|r' rs IH]; simpl in H; [by apply elem_of_nil in H|].
  apply elem_of_cons in H as [[= ->]|H]; [done|].
  apply elem_of_cons in H as [?|H]; [discriminate | by apply IH].
Qed.

(** A JSON file that was not closed is not read as an array. *)
Lemma json_load_started c rs : c `prefix_of` json_started rs -> json_load c = None.
Proof.
  intros [k E]. destruct (json_load c) as [rs'|] eqn:El; [|done].
  apply json_load_last in El as (t0 & c' & t & -> & Ht).
  unfold json_started in E. simpl in E. injection E as _ E.
  rewrite <- app_assoc in E.
  assert (Text t ∈ json_body rs) as Hin.
  { rewrite E. apply elem_of_app. right. apply elem_of_cons. by left. }
  apply json_body_texts in Hin as ->. vm_compute in Ht. discriminate.
Qed.

Lemma json_load_yaml c rs : c `prefix_of` yaml_chunks rs -> json_load c = None.
Proof.
  intros [k E]. destruct c as [|x c]; [done|].
  destruct rs as [|r rs]; [discriminate|]. simpl in E. by injection E as <- _.
Qed.

(** When the loop over the records is left by an exception, the run
    ends there, without the shutdown, and no file that it leaves behind
    is read as a JSON array: a JSON file that was begun lacks its
    closing bracket. *)
Theorem aborted_run_json_unreadable :
  forall (py_repr : list (string * string) -> string)
         (faulty : list io_event -> io_event -> bool)
         (mapping : gmap string string) (record_tag : string)
         (elems : list Element) (st : state) (x : exn),
    main_loop py_repr faulty mapping record_tag elems initial = (st, Raise x) ->
    main py_repr faulty mapping record_tag elems initial = (st, Raise x)
    /\ forall name, json_load (file_content name (log st)) = None.
Proof.
  intros py_repr faulty mapping record_tag elems st x E.
  split; [unfold main, bind; by rewrite E|].
  intros name.
  pose proof (follows_main_loop py_repr faulty mapping record_tag elems initial) as H.
  rewrite E in H. destruct H as (sB & rB & EB & Hpre).
  destruct (main_loop_never py_repr mapping record_tag [] initial elems
              (pool_inv_initial py_repr mapping)) as (st' & E' & Hinv).
  rewrite E' in EB. injection EB as <- <-. simpl in Hinv.
  pose proof (opened_prefix_of name _ _ Hpre) as Hop.
  destruct (opened name (log st)) as [|h hs] eqn:Eo.
  { unfold file_content. by rewrite Eo. }
  assert (h ∈ opened name (log st')) as Hin.
  { destruct Hop as [k ->]. apply elem_of_cons. by left. }
  apply (inv_opened _ _ _ Hinv) in Hin.
  destruct Hin as [(k & w & Hkw & -> & ->) | (k & Hk & ->)].
  - destruct (inv_json _ _ _ Hinv _ _ Hkw) as (_ & Ho & Hw).
    rewrite Ho in Hop. apply prefix_singleton in Hop as [?|Hop]; [discriminate|].
    rewrite (file_content_single _ (f w)) by (by rewrite Eo).
    apply (json_load_started _ (part (year_of py_repr mapping) k
                                  (records mapping record_tag elems))).
    rewrite <- Hw. by apply written_prefix.
  - destruct (inv_yaml _ _ _ Hinv _ _ Hk) as (Ho & Hw).
    rewrite Ho in Hop. apply prefix_singleton in Hop as [?|Hop]; [discriminate|].
    rewrite (file_content_single _ h) by (by rewrite Eo).
    apply (json_load_yaml _ (part (year_of py_repr mapping) k
                               (records mapping record_tag elems))).
    rewrite <- Hw. by apply written_prefix.
Qed.

(** On a disk that is full after three operations the JSON file of 1990
    holds the opening bracket and the first record, and is not an
    array. *)
Lemma aborted_run_json_unreadable_witness :
  json_load
    (file_content "people_1990.json"
       (log (fst (main_loop (fun _ => "") (fails_from 3) ∅ "person" [ann; cy] initial))))
  = None.
Proof.
  exact (proj2 (aborted_run_json_unreadable (fun _ => "") (fails_from 3) ∅ "person"
                  [ann; cy] _ (OSError (EOpen 3 "people_1990.yaml")) eq_refl)
           "people_1990.json").
Defined.

Example aborted_run_content :
  file_content "people_1990.json"
    (log (fst (main_loop (fun _ => "") (fails_from 3) ∅ "person" [ann; cy] initial)))
  = [Text ("[" ++ nl); JsonDoc (person_elem_to_dict ann ∅)].
Proof. vm_compute. reflexivity. Qed.

(** ** The field the date is read from *)

Lemma first_candidate_app pre cs r :
  Forall (fun c => c ∉ dict_keys r) pre ->
  first_candidate (pre ++ cs) r = first_candidate cs r.
Proof.
  induction 1 as [|c pre Hc _ IH]; simpl; [done|].
  apply dict_get_None_keys in Hc. unfold dict_in. by rewrite Hc.
Qed.

(** The date is read from the field of the first candidate name that is
    a field of the record, whatever the field holds: when it holds the
    empty string the key is unknown, and the candidate names after it
    are not looked at. *)
Theorem first_present_candidate_wins :
  forall (py_repr : list (string * string) -> string)
         (mapping : gmap string string) (r : record)
         (pre : list string) (c : string) (post : list string) (v : value),
    candidates = (pre ++ c :: post)%list ->
    Forall (fun c' => c' ∉ dict_keys r) pre ->
    dict_get c r = Some v ->
    birth_val r mapping = Some v
    /\ (forall s, v = VStr s -> year_of py_repr mapping r = resolve_year (Some s))
    /\ (v = VStr "" -> year_of py_repr mapping r = "unknown").
Proof.
  intros py_repr mapping r pre c post v Hc Hpre Hv.
  assert (birth_val r mapping = Some v) as Hb.
  { unfold birth_val. rewrite Hc, first_candidate_app by done.
    simpl. unfold dict_in. by rewrite Hv. }
  split; [exact Hb|]. split.
  - intros s ->. by apply year_of_scalar.
  - intros ->. by rewrite (year_of_scalar _ _ _ _ Hb).
Qed.

(** A record with an empty [birth] and a dated [fecha]. *)
Lemma first_present_candidate_wins_witness :
  year_of (fun _ => "") ∅ empty_birth = "unknown".
Proof.
  refine (proj2 (proj2 (first_present_candidate_wins (fun _ => "") ∅ empty_birth
                   [] "birth" other_date_names (VStr "") eq_refl _ eq_refl)) eq_refl).
  constructor.
Defined.

(** ** What a failure leaves of the earlier records *)

Lemma elem_of_prefix {A} (x : A) l1 l2 : l1 `prefix_of` l2 -> x ∈ l1 -> x ∈ l2.
Proof. intros [k ->] H. apply elem_of_app. by left. Qed.

Lemma single_between {A} (a b : A) l :
  [a] `prefix_of` l -> l `prefix_of` [b] -> l = [a].
Proof.
  intros [k ->] [k' E]. simpl in E. injection E as -> E.
  by destruct k.
Qed.

(** A failure does not undo what was written: when the run fails at an
    element, every record of the elements before it is in the JSON file
    and in the YAML file of its key, each of which is still the one
    file that was opened under its name. *)
Theorem completed_records_kept :
  forall (py_repr : list (string * string) -> string)
         (faulty : list io_event -> io_event -> bool)
         (mapping : gmap string string) (record_tag : string)
         (pre : list Element) (e : Element) (st1 st2 : state) (x : exn) (r : record),
    main_loop py_repr faulty mapping record_tag pre initial = (st1, Ok tt) ->
    process py_repr faulty mapping record_tag e st1 = (st2, Raise x) ->
    r ∈ records mapping record_tag pre ->
    JsonDoc r ∈ file_content (json_name (year_of py_repr mapping r)) (log st2)
    /\ YamlDoc r ∈ file_content (yaml_name (year_of py_repr mapping r)) (log st2).
Proof.
  intros py_repr faulty mapping record_tag pre e st1 st2 x r E1 E2 Hr.
  pose proof (main_loop_ok _ _ _ _ _ _ E1) as Hinv1.
  destruct (process_step py_repr mapping record_tag _ _ e Hinv1) as (st' & E' & Hinv').
  pose proof (follows_process py_repr faulty mapping record_tag e st1) as Hf.
  rewrite E2 in Hf. destruct Hf as (sB & rB & EB & Hpre2).
  rewrite E' in EB. injection EB as <- <-.
  destruct (appends_process py_repr faulty mapping record_tag e _ _ _ E2)
    as (evs & L & _).
  assert (log st1 `prefix_of` log st2) as Hpre1 by (rewrite L; by apply prefix_app_r).
  set (k := year_of py_repr mapping r).
  assert (part (year_of py_repr mapping) k (records mapping record_tag pre) <> [])
    as Hpart by (by apply part_not_nil).
  assert (part (year_of py_repr mapping) k
            (records mapping record_tag pre ++ records mapping record_tag [e]) <> [])
    as Hpart'.
  { unfold part in *. rewrite filter_app. intros [H _]%app_eq_nil. by apply Hpart. }
  destruct (registered_key _ _ _ _ Hinv1 Hpart) as (w & h & Hj & Hy).
  destruct (registered_key _ _ _ _ Hinv' Hpart') as (w' & h' & Hj' & Hy').
  destruct (inv_json _ _ _ Hinv1 _ _ Hj) as (_ & Ho & Hw).
  destruct (inv_json _ _ _ Hinv' _ _ Hj') as (_ & Ho' & _).
  destruct (inv_yaml _ _ _ Hinv1 _ _ Hy) as (Hoy & Hwy).
  destruct (inv_yaml _ _ _ Hinv' _ _ Hy') as (Hoy' & _).
  split.
  - rewrite (file_content_single _ (f w)).
    + apply (elem_of_prefix _ (written (f w) (log st1))); [by apply written_prefix|].
      rewrite Hw. apply json_doc_in_started. by apply elem_of_part.
    + apply (single_between _ (f w')).
      * rewrite <- Ho. by apply opened_prefix_of.
      * rewrite <- Ho'. by apply opened_prefix_of.
  - rewrite (file_content_single _ h).
    + apply (elem_of_prefix _ (written h (log st1))); [by apply written_prefix|].
      rewrite Hwy. apply yaml_doc_in_chunks. by apply elem_of_part.
    + apply (single_between _ h').
      * rewrite <- Hoy. by apply opened_prefix_of.
      * rewrite <- Hoy'. by apply opened_prefix_of.
Qed.

(** The disk is full after seven operations: the first sample record is
    in its two files, the second is in none. *)
Lemma completed_records_kept_witness :
  JsonDoc (person_elem_to_dict ann ∅)
    ∈ file_content (json_name (year_of (fun _ => "") ∅ (person_elem_to_dict ann ∅)))
        (log (fst (process (fun _ => "") (fails_from 7) ∅ "person" cy
                     (fst (main_loop (fun _ => "") (fails_from 7) ∅ "person" [ann]
                             initial)))))
  /\ YamlDoc (person_elem_to_dict ann ∅)
       ∈ file_content (yaml_name (year_of (fun _ => "") ∅ (person_elem_to_dict ann ∅)))
           (log (fst (process (fun _ => "") (fails_from 7) ∅ "person" cy
                        (fst (main_loop (fun _ => "") (fails_from 7) ∅ "person" [ann]
                                initial))))).
Proof.
  refine (completed_records_kept (fun _ => "") (fails_from 7) ∅ "person" [ann] cy
            _ _ (OSError (EJsonDump 0 (person_elem_to_dict cy ∅)))
            (person_elem_to_dict ann ∅) eq_refl eq_refl _).
  simpl. apply elem_of_cons. by left.
Defined.

(** ** From the document to the elements of the loop *)

Lemma Element_nested_ind (P : Element -> Prop) :
  (forall t a x cs, Forall P cs -> P (mkElement t a x cs)) -> forall e, P e.
Proof.
  intros H. fix IH 1. intros [t a x cs]. apply H.
  induction cs as [|c cs IHcs]; constructor; [apply IH | exact IHcs].
Qed.

Lemma iterparse_snd_tag rt e : tag (snd (iterparse rt e)) = tag e.
Proof. destruct e as [t a x cs]. simpl. by destruct (String.eqb t rt). Qed.

Lemma iterparse_snd_record rt e :
  tag e = rt -> snd (iterparse rt e) = clear e.
Proof.
  destruct e as [t a x cs]. simpl. intros ->. by rewrite String.eqb_refl.
Qed.

Lemma iterparse_fst_tags rt e :
  map tag (fst (iterparse rt e)) = map tag (end_order e).
Proof.
  induction e as [t a x cs IH] using Element_nested_ind. simpl.
  rewrite !map_app. f_equal.
  induction IH as [|c cs Hc _ IHcs]; simpl; [done|].
  by rewrite !map_app, Hc, IHcs.
Qed.

(** The parser yields one element for each element of the document, in
    the order of the end tags and under its tag: the loop reads as many
    records as the document has elements with the record tag, nested or
    not. *)
Theorem yielded_in_end_order :
  forall (record_tag : string) (root : Element),
    map tag (yielded record_tag root) = map tag (end_order root)
    /\ length (filter (fun e => is_record record_tag e = true) (yielded record_tag root))
       = length (filter (fun e => is_record record_tag e = true) (end_order root)).
Proof.
  intros rt root. pose proof (iterparse_fst_tags rt root) as H.
  split; [exact H|]. unfold yielded.
  revert H. generalize (fst (iterparse rt root)) (end_order root).
  induction l as [|e l IH]; intros [|e' l']; simpl; try discriminate; [done|].
  intros [= He Hl]. specialize (IH _ Hl).
  assert (is_record rt e = is_record rt e') as Hr by (unfold is_record; by rewrite He).
  destruct (is_record rt e') eqn:E'.
  - rewrite !filter_cons_True by done. simpl. by rewrite IH.
  - rewrite !filter_cons_False by (by rewrite ?Hr, ?E'). exact IH.
Qed.

Lemma elem_of_concat {A} (x : A) (ls : list (list A)) :
  x ∈ concat ls -> exists l, x ∈ l /\ l ∈ ls.
Proof.
  induction ls as [|l ls IH]; simpl; [by intros ?%elem_of_nil|].
  intros [H|H]%elem_of_app.
  - exists l. split; [done | by apply elem_of_cons; left].
  - destruct (IH H) as (l' & ? & ?). exists l'. split; [done | by apply elem_of_cons; right].
Qed.

Lemma yielded_children rt root e c :
  e ∈ yielded rt root -> c ∈ children e ->
  exists c0, c = snd (iterparse rt c0).
Proof.
  unfold yielded. revert e c.
  induction root as [t a x cs IH] using Element_nested_ind. intros e c. simpl.
  intros [Hin | ->%list_elem_of_singleton]%elem_of_app.
  - apply elem_of_concat in Hin as (l & Hin & Hl).
    apply list_elem_of_fmap in Hl as (p & -> & Hp).
    apply list_elem_of_fmap in Hp as (c1 & -> & Hc1).
    rewrite Forall_forall in IH. by apply (IH c1).
  - simpl. intros Hc. apply list_elem_of_fmap in Hc as (p & -> & Hp).
    apply list_elem_of_fmap in Hp as (c1 & -> & _). by exists c1.
Qed.

(** A record element that stands inside another element has been
    emptied when that element is yielded: it reaches the projector
    without attributes, text and children, and becomes a field that
    holds the empty string. *)
Theorem nested_record_emptied :
  forall (record_tag : string) (root e c : Element) (mapping : gmap string string),
    e ∈ yielded record_tag root -> c ∈ children e -> tag c = record_tag ->
    c = clear c /\ child_value c mapping = VStr "".
Proof.
  intros rt root e c mapping He Hc Ht.
  destruct (yielded_children _ _ _ _ He Hc) as (c0 & ->).
  rewrite iterparse_snd_tag in Ht.
  rewrite (iterparse_snd_record _ _ Ht). split; reflexivity.
Qed.

(** The inner record is written as a record of its own; in the outer
    record it is an empty field. *)
Lemma nested_record_emptied_witness :
  mkElement "person" [] None [] = clear (mkElement "person" [] None [])
  /\ child_value (mkElement "person" [] None []) ∅ = VStr "".
Proof.
  apply (nested_record_emptied "person" dee
           (person [leaf "name" "Dee"; mkElement "person" [] None []])
           (mkElement "person" [] None []) ∅).
  - unfold yielded. vm_compute. set_solver.
  - simpl. set_solver.
  - reflexivity.
Defined.

Example nested_record_projected :
  records ∅ "person" (yielded "person" dee)
  = [ [("name", VStr "Eve")]; [("name", VStr "Dee"); ("person", VStr "")] ].
Proof. vm_compute. reflexivity. Qed.

Lemma iterparse_no_record rt e :
  has_record rt e = false -> iterparse rt e = (end_order e, e).
Proof.
  induction e as [t a x cs IH] using Element_nested_ind. simpl.
  intros [Ht Hcs]%orb_false_iff. rewrite Ht.
  assert (map (iterparse rt) cs = map (fun c => (end_order c, c)) cs) as ->.
  { induction IH as [|c cs Hc _ IHcs]; simpl; [done|].
    simpl in Hcs. apply orb_false_iff in Hcs as [H1 H2].
    by rewrite Hc, IHcs. }
  rewrite !map_map. simpl. by rewrite map_id.
Qed.

Lemma iterparse_unnested rt e :
  unnested rt e = true ->
  filter (fun e => is_record rt e = true) (fst (iterparse rt e))
  = filter (fun e => is_record rt e = true) (end_order e).
Proof.
  induction e as [t a x cs IH] using Element_nested_ind. simpl.
  intros [Ht Hcs]%andb_true_iff. rewrite !filter_app. f_equal.
  - clear Ht. induction IH as [|c cs Hc _ IHcs]; simpl; [done|].
    simpl in Hcs. apply andb_true_iff in Hcs as [H1 H2].
    by rewrite !filter_app, Hc, IHcs.
  - destruct (String.eqb t rt) eqn:E.
    + assert (map snd (map (iterparse rt) cs) = cs) as ->; [|done].
      clear IH Hcs. induction cs as [|c cs IHcs]; simpl; [done|].
      simpl in Ht. apply andb_true_iff in Ht as [H1 H2].
      apply negb_true_iff in H1. by rewrite (iterparse_no_record _ _ H1), IHcs.
    + rewrite !filter_cons_False; [done | |]; unfold is_record; simpl; by rewrite E.
Qed.

(** When no record element of the document stands inside another one,
    the records that the loop reads are the elements of the document
    that carry the record tag, in document order, each with the
    attributes, text and children it has in the document. *)
Theorem unnested_records_intact :
  forall (record_tag : string) (mapping : gmap string string) (root : Element),
    unnested record_tag root = true ->
    filter (fun e => is_record record_tag e = true) (yielded record_tag root)
    = filter (fun e => is_record record_tag e = true) (end_order root)
    /\ records mapping record_tag (yielded record_tag root)
       = records mapping record_tag (end_order root).
Proof.
  intros rt mapping root H. pose proof (iterparse_unnested _ _ H) as E.
  split; [exact E|]. unfold records. unfold is_record in E. unfold yielded.
  by rewrite E.
Qed.

(** The three sample records under one root. *)
Lemma unnested_records_intact_witness :
  records ∅ "person" (yielded "person" people) = records ∅ "person" (end_order people).
Proof.
  exact (proj2 (unnested_records_intact "person" ∅ people eq_refl)).
Defined.

Example people_records :
  records ∅ "person" (yielded "person" people)
  = [person_elem_to_dict ann ∅; person_elem_to_dict bob ∅; person_elem_to_dict cy ∅].
Proof. vm_compute. reflexivity. Qed.

(** ** What stays in memory *)



(** ** The mapping loader *)

Section LoaderStep.

(** One round of the loop of [load_mapping]. *)
Local Abbreviation step :=
  (fun (mapping : loaded_mapping) (m : Element) =>
     if dict_in "from" (attrib m) && dict_in "to" (attrib m)
     then <[dict_get "from" (attrib m) := dict_get "to" (attrib m)]> mapping
     else
       match find "source" m, find "target" m with
       | Some src, Some tgt => <[text src := text tgt]> mapping
       | _, _ => mapping
       end).

Lemma loader_step_union mapping m : step mapping m = step ∅ m ∪ mapping.
Proof.
  simpl. destruct (_ && _).
  - by rewrite insert_empty, <- insert_union_singleton_l.
  - destruct (find "source" m) as [src|], (find "target" m) as [tgt|].
    + by rewrite insert_empty, <- insert_union_singleton_l.
    + by rewrite (left_id_L ∅ (∪)).
    + by rewrite (left_id_L ∅ (∪)).
    + by rewrite (left_id_L ∅ (∪)).
Qed.


Lemma loader_fold_values l mapping k v :
  fold_left step l mapping !! k = Some v ->
  mapping !! k = Some v
  \/ exists m, m ∈ l /\ step ∅ m !! k = Some v.
Proof.
  revert mapping. induction l as [|m l IH]; intros mapping; [by left|].
  cbn [fold_left]. intros [H | (m' & Hin & H)]%IH.
  - rewrite loader_step_union in H. apply lookup_union_Some_raw in H as [H | [_ H]].
    + right. exists m. split; [by apply elem_of_cons; left | done].
    + by left.
  - right. exists m'. split; [by apply elem_of_cons; right | done].
Qed.

Lemma loader_step_target m k v :
  step ∅ m !! k = Some v ->
  v <> None \/ exists tgt, find "target" m = Some tgt /\ v = text tgt.
Proof.
  simpl. destruct (dict_in "from" (attrib m) && dict_in "to" (attrib m)) eqn:E.
  - apply andb_true_iff in E as [_ E]. unfold dict_in in E.
    destruct (dict_get "to" (attrib m)) as [b|]; [|discriminate].
    intros [[_ <-] | [_ H]]%lookup_insert_Some; [by left | by rewrite lookup_empty in H].
  - destruct (find "source" m) as [src|], (find "target" m) as [tgt|];
      try (by rewrite lookup_empty).
    intros [[_ <-] | [_ H]]%lookup_insert_Some; [|by rewrite lookup_empty in H].
    right. by exists tgt.
Qed.

End LoaderStep.



Example xml_mapping_two_forms :
  load_mapping_xml
    (mapping_file [map_from_to "birth" "dob"; entry_source_target "birth" "born";
                   leaf "note" "no entry"])
  = {[ Some "birth" := Some "born" ]}.
Proof. vm_compute. reflexivity. Qed.

Lemma NoDup_str_entries (l : list (option string * option string)) :
  NoDup (map fst l) -> NoDup (map fst (omap str_entry l)).
Proof.
  induction l as [|[k v] l IH]; [intros _; constructor|].
  cbn [map fst]. intros [Hk Hl]%NoDup_cons. specialize (IH Hl).
  destruct k as [k|], v as [v|]; try exact IH.
  change (NoDup (k :: map fst (omap str_entry l))).
  apply NoDup_cons. split; [|exact IH].
  intros Hin. apply Hk.
  apply list_elem_of_fmap in Hin as ([k' v'] & Ek & Hin). simpl in Ek. subst k'.
  apply list_elem_of_omap in Hin as ([k0 v0] & Hin & E).
  destruct k0 as [k0|], v0 as [v0|]; try discriminate. injection E as -> ->.
  apply list_elem_of_fmap. by exists (Some k, Some v').
Qed.

Lemma str_table_lookup mapping k :
  str_table mapping !! k =
  match mapping !! Some k with
  | Some (Some v) => Some v
  | _ => None
  end.
Proof.
  unfold str_table.
  destruct (mapping !! Some k) as [[v|]|] eqn:E.
  - apply elem_of_list_to_map_1.
    + apply NoDup_str_entries, NoDup_fst_map_to_list.
    + apply list_elem_of_omap. exists (Some k, Some v).
      split; [by apply elem_of_map_to_list | done].
  - apply not_elem_of_list_to_map_1. intros Hin.
    apply list_elem_of_fmap in Hin as ([k' v'] & Ek & Hin). simpl in Ek. subst k'.
    apply list_elem_of_omap in Hin as ([k0 v0] & Hin & E0).
    destruct k0 as [k0|], v0 as [v0|]; try discriminate. injection E0 as -> ->.
    apply elem_of_map_to_list in Hin. congruence.
  - apply not_elem_of_list_to_map_1. intros Hin.
    apply list_elem_of_fmap in Hin as ([k' v'] & Ek & Hin). simpl in Ek. subst k'.
    apply list_elem_of_omap in Hin as ([k0 v0] & Hin & E0).
    destruct k0 as [k0|], v0 as [v0|]; try discriminate. injection E0 as -> ->.
    apply elem_of_map_to_list in Hin. congruence.
Qed.

(** When every target element of the mapping file has a text, the
    loaded table translates every name to a name, and it does so as
    [map_tag] does with the table of its name-to-name entries: the
    projector gets a table from strings to strings. *)
Theorem loaded_table_translates :
  forall (root : Element) (t : string),
    targets_have_text root ->
    map_tag_loaded t (load_mapping_xml root)
    = Some (map_tag t (str_table (load_mapping_xml root))).
Proof.
  intros root t Htxt. unfold map_tag_loaded, map_tag.
  rewrite str_table_lookup.
  destruct (load_mapping_xml root !! Some t) as [[v|]|] eqn:E; try done.
  exfalso. unfold load_mapping_xml in E.
  apply loader_fold_values in E as [E | (m & Hin & E)]; [by rewrite lookup_empty in E|].
  apply loader_step_target in E as [E | (tgt & Hf & E)]; [done|].
  by apply (Htxt m tgt).
Qed.

(** The table that renames [birth] to [dob], loaded from XML. *)
Lemma loaded_table_translates_witness :
  map_tag_loaded "birth" (load_mapping_xml (mapping_file [map_from_to "birth" "dob"]))
  = Some (map_tag "birth"
            (str_table (load_mapping_xml (mapping_file [map_from_to "birth" "dob"])))).
Proof.
  apply (loaded_table_translates (mapping_file [map_from_to "birth" "dob"]) "birth").
  intros m tgt Hin. simpl in Hin. apply list_elem_of_singleton in Hin as ->.
  discriminate.
Defined.

(** A target without text: the name is translated to [None]. *)
Example target_without_text :
  map_tag_loaded "birth" (load_mapping_xml (mapping_file [entry_no_target_text])) = None.
Proof. vm_compute. reflexivity. Qed.

(** An element of the mapping file that is no entry (it lacks one of the
    attributes [from] and [to], and one of the children [source] and
    [target]) is passed over without a word: the table is the one of
    the file without it. *)
Theorem xml_mapping_skips_incomplete :
  forall (root : Element) (pre : list Element) (m : Element) (post : list Element),
    children root = (pre ++ m :: post)%list ->
    dict_get "from" (attrib m) = None \/ dict_get "to" (attrib m) = None ->
    find "source" m = None \/ find "target" m = None ->
    load_mapping_xml root = load_mapping_xml (mapping_file (pre ++ post)).
Proof.
  intros root pre m post Hch Hattr Hsub. unfold load_mapping_xml.
  rewrite Hch. simpl children. rewrite !fold_left_app. cbn [fold_left].
  f_equal.
  assert (dict_in "from" (attrib m) && dict_in "to" (attrib m) = false) as ->.
  { unfold dict_in. destruct Hattr as [-> | ->]; [done|]. apply andb_false_r. }
  destruct Hsub as [-> | ->]; [done|]. by destruct (find "source" m).
Qed.

(** An entry that is misspelled: [<map form="birth" to="dob"/>]. *)
Lemma xml_mapping_skips_incomplete_witness :
  load_mapping_xml
    (mapping_file [mkElement "map" [("form", "birth"); ("to", "dob")] None [];
                   map_from_to "name" "nombre"])
  = load_mapping_xml (mapping_file ([] ++ [map_from_to "name" "nombre"])).
Proof.
  apply (xml_mapping_skips_incomplete
           (mapping_file [mkElement "map" [("form", "birth"); ("to", "dob")] None [];
                          map_from_to "name" "nombre"])
           [] (mkElement "map" [("form", "birth"); ("to", "dob")] None [])
           [map_from_to "name" "nombre"] eq_refl).
  - left. reflexivity.
  - left. reflexivity.
Defined.

(** * The merge *)

Lemma pyval_nested_ind (P : pyval -> Prop) :
  P PNone -> (forall s, P (PScalar s)) ->
  (forall d, Forall (fun kv => P (snd kv)) d -> P (PDict d)) ->
  (forall l, Forall P l -> P (PList l)) -> forall v, P v.
Proof.
  intros HN HS HD HL. fix IH 1. intros [|s|d|l].
  - exact HN.
  - apply HS.
  - apply HD. induction d as [|[k v] d IHd]; constructor; [apply IH | exact IHd].
  - apply HL. induction l as [|v l IHl]; constructor; [apply IH | exact IHl].
Qed.

Lemma sax_run_app evs1 evs2 st :
  sax_run (evs1 ++ evs2) st =
  match sax_run evs1 st with
  | Some st' => sax_run evs2 st'
  | None => None
  end.
Proof.
  revert st. induction evs1 as [|ev evs1 IH]; intros st; simpl; [done|].
  destruct (sax_step st ev); [apply IH | done].
Qed.

Lemma sax_run_leaf k s st :
  sax_run [startElement k []; characters s; endElement k] st
  = Some (attach (mkElement k [] (text_of s) []) st).
Proof. destruct st as [stack top]. simpl. by rewrite String.eqb_refl. Qed.

Lemma sax_run_empty k st :
  sax_run [startElement k []; endElement k] st
  = Some (attach (mkElement k [] None []) st).
Proof. destruct st as [stack top]. simpl. by rewrite String.eqb_refl. Qed.

Lemma attach_frame e t cs stack top :
  attach e (mkFrame t [] "" cs :: stack, top)
  = (mkFrame t [] "" (cs ++ [e]) :: stack, top).
Proof. reflexivity. Qed.

Lemma replace_no_space k : no_space (replace " " "_" k).
Proof.
  unfold no_space. induction k as [|c k IH]; simpl; [done|].
  rewrite IH, andb_true_r. by destruct (Ascii.eqb_spec c " ") as [->|Hc]; [|apply negb_true_iff, Ascii.eqb_neq].
Qed.

Lemma replace_id k : no_space k -> replace " " "_" k = k.
Proof.
  unfold no_space. induction k as [|c k IH]; simpl; [done|].
  intros [Hc Hk]%andb_true_iff. apply negb_true_iff in Hc. by rewrite Hc, IH.
Qed.

Section MergeProofs.

Context (list_repr : list pyval -> string).

(** The calls for a value describe its element. *)
Local Abbreviation written_ok data :=
  (forall tagname st,
     sax_run (write_record_as_xml list_repr tagname data) st
     = Some (attach (xml_of list_repr tagname data) st)).

Lemma written_ok_items l safe_k t cs stack top :
  Forall (fun item => written_ok item) l ->
  sax_run
    (flat_map
       (fun item =>
          match item with
          | PDict _ | PList _ => write_record_as_xml list_repr safe_k item
          | PNone => [startElement safe_k []; characters "None"; endElement safe_k]
          | PScalar s => [startElement safe_k []; characters s; endElement safe_k]
          end) l)
    (mkFrame t [] "" cs :: stack, top)
  = Some (mkFrame t [] ""
            (cs ++ map (fun item =>
                          match item with
                          | PDict _ | PList _ => xml_of list_repr safe_k item
                          | PNone => mkElement safe_k [] (Some "None") []
                          | PScalar s => mkElement safe_k [] (text_of s) []
                          end) l) :: stack, top).
Proof.
  intros Hl. revert cs. induction Hl as [|item l Hitem _ IH]; intros cs.
  - simpl. by rewrite app_nil_r.
  - cbn [flat_map map]. rewrite sax_run_app.
    assert (forall e, attach e (mkFrame t [] "" cs :: stack, top)
                      = (mkFrame t [] "" (cs ++ [e]) :: stack, top)) as Ha by done.
    destruct item as [|s|d|l'].
    + rewrite (sax_run_leaf safe_k "None"), Ha, IH. by rewrite <- app_assoc.
    + rewrite sax_run_leaf, Ha, IH. by rewrite <- app_assoc.
    + rewrite Hitem, Ha, IH. by rewrite <- app_assoc.
    + rewrite Hitem, Ha, IH. by rewrite <- app_assoc.
Qed.

Lemma written_ok_all data :
  written_ok data
  /\ match data with
     | PList l => Forall (fun item => written_ok item) l
     | _ => True
     end.
Proof.
  induction data as [|s|d IH|l IH] using pyval_nested_ind.
  - split; [|done]. intros t st. apply (sax_run_leaf t "None").
  - split; [|done]. intros t st. apply sax_run_leaf.
  - split; [|done]. intros t [stack top].
    cbn [write_record_as_xml xml_of].
    change (sax_run (startElement t [] :: ?l) (stack, top))
      with (sax_run l (mkFrame t [] "" [] :: stack, top)).
    rewrite sax_run_app.
    match goal with
    | |- context [sax_run (flat_map ?F d) _] =>
        match goal with
        | |- context [mkElement t [] None (flat_map ?G d)] =>
            assert (forall cs,
                      sax_run (flat_map F d) (mkFrame t [] "" cs :: stack, top)
                      = Some (mkFrame t [] "" (cs ++ flat_map G d) :: stack, top)) as Hd
        end
    end.
    { induction IH as [|[k v] d [Hv Hl] _ IHd]; intros cs.
      - simpl. by rewrite app_nil_r.
      - cbn [flat_map]. rewrite sax_run_app. simpl in Hv, Hl.
        destruct v as [|s|d'|l'].
        + rewrite sax_run_empty, attach_frame, IHd. by rewrite <- app_assoc.
        + rewrite sax_run_leaf, attach_frame, IHd. by rewrite <- app_assoc.
        + rewrite Hv, attach_frame, IHd. by rewrite <- app_assoc.
        + rewrite (written_ok_items _ _ _ _ _ _ Hl), IHd. by rewrite <- app_assoc. }
    rewrite Hd. simpl. by rewrite String.eqb_refl.
  - split.
    + intros t st. apply sax_run_leaf.
    + eapply Forall_impl; [exact IH|]. by intros item [H _].
Qed.

Lemma written_tree tagname data :
  sax_tree (write_record_as_xml list_repr tagname data)
  = Some (xml_of list_repr tagname data).
Proof.
  unfold sax_tree. by rewrite (proj1 (written_ok_all data) tagname ([], [])).
Qed.

Lemma written_names data :
  (forall tagname n a,
     startElement n a ∈ write_record_as_xml list_repr tagname data ->
     a = [] /\ (n = tagname \/ no_space n))
  /\ match data with
     | PList l =>
         Forall (fun item =>
                   forall tagname n a,
                     startElement n a ∈ write_record_as_xml list_repr tagname item ->
                     a = [] /\ (n = tagname \/ no_space n)) l
     | _ => True
     end.
Proof.
  assert (forall t s n a,
            startElement n a ∈ [startElement t []; characters s; endElement t] ->
            a = [] /\ n = t) as Hleaf.
  { intros t s n a H. repeat (apply elem_of_cons in H as [H|H]; [by inversion H|]).
    by apply elem_of_nil in H. }
  induction data as [|s|d IH|l IH] using pyval_nested_ind.
  - split; [|done]. intros t n a H. apply Hleaf in H as [-> ->]. auto.
  - split; [|done]. intros t n a H. apply Hleaf in H as [-> ->]. auto.
  - split; [|done]. intros t n a. cbn [write_record_as_xml].
    intros [H | H]%elem_of_cons; [injection H as -> ->; auto|].
    apply elem_of_app in H as [H | H].
    2:{ apply list_elem_of_singleton in H. discriminate. }
    apply list_elem_of_In, in_flat_map in H as ([k v] & Hkv & H).
    apply list_elem_of_In in Hkv, H.
    rewrite Forall_forall in IH. specialize (IH _ Hkv). simpl in IH.
    pose proof (replace_no_space k) as Hk.
    destruct v as [|s|d'|l'].
    + repeat (apply elem_of_cons in H as [H|H]; [inversion H; subst; auto|]).
      by apply elem_of_nil in H.
    + apply Hleaf in H as [-> ->]. auto.
    + destruct IH as [IH _]. apply IH in H as [-> [-> | Hn]]; auto.
    + destruct IH as [_ IH].
      apply list_elem_of_In, in_flat_map in H as (item & Hitem & H).
      apply list_elem_of_In in Hitem, H.
      rewrite Forall_forall in IH. specialize (IH _ Hitem).
      destruct item as [|s|d'|l''].
      * apply Hleaf in H as [-> ->]. auto.
      * apply Hleaf in H as [-> ->]. auto.
      * apply IH in H as [-> [-> | Hn]]; auto.
      * apply IH in H as [-> [-> | Hn]]; auto.
  - split.
    + intros t n a H. apply Hleaf in H as [-> ->]. auto.
    + eapply Forall_impl; [exact IH|]. by intros item [H _].
Qed.

End MergeProofs.

(** Whatever the value, the calls that [write_record_as_xml] makes on
    the generator are well nested and describe one element, which
    carries the tag name that was asked for; no element gets an
    attribute, and the name of every element inside holds no space. *)
Theorem written_calls_well_nested :
  forall (list_repr : list pyval -> string) (tagname : string) (data : pyval),
    (exists e, sax_tree (write_record_as_xml list_repr tagname data) = Some e
               /\ tag e = tagname /\ attrib e = [])
    /\ (forall n a,
          startElement n a ∈ write_record_as_xml list_repr tagname data ->
          a = [] /\ (n = tagname \/ no_space n)).
Proof.
  intros list_repr tagname data. split.
  - exists (xml_of list_repr tagname data). split; [apply written_tree|].
    by destruct data.
  - apply written_names.
Qed.

(** ** From the record to XML and back *)

Lemma append_empty_r (s : string) : s ++ "" = s.
Proof. induction s as [|c s IH]; [done|]. by rewrite append_cons, IH. Qed.

Lemma strip_idempotent s : strip (strip s) = strip s.
Proof.
  symmetry. apply trimmed_of_strip.
  destruct (strip_trimmed s) as (l & r & _ & _ & _ & Hf & Hl).
  exists "", "". by rewrite append_nil, append_empty_r.
Qed.

Lemma text_or_empty_trimmed e : strip (text_or_empty e) = text_or_empty e.
Proof.
  unfold text_or_empty. destruct (text e) as [t|]; [|done].
  destruct (str_truthy t); [apply strip_idempotent | done].
Qed.

Lemma map_tag_empty t : map_tag t ∅ = t.
Proof. unfold map_tag. by rewrite lookup_empty. Qed.

Lemma elem_of_dict_get {V} k (v : V) d :
  NoDup (dict_keys d) -> (k, v) ∈ d -> dict_get k d = Some v.
Proof.
  induction d as [|[k0 v0] d IH]; simpl; [by intros _ ?%elem_of_nil|].
  intros [Hk Hd]%NoDup_cons [[= -> ->] | Hin]%elem_of_cons.
  - by rewrite String.eqb_refl.
  - destruct (String.eqb_spec k0 k) as [->|]; [|by apply IH].
    exfalso. apply Hk. by apply (elem_of_dict_keys _ v).
Qed.

Lemma assign_all_fresh {X V : Type} (name : X -> string) (val : X -> V) l d :
  NoDup (dict_keys d ++ map name l) ->
  assign_all name val l d = (d ++ map (fun x => (name x, val x)) l)%list.
Proof.
  revert d. induction l as [|x l IH]; intros d Hnd; simpl.
  - by rewrite app_nil_r.
  - change (fold_left _ l ?d0) with (assign_all name val l d0).
    assert (dict_get (name x) d = None) as Hx.
    { apply dict_get_None_keys. intros Hin.
      apply NoDup_app in Hnd as (_ & Hd & _). apply (Hd _ Hin).
      apply elem_of_cons. by left. }
    rewrite (dict_set_new _ _ _ Hx), IH.
    + by rewrite <- app_assoc.
    + unfold dict_keys. rewrite map_app. simpl. by rewrite <- app_assoc.
Qed.

Lemma text_or_empty_text_of k s :
  strip s = s -> text_or_empty (mkElement k [] (text_of s) []) = s.
Proof.
  intros Hs. unfold text_or_empty, text_of. simpl.
  destruct (String.eqb_spec s "") as [->|Hne]; [done|]. simpl.
  destruct s; [done | exact Hs].
Qed.

Lemma field_element_value kv :
  match snd kv with
  | VStr s => strip s = s
  | VDict sub => mergeable_sub sub
  end ->
  child_value (field_element kv) ∅ = snd kv.
Proof.
  destruct kv as [k [s|sub]]; simpl.
  - intros Hs. unfold field_element. simpl.
    rewrite child_value_leaf by done. by rewrite text_or_empty_text_of.
  - intros (Hne & Hnd & Hall). unfold field_element. simpl.
    rewrite child_value_nested by (simpl; by destruct sub).
    f_equal. rewrite sub_dict_assign. simpl.
    rewrite assign_all_fresh.
    + simpl. rewrite map_map. rewrite <- (map_id sub) at 2.
      apply map_ext_Forall. eapply Forall_impl; [exact Hall|].
      intros [k' s'] [_ Hs']. simpl in *.
      by rewrite map_tag_empty, text_or_empty_text_of.
    + simpl. rewrite map_map. simpl.
      erewrite map_ext; [exact Hnd|]. intros [k' s']. simpl. apply map_tag_empty.
Qed.

(** The fields of a record that can be given back, written as elements
    and projected without a mapping, are the record. *)
Lemma fields_project_back t r :
  mergeable r ->
  person_elem_to_dict (mkElement t [] None (map field_element r)) ∅ = r.
Proof.
  intros [Hnd Hall]. rewrite person_elem_to_dict_assign. simpl.
  rewrite assign_all_fresh.
  - simpl. rewrite map_map. rewrite <- (map_id r) at 2.
    apply map_ext_Forall. eapply Forall_impl; [exact Hall|].
    intros [k v] [_ Hv]. simpl in *.
    rewrite (field_element_value (k, v) Hv). simpl.
    f_equal. rewrite map_tag_empty. by destruct v.
  - simpl. rewrite map_map.
    erewrite map_ext; [exact Hnd|]. intros [k v]. simpl.
    rewrite map_tag_empty. by destruct v.
Qed.

Lemma xml_of_record list_repr t r :
  Forall (fun kv =>
            no_space (fst kv)
            /\ match snd kv with
               | VStr s => True
               | VDict sub => Forall (fun ks => no_space (fst ks)) sub
               end) r ->
  xml_of list_repr t (to_py r) = mkElement t [] None (map field_element r).
Proof.
  intros Hall. unfold to_py. cbn [xml_of]. f_equal.
  induction Hall as [|[k v] r [Hk Hv] _ IH]; [done|].
  cbn [map flat_map fst snd]. rewrite IH. simpl in Hk, Hv.
  rewrite (replace_id _ Hk). destruct v as [s|sub]; cbn [to_py_value]; [done|].
  unfold field_element. cbn [fst snd app xml_of]. do 2 f_equal. clear IH.
  induction Hv as [|[k' s'] sub Hk' _ IHsub]; [done|].
  cbn [map flat_map fst snd app]. simpl in Hk'. by rewrite (replace_id _ Hk'), IHsub.
Qed.

Lemma mergeable_names r :
  mergeable r ->
  Forall (fun kv =>
            no_space (fst kv)
            /\ match snd kv with
               | VStr s => True
               | VDict sub => Forall (fun ks => no_space (fst ks)) sub
               end) r.
Proof.
  intros [_ Hall]. eapply Forall_impl; [exact Hall|].
  intros [k [s|sub]]; simpl; [tauto|]. intros [Hk (_ & _ & Hsub)].
  split; [done|]. eapply Forall_impl; [exact Hsub|]. by intros ks [? _].
Qed.

(** What the projector gives for an element with plain names can be
    given back. *)
Lemma projected_mergeable elem mapping :
  spaceless_element elem mapping -> mergeable (person_elem_to_dict elem mapping).
Proof.
  intros [Hattr Hch]. rewrite Forall_forall in Hattr. rewrite Forall_forall in Hch.
  assert (NoDup (dict_keys (person_elem_to_dict elem mapping))) as Hnd.
  { rewrite person_elem_to_dict_assign. apply assign_all_NoDup, assign_all_NoDup.
    constructor. }
  split; [exact Hnd|]. apply Forall_forall. intros [k v] Hin. simpl.
  apply (elem_of_dict_get _ _ _ Hnd) in Hin.
  rewrite person_elem_to_dict_assign in Hin.
  apply assign_all_get_inv in Hin as [Hin | (c & Hc & -> & ->)].
  - apply assign_all_get_inv in Hin as [Hin | ([a b] & Ha & -> & ->)]; [discriminate|].
    destruct (Hattr _ Ha) as [Hn Hs]. simpl in *.
    by rewrite map_tag_translated.
  - destruct (Hch _ Hc) as [Hn Hg]. rewrite map_tag_translated. split; [done|].
    destruct (children c) as [|g gs] eqn:Ec.
    + rewrite child_value_leaf by done. apply text_or_empty_trimmed.
    + rewrite child_value_nested by (by rewrite Ec).
      assert (NoDup (dict_keys (sub_dict c mapping))) as Hnd'.
      { rewrite sub_dict_assign. apply assign_all_NoDup. constructor. }
      split; [|split; [exact Hnd'|]].
      * intros Hnil.
        assert (translated mapping (tag g) ∈ dict_keys (sub_dict c mapping)) as Hk.
        { apply sub_dict_keys. exists g. split; [|done]. rewrite Ec.
          apply elem_of_cons. by left. }
        rewrite Hnil in Hk. by apply elem_of_nil in Hk.
      * apply Forall_forall. intros [k' s'] Hin'. simpl.
        apply (elem_of_dict_get _ _ _ Hnd') in Hin'.
        rewrite sub_dict_assign in Hin'.
        apply assign_all_get_inv in Hin' as [Hin' | (g' & Hg' & -> & ->)];
          [discriminate|].
        rewrite Forall_forall in Hg. rewrite Ec in Hg'.
        split; [rewrite map_tag_translated; by apply Hg | apply text_or_empty_trimmed].
Qed.

Lemma str_all_lstrip P s : str_all P s = true -> str_all P (lstrip s) = true.
Proof.
  induction s as [|c s IH]; simpl; [done|]. intros H.
  destruct (char_isspace c); [|done]. apply IH.
  by apply andb_true_iff in H as [_ ?].
Qed.

Lemma str_all_rstrip P s : str_all P s = true -> str_all P (rstrip s) = true.
Proof.
  induction s as [|c s IH]; simpl; [done|].
  intros [Hc Hs]%andb_true_iff. specialize (IH Hs).
  destruct (rstrip s) as [|d r].
  - destruct (char_isspace c); simpl; [done | by rewrite Hc].
  - change (P c && str_all P (String d r) = true). by rewrite Hc, IH.
Qed.

Lemma str_all_strip P s : str_all P s = true -> str_all P (strip s) = true.
Proof. intros H. by apply str_all_rstrip, str_all_lstrip. Qed.

Lemma text_or_empty_chars e :
  xml_text (text e) -> str_all text_char (text_or_empty e) = true.
Proof.
  unfold xml_text, text_or_empty. destruct (text e) as [t|]; [|done].
  intros H. destruct (str_truthy t); [by apply str_all_strip | done].
Qed.

Lemma name_char_no_space c : name_char c = true -> negb (Ascii.eqb c " ") = true.
Proof.
  destruct (Ascii.eqb_spec c " ") as [->|]; [|done]. vm_compute. discriminate.
Qed.

Lemma element_name_no_space k : element_name k = true -> no_space k.
Proof.
  unfold no_space. destruct k as [|c k]; [done|]. simpl.
  intros [Hc Hk]%andb_true_iff.
  assert (name_char c = true) as Hc' by (unfold name_char; by rewrite Hc).
  rewrite (name_char_no_space _ Hc'). simpl.
  induction k as [|d k IH]; simpl in *; [done|].
  apply andb_true_iff in Hk as [Hd Hk]. by rewrite (name_char_no_space _ Hd), IH.
Qed.

Lemma plain_spaceless elem mapping :
  plain_element elem mapping -> spaceless_element elem mapping.
Proof.
  intros [Ha Hc]. split.
  - eapply Forall_impl; [exact Ha|]. intros kv (Hn & Hs & _).
    split; [by apply element_name_no_space | done].
  - eapply Forall_impl; [exact Hc|]. intros c (Hn & _ & Hg).
    split; [by apply element_name_no_space|].
    eapply Forall_impl; [exact Hg|]. intros g [Hgn _].
    by apply element_name_no_space.
Qed.

(** What the projector gives for a plain element has element names and
    texts that are read back. *)
Lemma projected_readable elem mapping :
  plain_element elem mapping -> readable (person_elem_to_dict elem mapping).
Proof.
  intros [Hattr Hch]. rewrite Forall_forall in Hattr. rewrite Forall_forall in Hch.
  assert (NoDup (dict_keys (person_elem_to_dict elem mapping))) as Hnd.
  { rewrite person_elem_to_dict_assign. apply assign_all_NoDup, assign_all_NoDup.
    constructor. }
  apply Forall_forall. intros [k v] Hin. simpl.
  apply (elem_of_dict_get _ _ _ Hnd) in Hin.
  rewrite person_elem_to_dict_assign in Hin.
  apply assign_all_get_inv in Hin as [Hin | (c & Hc & -> & ->)].
  - apply assign_all_get_inv in Hin as [Hin | ([a b] & Ha & -> & ->)]; [discriminate|].
    destruct (Hattr _ Ha) as (Hn & _ & Hs). simpl in *.
    by rewrite map_tag_translated.
  - destruct (Hch _ Hc) as (Hn & Hx & Hg). rewrite map_tag_translated.
    split; [done|].
    destruct (children c) as [|g gs] eqn:Ec.
    + rewrite child_value_leaf by done. by apply text_or_empty_chars.
    + rewrite child_value_nested by (by rewrite Ec).
      assert (NoDup (dict_keys (sub_dict c mapping))) as Hnd'.
      { rewrite sub_dict_assign. apply assign_all_NoDup. constructor. }
      apply Forall_forall. intros [k' s'] Hin'. simpl.
      apply (elem_of_dict_get _ _ _ Hnd') in Hin'.
      rewrite sub_dict_assign in Hin'.
      apply assign_all_get_inv in Hin' as [Hin' | (g' & Hg' & -> & ->)];
        [discriminate|].
      rewrite Forall_forall in Hg. rewrite Ec in Hg'.
      destruct (Hg _ Hg') as [Hgn Hgx].
      split; [by rewrite map_tag_translated | by apply text_or_empty_chars].
Qed.

Lemma text_of_reads_back s :
  str_all text_char s = true ->
  match text_of s with
  | Some s' => negb (String.eqb s' "") && str_all text_char s'
  | None => true
  end = true.
Proof.
  intros H. unfold text_of. destruct (String.eqb s "") eqn:E; [done|].
  by rewrite E, H.
Qed.

(** The element that the merge writes for a readable record is read
    back. *)
Lemma fields_read_back r :
  readable r -> reads_back (mkElement "Person" [] None (map field_element r)) = true.
Proof.
  intros Hr. cbn [reads_back]. change (element_name "Person") with true.
  cbn [andb]. induction Hr as [|[k v] r [Hk Hv] _ IH]; [done|].
  cbn [map forallb]. rewrite IH, andb_true_r. simpl in Hk, Hv.
  destruct v as [s|sub]; unfold field_element; cbn [fst snd reads_back].
  - rewrite Hk, (text_of_reads_back _ Hv). reflexivity.
  - rewrite Hk. cbn [andb].
    induction Hv as [|[k' s'] sub [Hk' Hs'] _ IHsub]; [done|].
    cbn [map forallb fst snd reads_back]. simpl in Hk', Hs'.
    rewrite Hk', (text_of_reads_back _ Hs'), IHsub. reflexivity.
Qed.

(** A record of the transcoder survives the merge: for an element whose
    translated names are element names, whose attribute values are
    trimmed and whose texts are made of characters that a parser gives
    back, the calls that the merge makes for the projected record
    describe a [Person] element; the text that the generator writes for
    it is read back as this element; and projecting it without a
    mapping gives the record again. *)
Theorem projection_survives_merge :
  forall (list_repr : list pyval -> string) (elem : Element)
         (mapping : gmap string string),
    plain_element elem mapping ->
    exists e,
      sax_tree (write_record_as_xml list_repr "Person"
                  (to_py (person_elem_to_dict elem mapping))) = Some e
      /\ reads_back e = true
      /\ tag e = "Person"
      /\ person_elem_to_dict e ∅ = person_elem_to_dict elem mapping.
Proof.
  intros list_repr elem mapping Hplain.
  pose proof (projected_mergeable _ _ (plain_spaceless _ _ Hplain)) as Hm.
  pose proof (projected_readable _ _ Hplain) as Hr.
  exists (mkElement "Person" [] None
            (map field_element (person_elem_to_dict elem mapping))).
  split; [|split; [by apply fields_read_back
                  |split; [done | by apply fields_project_back]]].
  rewrite written_tree. f_equal. by apply xml_of_record, mergeable_names.
Qed.

(** The record of an element with a nested address, under the mapping
    that renames [birth]. *)
Lemma projection_survives_merge_witness :
  exists e,
    sax_tree (write_record_as_xml (fun _ => "") "Person"
                (to_py (person_elem_to_dict with_address birth_to_dob))) = Some e
    /\ reads_back e = true
    /\ tag e = "Person"
    /\ person_elem_to_dict e ∅ = person_elem_to_dict with_address birth_to_dob.
Proof.
  apply (projection_survives_merge (fun _ => "") with_address birth_to_dob).
  split; simpl; repeat constructor; vm_compute; reflexivity.
Defined.

(** A name that is no element name, and a carriage return: the calls
    are well nested, and the text written for them is not read back as
    it is. *)
Example not_read_back :
  (reads_back <$> sax_tree (write_record_as_xml (fun _ => "") "Person"
                              (PDict [("", PScalar "x")]))) = Some false
  /\ (reads_back <$> sax_tree (write_record_as_xml (fun _ => "") "Person"
                                 (PDict [("a", PScalar (String (ascii_of_nat 13) "x"))])))
     = Some false.
Proof. split; vm_compute; reflexivity. Qed.

(** A value of an attribute is taken as it is, the merge writes it as
    the text of an element, and the projector trims it. *)
Example untrimmed_attribute_changes :
  person_elem_to_dict two_phones ∅ = [("id", VStr " 7 "); ("phone", VStr "2")]
  /\ (fun e => person_elem_to_dict e ∅) <$>
       sax_tree (write_record_as_xml (fun _ => "") "Person"
                   (to_py (person_elem_to_dict two_phones ∅)))
     = Some [("id", VStr "7"); ("phone", VStr "2")].
Proof. split; vm_compute; reflexivity. Qed.

(** * The schema reader and the transcoder *)


Lemma find_none t e : t ∉ map tag (children e) -> find t e = None.
Proof.
  unfold find. induction (children e) as [|c cs IH]; simpl; [done|].
  intros [Hc Hcs]%not_elem_of_cons.
  destruct (String.eqb_spec (tag c) t) as [E|_]; [by symmetry in E | by apply IH].
Qed.

Lemma assign_all_get_in {X V : Type} (name : X -> string) (g : string -> V) l d k :
  k ∈ map name l ->
  dict_get k (assign_all name (fun x => g (name x)) l d) = Some (g k).
Proof.
  revert d. induction l as [|x l IH]; intros d; simpl; [by intros ?%elem_of_nil|].
  change (fold_left _ l ?d0) with (assign_all name (fun x => g (name x)) l d0).
  intros Hk. destruct (decide (k ∈ map name l)) as [Hin|Hnin]; [by apply IH|].
  apply elem_of_cons in Hk as [->|]; [|done].
  rewrite assign_all_get_other.
  - apply dict_get_set_eq.
  - apply Forall_forall. intros y Hy E. apply Hnin.
    apply list_elem_of_fmap. by exists y.
Qed.

Lemma display_record_assign fields rec :
  display_record fields rec
  = assign_all (fun fld : string => fld) (fun fld => field_value (find fld rec)) fields [].
Proof. reflexivity. Qed.

(** For a schema whose field names are element names, every object
    that [display] prints has the fields of the schema and no other, in
    the order of the schema, whatever the record element holds; a field
    for which the record has no child is null. *)
Theorem displayed_fields_are_the_schema :
  forall (fields : list string) (rec : Element),
    Forall (fun fld => element_name fld = true) fields ->
    dict_keys (display_record fields rec) = first_occurrences [] fields
    /\ (forall fld, fld ∈ fields -> fld ∉ map tag (children rec) ->
          dict_get fld (display_record fields rec) = Some None).
Proof.
  intros fields rec _. rewrite display_record_assign. split.
  - rewrite assign_all_keys_order. simpl. by rewrite map_id.
  - intros fld Hin Hno.
    rewrite (assign_all_get_in (fun fld : string => fld)
               (fun fld => field_value (find fld rec))) by (by rewrite map_id).
    by rewrite find_none.
Qed.

(** The fields [city] and [zip] of [<person><city> X </city></person>]. *)
Lemma displayed_fields_are_the_schema_witness :
  dict_keys (display_record ["city"; "zip"] (person [leaf "city" " X "]))
  = first_occurrences [] ["city"; "zip"].
Proof.
  refine (proj1 (displayed_fields_are_the_schema ["city"; "zip"]
                   (person [leaf "city" " X "]) _)).
  repeat constructor.
Defined.



(** Of two children with one name [display] prints the first and the
    transcoder keeps the last. *)
Example display_first_projection_last :
  dict_get "phone" (display_record ["phone"] two_phones) = Some (Some "1")
  /\ dict_get "phone" (person_elem_to_dict two_phones ∅) = Some (VStr "2").
Proof. split; vm_compute; reflexivity. Qed.

Lemma has_record_tag rt e : has_record rt e = false -> is_record rt e = false.
Proof.
  destruct e as [t a x cs]. unfold is_record. simpl.
  by intros [-> _]%orb_false_iff.
Qed.

Lemma no_record_inside rt e :
  has_record rt e = false ->
  filter (fun e => is_record rt e = true) (descendants e) = []
  /\ filter (fun e => is_record rt e = true) (end_order e) = [].
Proof.
  induction e as [t a x cs IH] using Element_nested_ind.
  intros Hno. cbn [has_record] in Hno. apply orb_false_iff in Hno as [Ht Hcs].
  cbn [descendants end_order].
  assert (filter (fun e => is_record rt e = true)
            (flat_map (fun c => c :: descendants c) cs) = []
          /\ filter (fun e => is_record rt e = true) (concat (map end_order cs)) = [])
    as [H1 H2].
  { induction IH as [|c cs Hc _ IHcs]; [done|].
    cbn [existsb] in Hcs. apply orb_false_iff in Hcs as [Hc1 Hc2].
    destruct (Hc Hc1) as [Hd He]. destruct (IHcs Hc2) as [Hd' He'].
    cbn [flat_map map concat]. split.
    - rewrite filter_app, Hd'.
      rewrite filter_cons_False by (by rewrite (has_record_tag _ _ Hc1)).
      by rewrite Hd.
    - by rewrite filter_app, He, He'. }
  split; [exact H1|]. rewrite filter_app, H2.
  by rewrite filter_cons_False by (unfold is_record; simpl; by rewrite Ht).
Qed.

Lemma no_record_children rt cs :
  forallb (fun c => negb (has_record rt c)) cs = true ->
  filter (fun e => is_record rt e = true) (flat_map (fun c => c :: descendants c) cs) = []
  /\ filter (fun e => is_record rt e = true) (concat (map end_order cs)) = [].
Proof.
  induction cs as [|c cs IH]; [done|].
  cbn [forallb]. intros [Hc Hcs]%andb_true_iff. apply negb_true_iff in Hc.
  destruct (no_record_inside _ _ Hc) as [Hd He]. destruct (IH Hcs) as [Hd' He'].
  cbn [flat_map map concat]. split.
  - rewrite filter_app, Hd'.
    rewrite filter_cons_False by (by rewrite (has_record_tag _ _ Hc)).
    by rewrite Hd.
  - by rewrite filter_app, He, He'.
Qed.

Lemma unnested_orders rt e :
  unnested rt e = true ->
  filter (fun e => is_record rt e = true) (e :: descendants e)
  = filter (fun e => is_record rt e = true) (end_order e).
Proof.
  induction e as [t a x cs IH] using Element_nested_ind.
  intros Hun. cbn [unnested] in Hun. apply andb_true_iff in Hun as [Ht Hcs].
  cbn [descendants end_order]. rewrite filter_app.
  destruct (String.eqb t rt) eqn:E.
  - rewrite !filter_cons_True by (unfold is_record; simpl; exact E).
    by destruct (no_record_children _ _ Ht) as [-> ->].
  - rewrite filter_cons_False by (unfold is_record; simpl; by rewrite E).
    rewrite (filter_cons_False _ _ []) by (unfold is_record; simpl; by rewrite E).
    rewrite filter_nil, app_nil_r. clear Ht.
    induction IH as [|c cs Hc _ IHcs]; [done|].
    cbn [forallb] in Hcs. apply andb_true_iff in Hcs as [Hc1 Hc2].
    cbn [flat_map map concat].
    rewrite (filter_app _ (end_order c)), <- (IHcs Hc2), <- (Hc Hc1).
    by rewrite <- filter_app.
Qed.

(** When the record tag is an element name, no record element stands
    inside another one and the root is no record, the schema reader
    displays the record elements that the transcoder reads, in the same
    order and as the transcoder reads them. *)
Theorem displayed_records_are_the_transcoded :
  forall (rec_tag : string) (root : Element),
    element_name rec_tag = true ->
    unnested rec_tag root = true -> is_record rec_tag root = false ->
    findall_inside rec_tag root
    = filter (fun e => is_record rec_tag e = true) (yielded rec_tag root).
Proof.
  intros rt root _ Hun Hroot. unfold yielded.
  rewrite (iterparse_unnested _ _ Hun), <- (unnested_orders _ _ Hun).
  rewrite filter_cons_False by (by rewrite Hroot). reflexivity.
Qed.

(** The three sample records under one root. *)
Lemma displayed_records_are_the_transcoded_witness :
  findall_inside "person" people
  = filter (fun e => is_record "person" e = true) (yielded "person" people).
Proof.
  exact (displayed_records_are_the_transcoded "person" people eq_refl eq_refl eq_refl).
Defined.
